(** * Anaximander simulator: a shallow embedding and its properties

    The development follows the Go sources file by file.  Part I holds the
    embedding (one module per source file), Part II the lemmas and the
    theorems about it.

    Conventions of the embedding:
    - a Go [int] is a [Z]; casts to [uint32] write the wrap-around out;
    - a Go [string] is a [string]; a slice is a [list];
    - a Go [map[string]T] is a [gmap string T], a map used as a set of keys
      ([map[string]struct{}], [map[string]interface{}] holding [struct{}{}])
      is a [gset string]; ranging over a map enumerates it with
      [map_to_list] / [elements] (Go leaves the order unspecified, and the
      order-sensitive results are proved for every enumeration);
    - a run-time panic (index out of range, nil dereference) is [None]. *)

From Stdlib Require Import ZArith String Ascii List Lia DecimalString DecimalZ.
From stdpp Require Import gmap strings list fin_maps sorting.

Local Open Scope Z_scope.

(* ===================================================================== *)
(** * Part I: the embedding                                               *)
(* ===================================================================== *)

(** ** The Go standard library functions the sources call *)

Module Go.

(** [strings.Split (s, sep)] for a separator of one byte. *)
Fixpoint Split (sep : ascii) (s : string) : list string :=
  match s with
  | EmptyString => [EmptyString]
  | String c r =>
      if Ascii.eqb c sep then EmptyString :: Split sep r
      else match Split sep r with
           | f :: fs => String c f :: fs
           | [] => [String c EmptyString]
           end
  end.

(** [strings.Join (l, sep)]. *)
Definition Join (l : list string) (sep : string) : string :=
  String.concat sep l.

(** [strings.HasSuffix (s, suffix)]. *)
Definition HasSuffix (s suffix : string) : bool :=
  (String.length suffix <=? String.length s)%nat
  && String.eqb
       (substring (String.length s - String.length suffix)
                  (String.length suffix) s)
       suffix.

(** [strconv.Itoa]. *)
Definition Itoa (n : Z) : string :=
  NilZero.string_of_int (Z.to_int n).

(** [strconv.Atoi]: an optional sign, then decimal digits. *)
Definition Atoi (s : string) : option Z :=
  match s with
  | String "+" r =>
      match r with
      | String "-" _ | String "+" _ => None
      | _ => Z.of_int <$> NilZero.int_of_string r
      end
  | String "-" (String "+" _) | String "-" (String "-" _) => None
  | _ => Z.of_int <$> NilZero.int_of_string s
  end.

(** One binary digit of [n], as printed by the verb [%b]. *)
Definition bit_char (n : Z) (i : Z) : ascii :=
  if Z.testbit n i then "1"%char else "0"%char.

(** [fmt.Sprintf ("%08b", b)] for a byte [b]. *)
Definition Sprintf_08b (b : Z) : string :=
  String (bit_char b 7) (String (bit_char b 6) (String (bit_char b 5)
  (String (bit_char b 4) (String (bit_char b 3) (String (bit_char b 2)
  (String (bit_char b 1) (String (bit_char b 0) EmptyString))))))).

(** [strconv.ParseUint (s, 2, 8)]: [None] stands for the error result. *)
Fixpoint parse_bits (s : string) (acc : Z) : option Z :=
  match s with
  | EmptyString => Some acc
  | String "0" r => parse_bits r (2 * acc)
  | String "1" r => parse_bits r (2 * acc + 1)
  | String _ _ => None
  end.

Definition ParseUint_2_8 (s : string) : option Z :=
  match s with
  | EmptyString => None
  | _ => match parse_bits s 0 with
         | Some n => if n <=? 255 then Some n else None
         | None => None
         end
  end.

Definition is_digit (c : ascii) : bool :=
  let n := nat_of_ascii c in (48 <=? n)%nat && (n <=? 57)%nat.

Fixpoint all_digits (s : string) : bool :=
  match s with
  | EmptyString => true
  | String c r => is_digit c && all_digits r
  end.

(** One component of a dotted quad, as [net.parseIPv4] reads it: decimal
    digits, at most 255, no leading zero on a component of several
    digits. *)
Definition parse_octet (s : string) : option Z :=
  match s with
  | EmptyString => None
  | String c r =>
      if all_digits s && (String.length s <=? 3)%nat
         && negb (Ascii.eqb c "0" && negb (String.eqb r ""))
      then match Atoi s with
           | Some n => if n <=? 255 then Some n else None
           | None => None
           end
      else None
  end.

(** [net.ParseIP] on a dotted quad; the result is the four bytes of the
    address.  IPv6 literals are outside the embedding ([None]). *)
Definition ParseIP (s : string) : option (Z * Z * Z * Z) :=
  match Split "." s with
  | [a; b; c; d] =>
      match parse_octet a, parse_octet b, parse_octet c, parse_octet d with
      | Some a, Some b, Some c, Some d => Some (a, b, c, d)
      | _, _, _, _ => None
      end
  | _ => None
  end.

(** [strings.Fields]: the fields between runs of white space. *)
Definition Fields (s : string) : list string := String.words s.

(** [strings.Contains (s, sub)] for a [sub] of one byte. *)
Fixpoint Contains (s : string) (sub : ascii) : bool :=
  match s with
  | EmptyString => false
  | String c r => Ascii.eqb c sub || Contains r sub
  end.

(** The mask length of a CIDR, as [net.ParseCIDR] reads it with [dtoi]:
    decimal digits only, at least one. *)
Definition parse_mask_length (s : string) : option Z :=
  match s with
  | EmptyString => None
  | _ => if all_digits s then Atoi s else None
  end.

(** [net.IP.String] of an IPv4 address. *)
Definition IP_String (ip : Z * Z * Z * Z) : string :=
  let '(a, b, c, d) := ip in
  Itoa a +:+ "." +:+ Itoa b +:+ "." +:+ Itoa c +:+ "." +:+ Itoa d.

End Go.

(** ** ip_addresses.go *)

Module ip_addresses.
Import Go.

Definition IPv4PrefixLen : Z := 32.

(** A [net.IPNet] over IPv4: the four bytes of the address and the number
    of leading ones of the mask. *)
Record IPNet := { IP : Z * Z * Z * Z; Mask : Z }.

(** [net.IPNet.String]. *)
Definition IPNet_String (n : IPNet) : string :=
  IP_String (IP n) +:+ "/" +:+ Itoa (Mask n).

(** [binary.BigEndian.Uint32 (ip.To4 ())]. *)
Definition ip_to_uint32 (ip : Z * Z * Z * Z) : Z :=
  let '(a, b, c, d) := ip in
  Z.lor (Z.shiftl a 24) (Z.lor (Z.shiftl b 16) (Z.lor (Z.shiftl c 8) d)).

(** [binary.BigEndian.PutUint32]. *)
Definition uint32_to_ip (ip : Z) : Z * Z * Z * Z :=
  (Z.land (Z.shiftr ip 24) 255, Z.land (Z.shiftr ip 16) 255,
   Z.land (Z.shiftr ip 8) 255, Z.land ip 255).

(** [net.CIDRMask (ones, 32)] as a 32-bit value. *)
Definition CIDRMask (ones : Z) : Z := Z.shiftl (Z.ones ones) (32 - ones).

(** [ip.Mask (m)]. *)
Definition IP_Mask (ip : Z * Z * Z * Z) (m : Z) : Z * Z * Z * Z :=
  uint32_to_ip (Z.land (ip_to_uint32 ip) m).

(** [net.ParseCIDR] on an IPv4 prefix: the address as written and the
    network, its address masked.  [None] is the error result. *)
Definition ParseCIDR (s : string) : option ((Z * Z * Z * Z) * IPNet) :=
  match Split "/" s with
  | [addr; mask] =>
      match ParseIP addr, parse_mask_length mask with
      | Some ip, Some n =>
          if n <=? 32
          then Some (ip, {| IP := IP_Mask ip (CIDRMask n); Mask := n |})
          else None
      | _, _ => None
      end
  | _ => None
  end.

(** [uint32 (x)] of an [int]. *)
Definition uint32 (x : Z) : Z := Z.land x (Z.ones 32).

Definition get_subnets (subnet : IPNet) (mask_length : Z) : list IPNet :=
  let l := Mask subnet in
  let diff := mask_length - l in
  if diff <=? 0 then
    let m := CIDRMask mask_length in
    [ {| IP := IP_Mask (IP subnet) m; Mask := mask_length |} ]
  else
    let nb_subnets := Z.shiftl 1 diff in
    let ip := ip_to_uint32 (IP subnet) in
    let host_length := IPv4PrefixLen - mask_length in
    map (λ i : nat,
           let new_ip := Z.lor ip (uint32 (Z.shiftl (Z.of_nat i) host_length)) in
           {| IP := uint32_to_ip new_ip; Mask := mask_length |})
        (seq 0 (Z.to_nat nb_subnets)).

Definition get_0_string (n : Z) : option string :=
  if n <? 0 then None
  else Some (string_of_list_ascii (replicate (Z.to_nat n) "0"%char)).

(** Go's [s[lo:hi]] on a string; out of range panics. *)
Definition slice (s : string) (lo hi : Z) : option string :=
  if (0 <=? lo) && (lo <=? hi) && (hi <=? Z.of_nat (String.length s))
  then Some (substring (Z.to_nat lo) (Z.to_nat (hi - lo)) s)
  else None.

Definition get_binary_string (prefix : string) : option string :=
  match Split "/" prefix with
  | ip :: len :: _ =>
      match ParseIP ip with
      | Some (b0, b1, b2, b3) =>
          let ip_string :=
            Sprintf_08b b0 +:+ Sprintf_08b b1 +:+ Sprintf_08b b2
            +:+ Sprintf_08b b3 in
          let l := default 0 (Atoi len) in
          slice ip_string 0 l
      | None => None
      end
  | _ => None
  end.

(** The four passes of the loop [for start := 0; start <= 24; start += 8]. *)
Fixpoint get_prefix_from_binary_loop (binary : string) (starts : list Z)
         (r : string) : option string :=
  match starts with
  | [] => Some r
  | start :: rest =>
      match slice binary start (start + 8) with
      | Some chunk =>
          let c := default 0 (ParseUint_2_8 chunk) in
          get_prefix_from_binary_loop binary rest (r +:+ Itoa c +:+ ".")
      | None => None
      end
  end.

Definition get_prefix_from_binary (binary : string) : option string :=
  let mask := Z.of_nat (String.length binary) in
  match get_0_string (IPv4PrefixLen - mask) with
  | Some rest =>
      let binary := binary +:+ rest in
      match get_prefix_from_binary_loop binary [0; 8; 16; 24] "" with
      | Some r =>
          match slice r 0 (Z.of_nat (String.length r) - 1) with
          | Some r' => Some (r' +:+ "/" +:+ Itoa mask)
          | None => None
          end
      | None => None
      end
  | None => None
  end.

End ip_addresses.

(** ** utils.go (the helpers that follow [main] in main.go) *)

Module utils.
Import Go.

(** [reverse] works in place; the embedding returns the reversed slice and
    the callers rebind it. *)
Definition reverse (s : list string) : list string := rev s.

(** Go's [int] has 64 bits here, and its arithmetic wraps around. *)
Definition wrap_int (z : Z) : Z := (z + 2 ^ 63) mod 2 ^ 64 - 2 ^ 63.

(** [result := n; for i := 2; i <= m; i++ { result *= n }], the product
    wrapping around as that of two [int]s does.  For [m] below the largest
    [int]: at the largest, [i <= m] holds for every [i] and the loop does
    not end. *)
Definition IntPow (n m : Z) : Z :=
  if m =? 0 then 1
  else Nat.iter (Z.to_nat (m - 1)) (λ result, wrap_int (result * n)) n.

(** [same] reads [s[0]] first and panics on an empty slice. *)
Definition same (s : list string) : option bool :=
  match s with
  | [] => None
  | ref :: rest => Some (forallb (String.eqb ref) rest)
  end.

Definition extract_mask_length (s : string) : option Z :=
  match Split "/" s with
  | _ :: l :: _ => Atoi l
  | _ => None
  end.

(** [sort.Sort (ByLen (prefixes))]: an insertion sort on the lengths, the
    algorithm package [sort] runs on short slices. *)
Fixpoint insert_by_len (x : string) (l : list string) : list string :=
  match l with
  | [] => [x]
  | y :: r =>
      if (String.length y <=? String.length x)%nat
      then y :: insert_by_len x r else x :: l
  end.

Definition sort_ByLen (l : list string) : list string :=
  foldr insert_by_len [] (rev l).

(** The body of the loop over [index]: the characters of [smallest], from
    the first on, kept as long as every other string has the same one at
    that place. *)
Fixpoint common_with (index : nat) (todo : string) (others : list string)
  : string :=
  match todo with
  | EmptyString => EmptyString
  | String ch todo' =>
      if forallb (λ s, bool_decide (String.get index s = Some ch)) others
      then String ch (common_with (S index) todo' others)
      else EmptyString
  end.

(** Returns the sorted slice too: the sort is in place and the caller
    goes on with the slice it passed. *)
Definition longestCommonPrefix (prefixes : list string)
  : string * list string :=
  match sort_ByLen prefixes with
  | [] => (EmptyString, [])
  | (smallest :: rest) as sorted => (common_with 0 smallest rest, sorted)
  end.

Fixpoint remove_duplicates_loop (prev : string) (slice : list string)
  : list string :=
  match slice with
  | [] => []
  | s :: rest =>
      if String.eqb s prev then remove_duplicates_loop s rest
      else s :: remove_duplicates_loop s rest
  end.

Definition remove_duplicates (slice : list string) : list string :=
  remove_duplicates_loop "" slice.

Fixpoint routing_loop_from (seen : gset string) (slice : list string) : bool :=
  match slice with
  | [] => false
  | s :: rest =>
      if bool_decide (s ∈ seen) then true
      else routing_loop_from ({[s]} ∪ seen) rest
  end.

Definition routing_loop (slice : list string) : bool :=
  routing_loop_from ∅ slice.

Fixpoint find_index_from (i : Z) (slice : list string) (element : string) : Z :=
  match slice with
  | [] => -1
  | s :: rest =>
      if String.eqb s element then i else find_index_from (i + 1) rest element
  end.

Definition find_index (slice : list string) (element : string) : Z :=
  find_index_from 0 slice element.

Definition slice_to_map (s : list string) : gset string := list_to_set s.

Definition merge_maps_new (m1 m2 : gset string) : gset string := m1 ∪ m2.

(** [merge_maps] writes into [m1]; the callers rebind it. *)
Definition merge_maps (m1 m2 : gset string) : gset string := m1 ∪ m2.

Definition difference (a b : gset string) : list string :=
  filter (λ x, x ∉ b) (elements a).

Definition min (a b : Z) : Z := if a <? b then a else b.
Definition max (a b : Z) : Z := if a >? b then a else b.

End utils.

(** ** safe_set.go *)

Module safe_set.

(** The dynamic types the sources store in an [interface{}]; [X] stands
    for the payloads of one call site (structs and pointers to them). *)
Inductive value (X : Type) : Type :=
| V_struct                       (* struct{}{} *)
| V_int (n : Z)
| V_string (s : string)
| V_set (m : gset string)        (* map[string]struct{} *)
| V_strings (l : list string)    (* []string *)
| V_other (x : X).
Global Arguments V_struct {X}.
Global Arguments V_int {X} n.
Global Arguments V_string {X} s.
Global Arguments V_set {X} m.
Global Arguments V_strings {X} l.
Global Arguments V_other {X} x.

Record SafeSet (X : Type) : Type :=
  { set : gmap string (value X); fake : option (value X) }.
Global Arguments set {X} s.
Global Arguments fake {X} s.

Definition create_safeset {X} : SafeSet X := {| set := ∅; fake := None |}.

Definition fake_it {X} (s : SafeSet X) (f : value X) : SafeSet X :=
  {| set := set s; fake := Some f |}.

Definition unsafe_add {X} (s : SafeSet X) (key : string) (arg : value X)
  : SafeSet X :=
  {| set := <[key := arg]> (set s); fake := fake s |}.

(** [add (key)] without a second argument stores [struct{}{}]. *)
Definition unsafe_add_key {X} (s : SafeSet X) (key : string) : SafeSet X :=
  unsafe_add s key V_struct.

Definition unsafe_get {X} (s : SafeSet X) (key : string) : option (value X) :=
  match fake s with
  | Some f => Some f
  | None => set s !! key
  end.

Definition unsafe_contains {X} (s : SafeSet X) (key : string) : bool :=
  match fake s with
  | Some _ => true
  | None => bool_decide (is_Some (set s !! key))
  end.

(** [_append_to_set]; the type assertion failing is fatal ([None]). *)
Definition unsafe_append {X} (s : SafeSet X) (key val : string)
  : option (SafeSet X) :=
  match unsafe_get s key with
  | Some (V_set peers) => Some (unsafe_add s key (V_set ({[val]} ∪ peers)))
  | Some _ => None
  | None => Some (unsafe_add s key (V_set {[val]}))
  end.

(** The locking variants differ by the mutex only. *)
Definition add {X} := @unsafe_add X.
Definition get {X} := @unsafe_get X.
Definition contains {X} := @unsafe_contains X.
Definition append {X} := @unsafe_append X.

End safe_set.

(** ** rib_reader.go *)

Module rib_reader.
Import Go utils safe_set.

Record Rib_entry := {
  as_path : list string;
  as_to_next_hop_AS : gmap string string
}.

(** The loop [for i, as := range as_path] of [get_prev_or_next_as], at
    index [i] with [rest] still to visit. *)
Fixpoint get_prev_or_next_as_from (AS_interest : string)
         (as_path : list string) (direction : Z) (i : Z)
         (rest : list string) : string :=
  match rest with
  | [] => ""
  | as_ :: rest' =>
      if String.eqb as_ AS_interest then
        if (i + direction <? 0)
           || (i + direction >=? Z.of_nat (length as_path))
        then AS_interest
        else default "" (as_path !! Z.to_nat (i + direction))
      else get_prev_or_next_as_from AS_interest as_path direction (i + 1) rest'
  end.

Definition get_prev_or_next_as (AS_interest : string)
           (as_path : list string) (direction : Z) : string :=
  get_prev_or_next_as_from AS_interest as_path direction 0 as_path.

Definition get_Rib_entry (as_path : string) (ases_interest : list string)
           (direction : Z) : Rib_entry :=
  let ases := Split " " as_path in
  {| as_path := ases;
     as_to_next_hop_AS :=
       foldl (λ m as_interest,
                let target := get_prev_or_next_as as_interest ases direction in
                if String.eqb target "" then m
                else <[as_interest := target]> m)
             ∅ ases_interest |}.

End rib_reader.

(** ** probing_strategies_utils.go: the weights package [sort] orders *)

Module weights.

Record AS_weight := { name : string; weight : Z }.

(** [sort.Sort]: an insertion sort under [less] (the algorithm package
    [sort] runs on short slices; it keeps the order of equal elements, which
    [sort.Sort] leaves unspecified on longer ones). *)
Fixpoint insert_sorted {A} (less : A → A → bool) (x : A) (l : list A) : list A :=
  match l with
  | [] => [x]
  | y :: r => if less x y then x :: l else y :: insert_sorted less x r
  end.

Definition sort_Sort {A} (less : A → A → bool) (l : list A) : list A :=
  foldl (λ acc x, insert_sorted less x acc) [] l.

(** [ByWeight.Less]. *)
Definition ByWeight (x y : AS_weight) : bool := weight x <? weight y.

(** [sort.Reverse]. *)
Definition Reverse {A} (less : A → A → bool) (x y : A) : bool := less y x.

End weights.

(** ** caida_file_readers.go *)

Module caida_file_readers.
Import Go utils ip_addresses weights.

Definition Customer : Z := 0.
Definition Peer : Z := 1.
Definition Provider : Z := 2.
Definition Unknown : Z := 3.

(** [append_prefix (&set, as, prefix)]. *)
Definition append_prefix (set : gmap string (gset string)) (as_ prefix : string)
  : gmap string (gset string) :=
  match set !! as_ with
  | Some m => <[as_ := {[prefix]} ∪ m]> set
  | None => <[as_ := {[prefix]}]> set
  end.

(** [append_prefix (&set, as, prefix, l)] with the payload [l] (the
    relation, in [read_as_rel]). *)
Definition append_prefix_val (set : gmap string (gmap string Z))
           (as_ prefix : string) (l : Z) : gmap string (gmap string Z) :=
  match set !! as_ with
  | Some m => <[as_ := <[prefix := l]> m]> set
  | None => <[as_ := {[prefix := l]}]> set
  end.

(** [get_relationship]; an empty [as_neighbors] is fatal. *)
Definition get_relationship (as_neighbors : gmap string (gmap string Z))
           (AS_interest AS : string) : option Z :=
  if bool_decide (as_neighbors = ∅) then None
  else match as_neighbors !! AS_interest with
       | Some neighbors =>
           match neighbors !! AS with
           | Some rel => Some rel
           | None => Some Unknown
           end
       | None => Some Unknown
       end.

(** The first loop of [read_ip2as], over the lines of the file. *)
Definition read_ip2as_line
           (acc : option (gmap string (gset string) * gmap string string))
           (line : string)
  : option (gmap string (gset string) * gmap string string) :=
  match acc with
  | None => None
  | Some (_as_prefixes, _prefix_as) =>
      if String.eqb line "" || Contains line "#" || Contains line ":"
      then acc
      else match Fields line with
           | prefix :: AS :: _ =>
               if String.eqb AS "-1" then acc
               else Some (append_prefix _as_prefixes AS prefix,
                          <[prefix := AS]> _prefix_as)
           | _ => None
           end
  end.

(** The second loop: one weight per prefix, the mask length. *)
Fixpoint prefix_lens (prefixes : list string) : option (list AS_weight) :=
  match prefixes with
  | [] => Some []
  | prefix :: rest =>
      if Contains prefix ":" then prefix_lens rest
      else match extract_mask_length prefix, prefix_lens rest with
           | Some w, Some r => Some ({| name := prefix; weight := w |} :: r)
           | _, _ => None
           end
  end.

(** The third loop: the /24 of every prefix, in the sorted order. *)
Definition read_ip2as_expand (_prefix_as : gmap string string)
           (acc : option (gmap string (gset string) * gmap string string))
           (elem : AS_weight)
  : option (gmap string (gset string) * gmap string string) :=
  match acc with
  | None => None
  | Some (_as_24prefixes, _prefix24_as) =>
      let as_ := default "" (_prefix_as !! name elem) in
      match ParseCIDR (name elem) with
      | Some (_, network) =>
          Some (foldl (λ '(m1, m2) subnet,
                         (append_prefix m1 as_ (IPNet_String subnet),
                          <[IPNet_String subnet := as_]> m2))
                      (_as_24prefixes, _prefix24_as)
                      (get_subnets network 24))
      | None => None
      end
  end.

(** [read_ip2as] on the lines of the file.  The results, in the order of the
    source: [_as_24prefixes, _prefix24_as, _as_prefixes, _prefix_as];
    [None] is the fatal exit. *)
Definition read_ip2as (lines : list string)
  : option (gmap string (gset string) * gmap string string
            * gmap string (gset string) * gmap string string) :=
  match foldl read_ip2as_line (Some (∅, ∅)) lines with
  | None => None
  | Some (_as_prefixes, _prefix_as) =>
      match prefix_lens (map_to_list _prefix_as).*1 with
      | None => None
      | Some prefix_len =>
          let prefix_len := sort_Sort ByWeight prefix_len in
          match foldl (read_ip2as_expand _prefix_as) (Some (∅, ∅)) prefix_len with
          | None => None
          | Some (_as_24prefixes, _prefix24_as) =>
              Some (_as_24prefixes, _prefix24_as, _as_prefixes, _prefix_as)
          end
      end
  end.

End caida_file_readers.

(** ** math/rand, and the code that draws from it *)

Module rand.

(** The state of the generator: the draws still to come. *)
Definition rng := nat → Z.

(** A computation that draws random numbers and may panic. *)
Definition M (A : Type) : Type := rng → option (A * rng).

Global Instance M_ret : MRet M := λ A (x : A) (g : rng), Some (x, g).

Global Instance M_bind : MBind M :=
  λ A B (f : A → M B) (m : M A) (g : rng),
    match m g with
    | Some (x, g') => f x g'
    | None => None
    end.

(** A panic. *)
Definition panic {A} : M A := λ _, None.

(** An [option] whose [None] is a panic. *)
Definition lift {A} (o : option A) : M A :=
  match o with Some x => mret x | None => panic end.

(** [rand.Intn (n)]: panics unless [n > 0]. *)
Definition Intn (n : Z) : M Z :=
  λ g, if n <=? 0 then None else Some (g O mod n, λ i, g (S i)).

(** [for _, x := range l { acc = f (acc, x) }] with a body in [M]. *)
Fixpoint foldM {A B} (f : B → A → M B) (acc : B) (l : list A) : M B :=
  match l with
  | [] => mret acc
  | x :: r => acc' ← f acc x; foldM f acc' r
  end.

(** [rand.Shuffle (len (s), swap)]: Fisher-Yates, from the last index down. *)
Fixpoint Shuffle_from (i : nat) (s : list string) : M (list string) :=
  match i with
  | O => mret s
  | S i' =>
      j ← Intn (Z.of_nat i + 1);
      let si := default "" (s !! i) in
      let sj := default "" (s !! Z.to_nat j) in
      Shuffle_from i' (<[Z.to_nat j := si]> (<[i := sj]> s))
  end.

Definition Shuffle (s : list string) : M (list string) :=
  Shuffle_from (length s - 1) s.

End rand.

Module ip_random.
Import Go ip_addresses rand.

(** ip_addresses.go, [get_random_ip]. *)
Definition get_random_ip (subnet : IPNet) : M (Z * Z * Z * Z) :=
  let mask_length := Mask subnet in
  let host_length := IPv4PrefixLen - mask_length in
  let min := 1 in
  let max := Z.shiftl 1 host_length - 2 in
  n0 ← Intn (max - min + 1);
  let n := n0 + min in
  let ip := ip_to_uint32 (IP subnet) in
  let ip := Z.lor ip (uint32 n) in
  mret (uint32_to_ip ip).

(** ip_addresses.go, [_get_24_prefix]. *)
Definition _get_24_prefix (probe : string) : M string :=
  if HasSuffix probe "/24" then mret probe
  else
    '(_, network) ← lift (ParseCIDR probe);
    ip ← get_random_ip network;
    let ip_address := IP_String ip in
    mret (Join (take 3 (Split "." ip_address)) "." +:+ ".0/24").

Definition _get_raw_prefix (probe : string) : M string := mret probe.

End ip_random.

(** ** The radix tree and the graph of the overlay extractor *)

Module radix.
Import safe_set.

(** A leaf of the tree: a stored key and its value. *)
Record LeafNode := { Key : string; Val : value unit }.

(** Modelled from the spec: the radix tree of github.com/Emeline-1/radix
    ([New], [Insert], [Walk_post]) is not in the sources.  The tree is
    modelled by its leaves, kept in the order of their keys. *)
Definition Tree := list LeafNode.

Definition New : Tree := [].

Fixpoint Insert (t : Tree) (k : string) (v : value unit) : Tree :=
  match t with
  | [] => [ {| Key := k; Val := v |} ]
  | n :: r =>
      if String.eqb (Key n) k then {| Key := k; Val := v |} :: r
      else if String.ltb k (Key n) then {| Key := k; Val := v |} :: t
           else n :: Insert r k v
  end.

Definition proper_prefix (p s : string) : bool :=
  String.prefix p s && negb (String.eqb p s).

(** The leaf children of a stored key: the stored keys below it with no
    stored key in between. *)
Definition children_of (t : Tree) (parent : LeafNode) : list LeafNode :=
  filter (λ c,
            proper_prefix (Key parent) (Key c)
            ∧ forallb (λ q, negb (proper_prefix (Key parent) (Key q)
                                   && proper_prefix (Key q) (Key c))) t)
         t.

(** Modelled from the spec: "post-order walk: at each internal node with
    leaf children (parent itself may be a leaf)".  The walk visits the
    stored keys that have stored keys below them, the keys below a key
    before the key, and hands the callback the parent leaf and its leaf
    children.  [l] is the part of the tree still to visit, in key order;
    [fuel] bounds the recursion and [length l] is enough. *)
Fixpoint Walk_post_go {S} (fuel : nat) (t l : Tree)
         (fn : LeafNode → list LeafNode → S → option S) (st : S) : option S :=
  match l, fuel with
  | [], _ => Some st
  | _ :: _, O => None
  | p :: rest, S fuel' =>
      let below := filter (λ c, proper_prefix (Key p) (Key c)) rest in
      let after := filter (λ c, ¬ proper_prefix (Key p) (Key c)) rest in
      match Walk_post_go fuel' t below fn st with
      | None => None
      | Some st1 =>
          let visited :=
            match children_of t p with
            | [] => Some st1
            | children => fn p children st1
            end in
          match visited with
          | None => None
          | Some st2 => Walk_post_go fuel' t after fn st2
          end
      end
  end.

Definition Walk_post {S} (t : Tree)
           (fn : LeafNode → list LeafNode → S → option S) (st : S) : option S :=
  Walk_post_go (length t) t t fn st.

End radix.

Module basic_graph.

(** Modelled from the spec: the graph of github.com/Emeline-1/basic_graph
    ([New], [Add_edge], [Set_iterator], [Next_connected_component],
    [Connected_component]) is not in the sources.  "Each connected
    component becomes a single overlay group whose representative is the
    first-listed element": the graph is modelled by its connected
    components, each listed in the order its nodes were first seen. *)
Definition Graph := list (list string).

Definition New : Graph := [].

Definition touches (a b : string) (c : list string) : bool :=
  bool_decide (a ∈ c) || bool_decide (b ∈ c).

Fixpoint Add_edge (g : Graph) (a b : string) : Graph :=
  match g with
  | [] => [if String.eqb a b then [a] else [a; b]]
  | c :: rest =>
      if touches a b c then
        let touched := filter (λ c', touches a b c') rest in
        let untouched := filter (λ c', ¬ touches a b c') rest in
        let merged := c ++ concat touched in
        let fresh :=
          filter (λ x, x ∉ merged) (if String.eqb a b then [a] else [a; b]) in
        (merged ++ fresh) :: untouched
      else c :: Add_edge rest a b
  end.

(** The components the iterator yields, one [Connected_component ()] per
    [Next_connected_component ()]. *)
Definition Connected_components (g : Graph) : list (list string) := g.

End basic_graph.

(** ** overlays_processing.go *)

Module overlays_processing.
Import Go utils safe_set ip_addresses rib_reader rand ip_random.

(** What the selected-entry table holds: the RIB selector stores pointers,
    [*Rib_entry]; a [Rib_entry] value is another dynamic type. *)
Inductive rib_payload :=
| Rib_entry_ptr (r : Rib_entry)
| Rib_entry_val (r : Rib_entry).

(** The zero value of [Rib_entry]. *)
Definition zero_Rib_entry : Rib_entry := {| as_path := []; as_to_next_hop_AS := ∅ |}.

(** [v, _ := x.(string)]. *)
Definition assert_string {X} (x : value X) : string :=
  match x with V_string s => s | _ => "" end.

(** The callback of the post-order walk, [generate_walk_radix_tree
    (overlays)]: the state is the set [overlays]. *)
Definition walk_explicit {X} (aggregate_prefix aggregate_aspath : string)
           (acc : option (SafeSet X * list string * list string))
           (more_specific : radix.LeafNode)
  : option (SafeSet X * list string * list string) :=
  match acc with
  | None => None
  | Some (overlays, marked_prefixes, marked_ases) =>
      let more_specific_aspath := assert_string (radix.Val more_specific) in
      if String.eqb more_specific_aspath aggregate_aspath then
        match get_prefix_from_binary (radix.Key more_specific) with
        | Some p =>
            match unsafe_append overlays aggregate_prefix p with
            | Some overlays' => Some (overlays', marked_prefixes, marked_ases)
            | None => None
            end
        | None => None
        end
      else
        match radix.Val more_specific with
        | V_string s =>
            Some (overlays, marked_prefixes ++ [radix.Key more_specific],
                  marked_ases ++ [s])
        | _ => None
        end
  end.

Definition walk_implicit {X} (common_prefix : string)
           (acc : option (SafeSet X)) (prefix : string) : option (SafeSet X) :=
  match acc with
  | None => None
  | Some overlays =>
      match get_prefix_from_binary common_prefix, get_prefix_from_binary prefix with
      | Some agg, Some p => unsafe_append overlays agg p
      | _, _ => None
      end
  end.

Definition generate_walk_radix_tree {X} (parent : radix.LeafNode)
           (children : list radix.LeafNode) (overlays : SafeSet X)
  : option (SafeSet X) :=
  match get_prefix_from_binary (radix.Key parent) with
  | None => None
  | Some aggregate_prefix =>
      let aggregate_aspath := assert_string (radix.Val parent) in
      match foldl (walk_explicit aggregate_prefix aggregate_aspath)
                  (Some (overlays, [], [])) children with
      | None => None
      | Some (overlays, marked_prefixes, marked_ases) =>
          let nb_prefixes := Z.of_nat (length marked_prefixes) in
          if nb_prefixes >=? 2 then
            let '(common_prefix, marked_prefixes) :=
              longestCommonPrefix marked_prefixes in
            if String.eqb common_prefix "" then Some overlays
            else
              let suffix_length :=
                Z.of_nat (String.length (default "" (head marked_prefixes)))
                - Z.of_nat (String.length common_prefix) in
              if IntPow 2 suffix_length =? nb_prefixes then
                match same marked_ases with
                | Some true =>
                    foldl (walk_implicit common_prefix) (Some overlays)
                          marked_prefixes
                | Some false => Some overlays
                | None => None
                end
              else Some overlays
          else Some overlays
      end
  end.

Definition process_overlays (routing_entries_set : SafeSet rib_payload)
  : option (SafeSet unit) :=
  (* Build the radix tree from the forwarding table *)
  let tree :=
    foldl (λ tree '(prefix, rib_entry_i),
             match tree with
             | None => None
             | Some tree =>
                 (* rib_entry, _ := rib_entry_i.(Rib_entry) *)
                 let rib_entry :=
                   match rib_entry_i with
                   | V_other (Rib_entry_val r) => r
                   | _ => zero_Rib_entry
                   end in
                 match get_binary_string prefix with
                 | Some radix_prefix =>
                     Some (radix.Insert tree radix_prefix
                             (V_string (Join (as_path rib_entry) " ")))
                 | None => None
                 end
             end)
          (Some radix.New) (map_to_list (set routing_entries_set)) in
  match tree with
  | None => None
  | Some tree =>
      (* Walk the radix tree, recording the overlays *)
      match radix.Walk_post tree generate_walk_radix_tree
                            (create_safeset (X := unit)) with
      | None => None
      | Some overlays =>
          (* Transitive closure through the connected components *)
          let g :=
            foldl (λ g '(aggregate, overlays_i),
                     let overlays_v :=
                       match overlays_i with
                       | V_set m => m
                       | _ => ∅
                       end in
                     foldl (λ g overlay, basic_graph.Add_edge g aggregate overlay)
                           g (elements overlays_v))
                  basic_graph.New (map_to_list (set overlays)) in
          foldl (λ closure connected_component,
                   match closure, connected_component with
                   | Some closure, c0 :: rest =>
                       Some (unsafe_add closure c0 (V_strings rest))
                   | _, _ => None
                   end)
                (Some create_safeset) (basic_graph.Connected_components g)
      end
  end.

(** *** Overlay reduction *)

(** One pass of the loop over the probes of an AS, as the properties name
    it: the probe, the /24 drawn for it, and whether the /24 was recorded in
    [s].  The log is not in the source; the pass only builds [s] and
    [seen]. *)
Record reduction_step := {
  probe : string;
  probe_24 : string;
  recorded : bool
}.

Definition append_overlays (seen : gmap string (gset string)) (vp : string)
           (overlays : gset string) : gmap string (gset string) :=
  match seen !! vp with
  | Some already_seen => <[vp := merge_maps already_seen overlays]> seen
  | None => <[vp := merge_maps_new overlays ∅]> seen
  end.

(** The body of the loop [for probe, _ := range AS_probes[AS]]. *)
Definition remove_overlays_probe {X} (target_to_vp : SafeSet X)
           (overlays : gmap string (gmap string (gset string)))
           (st : gset string * gmap string (gset string) * list reduction_step)
           (probe : string)
  : M (gset string * gmap string (gset string) * list reduction_step) :=
  let '(s, seen, log) := st in
  probe_24 ← _get_24_prefix probe;
  match get target_to_vp probe_24 with
  | None =>
      mret ({[probe_24]} ∪ s, seen,
            log ++ [ {| probe := probe; probe_24 := probe_24; recorded := true |} ])
  | Some VP_i =>
      let VP := assert_string VP_i in
      if bool_decide (probe ∈ default ∅ (seen !! VP)) then
        mret (s, seen,
              log ++ [ {| probe := probe; probe_24 := probe_24;
                          recorded := false |} ])
      else
        let overlays_group := default ∅ (default ∅ (overlays !! VP) !! probe) in
        mret ({[probe_24]} ∪ s, append_overlays seen VP overlays_group,
              log ++ [ {| probe := probe; probe_24 := probe_24;
                          recorded := true |} ])
  end.

(** The body of the loop [for _, AS := range ases], over the probes of [AS]
    in the order [probes]. *)
Definition remove_overlays_AS {X} (target_to_vp : SafeSet X)
           (overlays : gmap string (gmap string (gset string)))
           (probes : list string)
  : M (gset string * list reduction_step) :=
  '(s, _, log) ← foldM (remove_overlays_probe target_to_vp overlays)
                       (∅, ∅, []) probes;
  mret (s, log).

(** [remove_overlays], with the log of every pass next to the new
    [AS_probes]. *)
Definition remove_overlays_log {X} (AS_probes : gmap string (gset string))
           (ases : list string) (target_to_vp : SafeSet X)
           (overlays : gmap string (gmap string (gset string)))
  : M (gmap string (gset string) * list (string * list reduction_step)) :=
  foldM (λ '(AS_probes, logs) AS,
           '(s, log) ← remove_overlays_AS target_to_vp overlays
                         (elements (default ∅ (AS_probes !! AS)));
           mret (<[AS := s]> AS_probes, logs ++ [(AS, log)]))
        (AS_probes, []) ases.

Definition remove_overlays {X} (AS_probes : gmap string (gset string))
           (ases : list string) (target_to_vp : SafeSet X)
           (overlays : gmap string (gmap string (gset string)))
  : M (gmap string (gset string)) :=
  '(AS_probes, _) ← remove_overlays_log AS_probes ases target_to_vp overlays;
  mret AS_probes.

End overlays_processing.

(** ** The package-level variables and the files the strategies read *)

Module globals.

(** The read-only variables of caida_file_readers.go and
    probing_strategies.go, set once before the strategies run, and the
    contents of the files the strategies open (the readers split them into
    fields). *)
Record Globals := {
  as_neighbors : gmap string (gmap string Z);
  as_conesize : gmap string Z;
  as_24prefixes : gmap string (gset string);
  prefix24_as : gmap string string;
  as_to_prefixes : gmap string (gset string);
  prefix_to_as : gmap string string;
  vps : list string;
  (** [directed_prefixes_dir]: the first field of every line of the file of
      an AS. *)
  directed_prefixes_file : string → list string;
  (** [overlays_global_file]: the fields of every line. *)
  overlays_global_file : list (list string);
  (** [merged_next_AS_<as>.txt]: the two fields of every line. *)
  nextAS_file : string → list (string * string);
  (** [successful_traces_<as>.txt]: the prefix and the parsed weight. *)
  oracle_file : string → list (string * Z)
}.

End globals.

(** ** anaximander_strategy.go: the AS limits *)

Module anaximander_strategy.

Record AS_limit := { asn : string; limit : Z }.

End anaximander_strategy.

(** ** probing_strategies_utils.go *)

Module probing_strategies_utils.
Import Go utils safe_set rand ip_random weights caida_file_readers globals
       anaximander_strategy.

Section with_globals.
Variable G : Globals.

(** A lookup in a Go map of sets: the zero value (a nil map, which ranges
    over nothing) when the key is absent. *)
Definition at_key (m : gmap string (gset string)) (k : string) : gset string :=
  default ∅ (m !! k).

(** [as_neighbors[as]], with the relations. *)
Definition neighbors_of (as_ : string) : gmap string Z :=
  default ∅ (as_neighbors G !! as_).

Definition get_directed_probes (as_interest : string) : M (list string) :=
  foldM (λ directed_prefixes prefix,
           p ← _get_24_prefix prefix; mret (directed_prefixes ++ [p]))
        [] (directed_prefixes_file G as_interest).

Definition filter_on_directedProbes (to_filter reference : gset string)
  : gset string :=
  list_to_set (filter (λ AS, AS ∈ reference) (elements to_filter)).

Definition get_one_hop_neighbors (as_interest : string) : list string :=
  let neighbors := neighbors_of as_interest in
  let one_hop_neighbors : gset string :=
    foldl (λ acc neighbor,
             foldl (λ acc n, if String.eqb n as_interest then acc
                             else {[n]} ∪ acc)
                   acc (map_to_list (neighbors_of neighbor)).*1)
          ∅ (map_to_list neighbors).*1 in
  difference one_hop_neighbors (dom neighbors).

Definition get_directed_probes_and_groups (as_interest : string)
  : M (gmap string (gset string) * gset string * gset string * gset string * Z) :=
  directed_probes ← get_directed_probes as_interest;
  let AS_probes :=
    foldl (λ AS_probes probe,
             let AS := default "-1" (prefix24_as G !! probe) in
             append_prefix AS_probes AS probe)
          ∅ directed_probes in
  let AS_probes_map : gset string :=
    list_to_set (filter (λ AS, AS ≠ as_interest) (map_to_list AS_probes).*1) in
  let neighbors_map :=
    filter_on_directedProbes (dom (neighbors_of as_interest)) AS_probes_map in
  let one_hop_neighbors_slice := get_one_hop_neighbors as_interest in
  let one_hop_neighbors_map :=
    filter_on_directedProbes (slice_to_map one_hop_neighbors_slice)
                             AS_probes_map in
  let other_AS :=
    difference AS_probes_map
               (merge_maps_new neighbors_map one_hop_neighbors_map) in
  mret (AS_probes, neighbors_map, one_hop_neighbors_map, slice_to_map other_AS,
        Z.of_nat (length directed_probes)).

(** The body of the loop of [add_AS_probes] over [ases]. *)
Definition add_AS_probes_step (AS_probes : gmap string (gset string))
           (get_probe : string → M string)
           (st : list string * list AS_limit) (AS : string)
  : M (list string * list AS_limit) :=
  let '(s, limits) := st in
  match AS_probes !! AS with
  | Some probes =>
      s ← foldM (λ s probe, p ← get_probe probe; mret (s ++ [p]))
                s (elements probes);
      mret (s, limits ++ [ {| asn := AS; limit := Z.of_nat (length s) |} ])
  | None => mret (s, limits)
  end.

Definition add_AS_probes (s ases : list string) (limits : list AS_limit)
           (AS_probes : gmap string (gset string))
           (get_probe : string → M string)
  : M (list string * list AS_limit) :=
  foldM (add_AS_probes_step AS_probes get_probe) (s, limits) ases.

Definition order_by_customer_cone (ases : gset string) (as_interest : string)
           (reverse : bool) : list string :=
  let as_customersWeight :=
    (λ as_, {| name := as_; weight := default 0 (as_conesize G !! as_) |})
      <$> elements ases in
  let sorted :=
    if reverse then sort_Sort (Reverse ByWeight) as_customersWeight
    else sort_Sort ByWeight as_customersWeight in
  name <$> sorted.

(** [c_p_p[rel.(int)][neighbor] = struct{}{}] panics on a relation that is
    none of the three. *)
Definition group_by_relationships (AS_probes : gmap string (gset string))
           (as_interest : string) (reverse : bool) : option (list string) :=
  let neighbors := map_to_list (neighbors_of as_interest) in
  if forallb (λ '(_, rel), (0 <=? rel) && (rel <=? 2)) neighbors then
    let with_rel (r : Z) : gset string :=
      list_to_set (filter (λ '(_, rel), rel = r) neighbors).*1 in
    let customers := with_rel Customer in
    let providers := with_rel Provider in
    let peers := with_rel Peer in
    let AS_probes_map : gset string :=
      list_to_set (filter (λ AS, AS ≠ as_interest) (map_to_list AS_probes).*1) in
    let customers := filter_on_directedProbes customers AS_probes_map in
    let providers := filter_on_directedProbes providers AS_probes_map in
    let peers := filter_on_directedProbes peers AS_probes_map in
    let ordered_customers := order_by_customer_cone customers as_interest reverse in
    let ordered_providers := order_by_customer_cone providers as_interest reverse in
    let ordered_peers := order_by_customer_cone peers as_interest reverse in
    Some (ordered_customers ++ ordered_peers ++ ordered_providers)
  else None.

Definition _direct_neighbors (as_interest : string) : list string :=
  foldl (λ s neighbor, s ++ elements (at_key (as_24prefixes G) neighbor))
        [] (map_to_list (neighbors_of as_interest)).*1.

Definition _internals (as_interest : string) : list string :=
  elements (at_key (as_24prefixes G) as_interest).

Definition _get_neighbors_ordered_customer_cone (as_interest : string)
           (reverse : bool) : list string :=
  order_by_customer_cone (dom (neighbors_of as_interest)) as_interest reverse.

End with_globals.
End probing_strategies_utils.

(** ** readers.go: the two readers the strategies use *)

Module readers.
Import utils caida_file_readers.

(** [read_overlay_file], on the fields of the lines. *)
Definition read_overlay_file (lines : list (list string))
  : gmap string (gset string) :=
  foldl (λ m overlays,
           let overlays_map := slice_to_map overlays in
           foldl (λ m overlay, <[overlay := overlays_map]> m) m overlays)
        ∅ lines.

(** [read_nextAS_file], on the fields of the lines. *)
Definition read_nextAS_file (lines : list (string * string))
  : gmap string string * gmap string (gset string) :=
  foldl (λ '(prefix_to_nextAS, nextAS_to_prefixes) '(prefix, nextAS),
           (<[prefix := nextAS]> prefix_to_nextAS,
            append_prefix nextAS_to_prefixes nextAS prefix))
        (∅, ∅) lines.

End readers.

(** ** probing_strategies.go *)

Module probing_strategies.
Import Go utils safe_set rand ip_random weights caida_file_readers globals
       anaximander_strategy probing_strategies_utils overlays_processing readers.

Section with_globals.
Variable G : Globals.

Definition strategy_result : Type := list string * list AS_limit.

(** [sort.Strings]. *)
Definition sort_Strings (s : list string) : list string :=
  sort_Sort String.ltb s.

(** 0. *)
Definition random (s : list string) (as_interest : string)
           (target_to_vp : SafeSet unit) : M strategy_result :=
  if bool_decide (length s = 0%nat) then panic
  else
    s ← Shuffle s;
    mret (s, [ {| asn := "0"; limit := Z.of_nat (length s) |} ]).

(** 1. *)
Definition increasing_order (s : list string) (as_interest : string)
           (target_to_vp : SafeSet unit) : M strategy_result :=
  if bool_decide (length s = 0%nat) then panic
  else
    let s := sort_Strings s in
    mret (s, [ {| asn := "0"; limit := Z.of_nat (length s) |} ]).

(** 2. *)
Definition direct_neighbors (_ : list string) (as_interest : string)
           (target_to_vp : SafeSet unit) : M strategy_result :=
  let neighbors := neighbors_of G as_interest in
  add_AS_probes [] (map_to_list neighbors).*1 [] (as_24prefixes G)
                _get_24_prefix.

(** 3. *)
Definition direct_neighbors_and_internal (_ : list string)
           (as_interest : string) (target_to_vp : SafeSet unit)
  : M strategy_result :=
  let neighbors := _direct_neighbors G as_interest in
  let internals := _internals G as_interest in
  let s := neighbors ++ internals in
  mret (s, [ {| asn := "0"; limit := Z.of_nat (length neighbors) |};
             {| asn := "1"; limit := Z.of_nat (length s) |} ]).

(** 4. *)
Definition internal_and_direct_neighbors (_ : list string)
           (as_interest : string) (target_to_vp : SafeSet unit)
  : M strategy_result :=
  let neighbors := _direct_neighbors G as_interest in
  let internals := _internals G as_interest in
  let s := internals ++ neighbors in
  mret (s, [ {| asn := "0"; limit := Z.of_nat (length internals) |};
             {| asn := "1"; limit := Z.of_nat (length s) |} ]).

Definition _customer_cone_neighbors (_ : list string) (as_interest : string)
           (reverse : bool) : M strategy_result :=
  let ordered_neighbors :=
    _get_neighbors_ordered_customer_cone G as_interest reverse in
  add_AS_probes [] ordered_neighbors [] (as_to_prefixes G) _get_24_prefix.

(** 5. *)
Definition customer_cone_neighbors_decreasing (_ : list string)
           (as_interest : string) (target_to_vp : SafeSet unit)
  : M strategy_result :=
  _customer_cone_neighbors [] as_interest true.

(** 6. *)
Definition customer_cone_neighbors_increasing (_ : list string)
           (as_interest : string) (target_to_vp : SafeSet unit)
  : M strategy_result :=
  _customer_cone_neighbors [] as_interest false.

(** 7. *)
Definition directed_probing (_ : list string) (as_interest : string)
           (target_to_vp : SafeSet unit) : M strategy_result :=
  prefixes ← get_directed_probes G as_interest;
  mret (prefixes, [ {| asn := "0"; limit := Z.of_nat (length prefixes) |} ]).

(** The first group of the directed strategies:
    [for probe, _ := range AS_probes[as_interest] { s = append (s, probe) }]
    and the limit of the AS of interest. *)
Definition internal_group (s : list string) (as_interest : string)
  : strategy_result :=
  (s, [ {| asn := as_interest; limit := Z.of_nat (length s) |} ]).

Definition _directed_probing_internal_neighbors_others (_ : list string)
           (as_interest : string) (ordered : bool) : M strategy_result :=
  '(AS_probes, neighbors_map, one_hop_neighbors_map, other_AS_map, nb_probes)
    ← get_directed_probes_and_groups G as_interest;
  (* Group 1: internal prefixes *)
  let '(s, limits) :=
    internal_group (elements (at_key AS_probes as_interest)) as_interest in
  (* Group 2: the neighbors *)
  let neighbors :=
    if ordered then order_by_customer_cone G neighbors_map as_interest false
    else [] in
  '(s, limits) ← add_AS_probes s neighbors limits AS_probes _get_24_prefix;
  (* Group 3: the one hop neighbors and the others *)
  let tmp := merge_maps one_hop_neighbors_map other_AS_map in
  let mixed :=
    if ordered then order_by_customer_cone G tmp as_interest false
    else elements tmp in
  add_AS_probes s mixed limits AS_probes _get_24_prefix.

(** 8. *)
Definition directed_probing_internal_neighbors_others (_ : list string)
           (as_interest : string) (target_to_vp : SafeSet unit)
  : M strategy_result :=
  _directed_probing_internal_neighbors_others [] as_interest false.

(** 9. *)
Definition directed_probing_internal_neighbors_others_customercone
           (_ : list string) (as_interest : string)
           (target_to_vp : SafeSet unit) : M strategy_result :=
  _directed_probing_internal_neighbors_others [] as_interest true.

(** 10. *)
Definition directed_probing_internal_neighbors_others_mixed (_ : list string)
           (as_interest : string) (target_to_vp : SafeSet unit)
  : M strategy_result :=
  '(AS_probes, neighbors_map, one_hop_neighbors_map, other_AS_map, nb_probes)
    ← get_directed_probes_and_groups G as_interest;
  let '(s, limits) :=
    internal_group (elements (at_key AS_probes as_interest)) as_interest in
  let mixed := merge_maps neighbors_map one_hop_neighbors_map in
  let mixed := merge_maps mixed other_AS_map in
  let mixed_slice := order_by_customer_cone G mixed as_interest false in
  add_AS_probes s mixed_slice limits AS_probes _get_24_prefix.

(** The three groups that follow the internal one in the strategies 11, 13
    and 16. *)
Definition neighbors_onehop_others (as_interest : string)
           (AS_probes : gmap string (gset string))
           (neighbors_map one_hop_neighbors_map other_AS_map : gset string)
           (st : strategy_result) : M strategy_result :=
  let '(s, limits) := st in
  let neighbors := order_by_customer_cone G neighbors_map as_interest false in
  '(s, limits) ← add_AS_probes s neighbors limits AS_probes _get_24_prefix;
  let one_hop_neighbors :=
    order_by_customer_cone G one_hop_neighbors_map as_interest false in
  '(s, limits) ← add_AS_probes s one_hop_neighbors limits AS_probes
                   _get_24_prefix;
  let other_AS := order_by_customer_cone G other_AS_map as_interest false in
  add_AS_probes s other_AS limits AS_probes _get_24_prefix.

(** 11. *)
Definition directed_probing_internal_neighbors_onehopneighbors_others
           (_ : list string) (as_interest : string)
           (target_to_vp : SafeSet unit) : M strategy_result :=
  '(AS_probes, neighbors_map, one_hop_neighbors_map, other_AS_map, nb_probes)
    ← get_directed_probes_and_groups G as_interest;
  neighbors_onehop_others as_interest AS_probes neighbors_map
    one_hop_neighbors_map other_AS_map
    (internal_group (elements (at_key AS_probes as_interest)) as_interest).

(** 12. *)
Definition directed_probing_no24 (_ : list string) (as_interest : string)
           (target_to_vp : SafeSet unit) : M strategy_result :=
  directed_probing [] as_interest create_safeset.

(** 13. *)
Definition directed_probing_internal_neighbors_onehopneighbors_others_no24
           (_ : list string) (as_interest : string)
           (target_to_vp : SafeSet unit) : M strategy_result :=
  '(AS_probes, neighbors_map, one_hop_neighbors_map, other_AS_map, nb_probes)
    ← get_directed_probes_and_groups G as_interest;
  neighbors_onehop_others as_interest AS_probes neighbors_map
    one_hop_neighbors_map other_AS_map
    (internal_group (_internals G as_interest) as_interest).

(** 14. *)
Definition directed_probing_internal_neighbors_others_no24 (_ : list string)
           (as_interest : string) (target_to_vp : SafeSet unit)
  : M strategy_result :=
  '(AS_probes, neighbors_map, one_hop_neighbors_map, other_AS_map, nb_probes)
    ← get_directed_probes_and_groups G as_interest;
  let '(s, limits) := internal_group (_internals G as_interest) as_interest in
  let neighbors := order_by_customer_cone G neighbors_map as_interest false in
  '(s, limits) ← add_AS_probes s neighbors limits AS_probes _get_24_prefix;
  let mixed := merge_maps one_hop_neighbors_map other_AS_map in
  let mixed_slice := order_by_customer_cone G mixed as_interest false in
  add_AS_probes s mixed_slice limits AS_probes _get_24_prefix.

(** 15. *)
Definition customer_cone_neighbors_increasing_no24 (s : list string)
           (as_interest : string) (target_to_vp : SafeSet unit)
  : M strategy_result :=
  let '(s, limits) := internal_group (_internals G as_interest) as_interest in
  let neighbors := _get_neighbors_ordered_customer_cone G as_interest false in
  let AS_probes :=
    foldl (λ AS_probes as_,
             foldl (λ AS_probes prefix, append_prefix AS_probes as_ prefix)
                   AS_probes (elements (at_key (as_to_prefixes G) as_)))
          ∅ neighbors in
  add_AS_probes s neighbors limits AS_probes _get_24_prefix.

(** 16. *)
Definition best_directed_probing_internal_neighbors_onehopneighbors_others_no24
           (_ : list string) (as_interest : string)
           (target_to_vp : SafeSet unit) : M strategy_result :=
  directed_probing_internal_neighbors_onehopneighbors_others_no24
    [] as_interest target_to_vp.

Definition _overlays_reduction (_ : list string) (as_interest : string)
           (target_to_vp : SafeSet unit)
           (overlays : gmap string (gmap string (gset string)))
           (relationships reverse : bool) : M strategy_result :=
  '(AS_probes, neighbors_map, one_hop_neighbors_map, other_AS_map, nb_probes)
    ← get_directed_probes_and_groups G as_interest;
  (* Group 1: internal prefixes (/24) *)
  let '(s, limits) := internal_group (_internals G as_interest) as_interest in
  (* Group 2: the neighbors *)
  neighbors ←
    (if relationships
     then lift (group_by_relationships G AS_probes as_interest reverse)
     else mret (order_by_customer_cone G neighbors_map as_interest reverse));
  AS_probes ← remove_overlays AS_probes neighbors target_to_vp overlays;
  '(s, limits) ← add_AS_probes s neighbors limits AS_probes _get_24_prefix;
  (* Group 3: the one hop neighbors *)
  let one_hop_neighbors :=
    order_by_customer_cone G one_hop_neighbors_map as_interest reverse in
  AS_probes ← remove_overlays AS_probes one_hop_neighbors target_to_vp overlays;
  '(s, limits) ← add_AS_probes s one_hop_neighbors limits AS_probes
                   _get_24_prefix;
  (* Group 4: the others *)
  let other_AS := order_by_customer_cone G other_AS_map as_interest reverse in
  AS_probes ← remove_overlays AS_probes other_AS target_to_vp overlays;
  add_AS_probes s other_AS limits AS_probes _get_24_prefix.

(** All VPs point to the same overlays, those of the global file. *)
Definition global_overlays : gmap string (gmap string (gset string)) :=
  let global_overlays := read_overlay_file (overlays_global_file G) in
  foldl (λ overlays vp, <[vp := global_overlays]> overlays) ∅ (vps G).

(** 17. *)
Definition overlays_reduction_global (_ : list string) (as_interest : string)
           (target_to_vp : SafeSet unit) : M strategy_result :=
  _overlays_reduction [] as_interest target_to_vp global_overlays false false.

(** 20. *)
Definition overlays_reduction_global_relationships (_ : list string)
           (as_interest : string) (target_to_vp : SafeSet unit)
  : M strategy_result :=
  _overlays_reduction [] as_interest target_to_vp global_overlays true false.

(** 21. *)
Definition overlays_reduction_global_relationships_decreasing_cc
           (_ : list string) (as_interest : string)
           (target_to_vp : SafeSet unit) : M strategy_result :=
  _overlays_reduction [] as_interest target_to_vp global_overlays true true.

(** 18. *)
Definition next_hop_as_reduction_global (_ : list string)
           (as_interest : string) (target_to_vp : SafeSet unit)
  : M strategy_result :=
  let '(prefix_to_nextAS, nextAS_to_prefixes) :=
    read_nextAS_file (nextAS_file G as_interest) in
  let prefix_to_prefixes : gmap string (gset string) :=
    foldl (λ m '(prefix, nextAS),
             if String.eqb nextAS as_interest then m
             else <[prefix := at_key nextAS_to_prefixes nextAS]> m)
          ∅ (map_to_list prefix_to_nextAS) in
  let vp_prefix_to_prefixes : gmap string (gmap string (gset string)) :=
    foldl (λ m vp, <[vp := prefix_to_prefixes]> m) ∅ (vps G) in
  directed_probes ← get_directed_probes G as_interest;
  let AS_probes : gmap string (gset string) :=
    <["." := slice_to_map directed_probes]> ∅ in
  AS_probes ← remove_overlays AS_probes ["."] target_to_vp
                vp_prefix_to_prefixes;
  let s := elements (at_key AS_probes ".") in
  mret (s, [ {| asn := "0"; limit := Z.of_nat (length s) |} ]).

(** 19. *)
Definition oracle (_ : list string) (as_interest : string)
           (target_to_vp : SafeSet unit) : M strategy_result :=
  let prefixes :=
    (λ '(n, w), {| name := n; weight := w |}) <$> oracle_file G as_interest in
  let prefixes := sort_Sort (Reverse ByWeight) prefixes in
  let s := name <$> prefixes in
  mret (s, [ {| asn := "0"; limit := Z.of_nat (length s) |} ]).

(** anaximander_strategy.go, [strategy_fc]: the menu, in its order. *)
Definition strategy_fc
  : list (list string → string → SafeSet unit → M strategy_result) :=
  [ random;
    increasing_order;
    direct_neighbors;
    direct_neighbors_and_internal;
    internal_and_direct_neighbors;
    customer_cone_neighbors_decreasing;
    customer_cone_neighbors_increasing;
    directed_probing;
    directed_probing_internal_neighbors_others;
    directed_probing_internal_neighbors_others_customercone;
    directed_probing_internal_neighbors_others_mixed;
    directed_probing_internal_neighbors_onehopneighbors_others;
    directed_probing_no24;
    directed_probing_internal_neighbors_onehopneighbors_others_no24;
    directed_probing_internal_neighbors_others_no24;
    customer_cone_neighbors_increasing_no24;
    best_directed_probing_internal_neighbors_onehopneighbors_others_no24;
    overlays_reduction_global;
    next_hop_as_reduction_global;
    oracle;
    overlays_reduction_global_relationships;
    overlays_reduction_global_relationships_decreasing_cc ].

End with_globals.
End probing_strategies.


(** ** caida_file_readers.go: the AS relationships and the customer cones *)

Module caida_relationships.
Import Go utils caida_file_readers.

(** The body of the loop of [read_as_rel] over the lines; [s[2]] on a line
    with fewer than three fields panics. *)
Definition read_as_rel_line (acc : option (gmap string (gmap string Z)))
           (line : string) : option (gmap string (gmap string Z)) :=
  match acc with
  | None => None
  | Some neighbor_ases =>
      if Contains line "#" then acc
      else match Split "|" line with
           | s0 :: s1 :: s2 :: _ =>
               let n1 :=
                 if String.eqb s2 "0" then
                   append_prefix_val (append_prefix_val neighbor_ases s0 s1 Peer)
                                     s1 s0 Peer
                 else neighbor_ases in
               let n2 :=
                 if String.eqb s2 "-1" then
                   append_prefix_val (append_prefix_val n1 s0 s1 Customer)
                                     s1 s0 Provider
                 else n1 in
               Some n2
           | _ => None
           end
  end.

Definition read_as_rel (lines : list string)
  : option (gmap string (gmap string Z)) :=
  foldl read_as_rel_line (Some ∅) lines.




End caida_relationships.

(** ** rib_reader.go: the prefixes that are kept *)

Module rib_validity.
Import Go ip_addresses.

(** [string_to_net]; a parse error panics. *)
Definition string_to_net (prefix : string) : option IPNet :=
  snd <$> ParseCIDR prefix.

Definition reserved_prefixes : list IPNet :=
  omap string_to_net
       ["0.0.0.0/8"; "10.0.0.0/8"; "100.64.0.0/10"; "127.0.0.0/8";
        "169.254.0.0/16"; "172.16.0.0/12"; "192.0.0.0/24"; "192.0.2.0/24";
        "192.88.99.0/24"; "192.168.0.0/16"; "198.18.0.0/15";
        "198.51.100.0/24"; "203.0.113.0/24"; "224.0.0.0/4";
        "240.0.0.0/4"]%string.

(** [net.IPNet.Contains]: the address and the network agree under the
    mask. *)
Definition IPNet_Contains (n : IPNet) (ip : Z * Z * Z * Z) : bool :=
  Z.land (ip_to_uint32 (IP n)) (CIDRMask (Mask n))
  =? Z.land (ip_to_uint32 ip) (CIDRMask (Mask n)).

(** [check_prefix_validity]: [None] stands for [(nil, false)]. *)
Definition check_prefix_validity (prefix : string) : option IPNet :=
  match ParseCIDR prefix with
  | None => None
  | Some (ip, network) =>
      let l := Mask network in
      if (l <? 8) || (l >? 24) then None
      else if existsb (λ reserved, IPNet_Contains reserved ip) reserved_prefixes
           then None
           else Some network
  end.

End rib_validity.

(** ** readers.go: the traces *)

Module traces.
Import Go safe_set.

Record Hop := {
  addr : string;
  asn : string;
  probe_ttl : Z;
  ingress : bool;
  egress : bool;
  router : string
}.

Definition Trace := list Hop.

(** The sets of the simulator: their payloads are the traces. *)
Definition Set_ : Type := SafeSet Trace.

Fixpoint prune_dups_loop (prev : string) (trace : Trace) : Trace :=
  match trace with
  | [] => []
  | hop :: rest =>
      if negb (String.eqb prev (addr hop))
      then hop :: prune_dups_loop (addr hop) rest
      else prune_dups_loop (addr hop) rest
  end.

Definition prune_dups (trace : Trace) : Trace := prune_dups_loop "" trace.

(** The hop a line of a warts dump gives, annotated from the bdrmapit
    tables; a value of [addr_to_asn] that is no string is fatal. *)
Definition annotate_hop (addr_to_asn addr_to_router : Set_)
           (probe_ttl : Z) (addr : string) : option Hop :=
  match
    match unsafe_get addr_to_asn addr with
    | None => Some "-1"%string
    | Some (V_string asn) => Some asn
    | Some _ => None
    end
  with
  | None => None
  | Some asn =>
      let router :=
        match unsafe_get addr_to_router addr with
        | None => "-1"%string
        | Some (V_string router) => router
        | Some _ => ""%string
        end in
      Some {| addr := addr; asn := asn; probe_ttl := probe_ttl;
              ingress := false; egress := false; router := router |}
  end.

(** The key of the adjacency of two hops. *)
Definition adj_key (hop next_hop : Hop) : string :=
  addr hop +:+ "_" +:+ addr next_hop.

(** The loop of [commit_trace] over the pruned trace, for the two sets. *)
Fixpoint commit_adjs (trace : Trace) (adjs multi_adjs : Set_) : Set_ * Set_ :=
  match trace with
  | [] => (adjs, multi_adjs)
  | hop :: rest =>
      match rest with
      | [] => (adjs, multi_adjs)
      | next_hop :: _ =>
          let distance := probe_ttl next_hop - probe_ttl hop in
          let adjs :=
            if distance =? 1 then unsafe_add_key adjs (adj_key hop next_hop)
            else adjs in
          let multi_adjs :=
            if distance >? 1
            then unsafe_add_key multi_adjs (adj_key hop next_hop)
            else multi_adjs in
          commit_adjs rest adjs multi_adjs
      end
  end.

(** The same loop, for the flags it sets in the trace: [ingress_now] is the
    flag the previous pass has set on the current hop. *)
Fixpoint mark_borders (ingress_now : bool) (trace : Trace) : Trace :=
  match trace with
  | [] => []
  | hop :: rest =>
      let border :=
        match rest with
        | [] => false
        | next_hop :: _ => negb (String.eqb (asn hop) (asn next_hop))
        end in
      {| addr := addr hop; asn := asn hop; probe_ttl := probe_ttl hop;
         ingress := ingress hop || ingress_now;
         egress := egress hop || border; router := router hop |}
      :: mark_borders border rest
  end.

Record parsed := {
  p_traces : Set_;
  p_adjs : Set_;
  p_multi_adjs : Set_;
  p_target_to_vp : Set_
}.

(** [commit_trace]; [strings.Split (dest, ".")[:3]] panics on fewer than
    three components. *)
Definition commit_trace (source dest : string) (trace : Trace) (p : parsed)
  : option parsed :=
  let trace := prune_dups trace in
  let '(adjs, multi_adjs) := commit_adjs trace (p_adjs p) (p_multi_adjs p) in
  let trace := mark_borders false trace in
  match Split "." dest with
  | c0 :: c1 :: c2 :: _ =>
      let dest_24 := Join [c0; c1; c2] "." +:+ ".0/24" in
      Some {| p_traces := unsafe_add (p_traces p) dest_24 (V_other trace);
              p_adjs := adjs; p_multi_adjs := multi_adjs;
              p_target_to_vp :=
                unsafe_add (p_target_to_vp p) dest_24 (V_string source) |}
  | _ => None
  end.

End traces.

(** ** anaximander_driver.go *)

Module anaximander_driver.
Import Go safe_set traces.

(** [as1 == AS] on the value a lookup returns: a string equal to [AS]. *)
Definition is_AS (v : option (value Trace)) (AS : string) : bool :=
  match v with
  | Some (V_string as_) => String.eqb as_ AS
  | _ => false
  end.

(** The loops of [filterAS] over [adjs.set] and [multi_adjs.set]; a key
    without ["_"] panics at [s[1]]. *)
Definition filter_pairs (AS : string) (pairs addr_to_asn : Set_)
  : option Set_ :=
  foldl (λ acc addr1_addr2,
           match acc with
           | None => None
           | Some filtered =>
               match Split "_" addr1_addr2 with
               | s0 :: s1 :: _ =>
                   if is_AS (unsafe_get addr_to_asn s0) AS
                      || is_AS (unsafe_get addr_to_asn s1) AS
                   then Some (unsafe_add_key filtered addr1_addr2)
                   else Some filtered
               | _ => None
               end
           end)
        (Some create_safeset) (map_to_list (set pairs)).*1.

Definition filter_addresses (AS : string) (addresses addr_to_asn : Set_)
  : Set_ :=
  foldl (λ filtered addr,
           if is_AS (unsafe_get addr_to_asn addr) AS
           then unsafe_add_key filtered addr else filtered)
        create_safeset (map_to_list (set addresses)).*1.

Definition filter_routers (AS : string) (router_to_asn : Set_) : Set_ :=
  foldl (λ filtered '(router, asn),
           if is_AS (Some asn) AS then unsafe_add_key filtered router
           else filtered)
        create_safeset (map_to_list (set router_to_asn)).

Definition filterAS (AS : string)
           (adjs multi_adjs addresses router_to_asn addr_to_asn : Set_)
  : option (Set_ * Set_ * Set_ * Set_) :=
  match filter_pairs AS adjs addr_to_asn,
        filter_pairs AS multi_adjs addr_to_asn with
  | Some filtered_adjs, Some filtered_multi_adjs =>
      Some (filtered_adjs, filtered_multi_adjs,
            filter_addresses AS addresses addr_to_asn,
            filter_routers AS router_to_asn)
  | _, _ => None
  end.

Record discovered := {
  discovered_adjs : Set_;
  discovered_multi_adjs : Set_;
  discovered_addresses : Set_;
  discovered_routers : Set_;
  in_progress_discovered_routers : Set_
}.

(** The router part of a hop of the AS of interest. *)
Definition process_router (hop : Hop) (d : discovered) : option discovered :=
  if String.eqb (router hop) "" then Some d
  else
    match unsafe_get (in_progress_discovered_routers d) (router hop) with
    | Some (V_set addresses) =>
        if bool_decide (size addresses = 1%nat) then
          if bool_decide (addr hop ∈ addresses) then Some d
          else
            match unsafe_append (in_progress_discovered_routers d)
                                (router hop) (addr hop) with
            | Some in_progress =>
                Some {| discovered_adjs := discovered_adjs d;
                        discovered_multi_adjs := discovered_multi_adjs d;
                        discovered_addresses := discovered_addresses d;
                        discovered_routers :=
                          unsafe_add_key (discovered_routers d) (router hop);
                        in_progress_discovered_routers := in_progress |}
            | None => None
            end
        else Some d
    | _ =>
        match unsafe_append (in_progress_discovered_routers d)
                            (router hop) (addr hop) with
        | Some in_progress =>
            Some {| discovered_adjs := discovered_adjs d;
                    discovered_multi_adjs := discovered_multi_adjs d;
                    discovered_addresses := discovered_addresses d;
                    discovered_routers := discovered_routers d;
                    in_progress_discovered_routers := in_progress |}
        | None => None
        end
    end.

(** The part of the loop body of [process_trace] for a hop of the AS of
    interest: the address, then the router. *)
Definition process_hop (hop : Hop) (d : discovered) : option discovered :=
  process_router hop
    {| discovered_adjs := discovered_adjs d;
       discovered_multi_adjs := discovered_multi_adjs d;
       discovered_addresses := unsafe_add_key (discovered_addresses d) (addr hop);
       discovered_routers := discovered_routers d;
       in_progress_discovered_routers := in_progress_discovered_routers d |}.

(** The adjacency of a hop and the next one. *)
Definition process_adjacency (hop next_hop : Hop) (d : discovered)
  : discovered :=
  let distance := probe_ttl next_hop - probe_ttl hop in
  {| discovered_adjs :=
       if distance =? 1
       then unsafe_add_key (discovered_adjs d) (adj_key hop next_hop)
       else discovered_adjs d;
     discovered_multi_adjs :=
       if distance >? 1
       then unsafe_add_key (discovered_multi_adjs d) (adj_key hop next_hop)
       else discovered_multi_adjs d;
     discovered_addresses := discovered_addresses d;
     discovered_routers := discovered_routers d;
     in_progress_discovered_routers := in_progress_discovered_routers d |}.

(** The loop of [process_trace] over the hops. *)
Fixpoint process_hops (as_interest : string) (trace : Trace)
         (discovery : Z) (d : discovered) : option (Z * discovered) :=
  match trace with
  | [] => Some (discovery, d)
  | hop :: rest =>
      match
        if String.eqb (asn hop) as_interest
        then pair (discovery + 1) <$> process_hop hop d
        else Some (discovery, d)
      with
      | None => None
      | Some (discovery, d) =>
          match rest with
          | [] => Some (discovery, d)
          | next_hop :: _ =>
              if negb (String.eqb (asn hop) as_interest)
                 && negb (String.eqb (asn next_hop) as_interest)
              then process_hops as_interest rest discovery d
              else process_hops as_interest rest discovery
                                (process_adjacency hop next_hop d)
          end
      end
  end.

(** [process_trace]: what is not a [*Trace] (a missing trace is [nil])
    discovers nothing. *)
Definition process_trace (trace_i : option (value Trace)) (as_interest : string)
           (d : discovered) : option (Z * discovered) :=
  match trace_i with
  | Some (V_other trace) => process_hops as_interest trace 0 d
  | _ => Some (0, d)
  end.

End anaximander_driver.

(** ** parallel_anaximander.go: the status of an AS *)

Module anaximander_parallel.

Record AS_status := {
  asn : string;
  start : Z;
  end_ : Z;
  curr_probe : Z;
  plateau : Z;
  stopped : bool;
  position : Z
}.

(** [launch_as_probing]: the destination, the count of the stopped ASes
    and the status as the call leaves it.  An index out of range panics. *)
Definition launch_as_probing (sorted_destinations : list string)
           (as_status : AS_status) (_stopped_ases : Z)
  : option (string * Z * AS_status) :=
  match
    if stopped as_status || (curr_probe as_status >=? end_ as_status)
    then Some ""%string
    else if curr_probe as_status <? 0 then None
         else sorted_destinations !! Z.to_nat (curr_probe as_status)
  with
  | None => None
  | Some destination =>
      let curr := curr_probe as_status + 1 in
      if (curr =? end_ as_status) && negb (stopped as_status) then
        Some (destination, _stopped_ases + 1,
              {| asn := asn as_status; start := start as_status;
                 end_ := end_ as_status; curr_probe := curr;
                 plateau := plateau as_status; stopped := true;
                 position := position as_status |})
      else
        Some (destination, _stopped_ases,
              {| asn := asn as_status; start := start as_status;
                 end_ := end_ as_status; curr_probe := curr;
                 plateau := plateau as_status; stopped := stopped as_status;
                 position := position as_status |})
  end.

End anaximander_parallel.

(** ** heuristics.go: the choice among the entries of a prefix *)

Module heuristics.
Import Go utils rib_reader caida_file_readers.

Section with_relationships.
Variable as_neighbors : gmap string (gmap string Z).

(** The state the heuristics update: [selected_next_hop] and
    [selected_entry]. *)
Definition selection : Type := string * Rib_entry.

(** A heuristic says whether it applied; a fatal exit of
    [get_relationship] is [None]. *)
Definition heuristic_fn : Type :=
  string → Rib_entry → selection → option (bool * selection).

Definition generate_valley_free_heuristic (pivot_node : string)
  : heuristic_fn :=
  λ next_hop routing_entry '(selected_next_hop, selected_entry),
    r1 ← get_relationship as_neighbors pivot_node next_hop;
    r2 ← get_relationship as_neighbors pivot_node selected_next_hop;
    if r1 =? r2 then Some (false, (selected_next_hop, selected_entry))
    else if r1 <? r2 then Some (true, (next_hop, routing_entry))
         else Some (true, (selected_next_hop, selected_entry)).

Definition generate_heuristic_check (pivot_node : string) : heuristic_fn :=
  λ next_hop routing_entry '(selected_next_hop, selected_entry),
    r1 ← get_relationship as_neighbors pivot_node next_hop;
    r2 ← get_relationship as_neighbors pivot_node selected_next_hop;
    if r1 =? r2 then Some (false, (selected_next_hop, selected_entry))
    else Some (true, (selected_next_hop, selected_entry)).

Definition generate_next_hop_popularity_heuristic
           (pivot_node max_next_hop : string) (nb : Z) : heuristic_fn :=
  λ next_hop routing_entry '(selected_next_hop, selected_entry),
    if (nb =? 1) && negb (String.eqb next_hop selected_next_hop) then
      if String.eqb next_hop max_next_hop
      then Some (true, (next_hop, routing_entry))
      else Some (true, (selected_next_hop, selected_entry))
    else Some (false, (selected_next_hop, selected_entry)).

Definition generate_shortest_path_heuristic : heuristic_fn :=
  λ next_hop routing_entry '(selected_next_hop, selected_entry),
    let l := Z.of_nat (length (as_path routing_entry)) in
    let ls := Z.of_nat (length (as_path selected_entry)) in
    if l =? ls then Some (false, (selected_next_hop, selected_entry))
    else if l <? ls then Some (true, (next_hop, routing_entry))
         else Some (true, (selected_next_hop, selected_entry)).

Definition generate_most_ases_interest_heuristic : heuristic_fn :=
  λ next_hop routing_entry '(selected_next_hop, selected_entry),
    let l := Z.of_nat (length (as_path routing_entry)) in
    let ls := Z.of_nat (length (as_path selected_entry)) in
    if l =? ls then
      if (size (as_to_next_hop_AS selected_entry)
          <? size (as_to_next_hop_AS routing_entry))%nat
      then Some (true, (next_hop, routing_entry))
      else Some (true, (selected_next_hop, selected_entry))
    else Some (false, (selected_next_hop, selected_entry)).

(** [for _, heuristic := range heuristics { if heuristic (...) { break } }]. *)
Fixpoint apply_heuristics (heuristics : list heuristic_fn) (next_hop : string)
         (routing_entry : Rib_entry) (sel : selection) : option selection :=
  match heuristics with
  | [] => Some sel
  | heuristic :: rest =>
      match heuristic next_hop routing_entry sel with
      | None => None
      | Some (true, sel) => Some sel
      | Some (false, sel) => apply_heuristics rest next_hop routing_entry sel
      end
  end.

(** The next hop of the pivot on a path: [path[index-1]] panics with the
    pivot first on the path. *)
Definition next_hop_of (pivot_node : string) (path : list string)
  : option string :=
  let index := find_index path pivot_node in
  if index =? -1 then Some ""%string
  else if index =? 0 then None
       else path !! Z.to_nat (index - 1).

(** [select_entry] over the entries in the order the map yields them;
    the outer [None] is a fatal exit or a panic, the inner one the [nil]
    of an empty map. *)
Definition select_entry (pivot_node : string) (entries : list Rib_entry)
           (max_next_hop : string) (nb : Z) : option (option Rib_entry) :=
  let heuristics :=
    (if String.eqb pivot_node "" then []
     else [generate_valley_free_heuristic pivot_node;
           generate_heuristic_check pivot_node;
           generate_next_hop_popularity_heuristic pivot_node max_next_hop nb])
    ++ [generate_shortest_path_heuristic;
        generate_most_ases_interest_heuristic] in
  match
    foldl (λ (acc : option (option selection)) routing_entry,
              match acc with
              | None => None
              | Some selected =>
                  match next_hop_of pivot_node (as_path routing_entry) with
                  | None => None
                  | Some next_hop =>
                      match selected with
                      | None => Some (Some (next_hop, routing_entry))
                      | Some sel =>
                          Some <$> apply_heuristics heuristics next_hop
                                                    routing_entry sel
                      end
                  end
              end)
           (Some None) entries
  with
  | None => None
  | Some None => Some None
  | Some (Some (_, selected_entry)) => Some (Some selected_entry)
  end.

End with_relationships.
End heuristics.
(* ===================================================================== *)
(** * Part II: properties                                                 *)
(* ===================================================================== *)

Import Go ip_addresses.

Example get_binary_string_doc :
  get_binary_string "1.0.4.0/22" = Some "0000000100000000000001"%string.
Proof. reflexivity. Qed.

Example get_prefix_from_binary_doc :
  get_prefix_from_binary "0000000100000000000001" = Some "1.0.4.0/22"%string.
Proof. reflexivity. Qed.

(** ** Strings: splitting and slicing *)

Lemma app_cons c r s : String c r +:+ s = String c (r +:+ s).
Proof. reflexivity. Qed.

Lemma app_nil_l s : "" +:+ s = s.
Proof. reflexivity. Qed.

Lemma app_char c s : String c "" +:+ s = String c s.
Proof. reflexivity. Qed.

Fixpoint no_char (c : ascii) (s : string) : bool :=
  match s with
  | EmptyString => true
  | String c' r => negb (Ascii.eqb c' c) && no_char c r
  end.

Lemma Split_no_char sep s : no_char sep s = true → Split sep s = [s].
Proof.
  induction s as [|c r IH]; simpl; [done|].
  intros [Hc Hr]%andb_prop. apply negb_true_iff in Hc. rewrite Hc.
  by rewrite (IH Hr).
Qed.

Lemma Split_app sep s1 s2 :
  no_char sep s1 = true →
  Split sep (s1 +:+ String sep s2) = s1 :: Split sep s2.
Proof.
  induction s1 as [|c r IH].
  - intros _. rewrite app_nil_l. simpl. by rewrite Ascii.eqb_refl.
  - rewrite app_cons. simpl.
    intros [Hc Hr]%andb_prop. apply negb_true_iff in Hc. rewrite Hc.
    by rewrite (IH Hr).
Qed.

Lemma no_char_app c s1 s2 :
  no_char c (s1 +:+ s2) = no_char c s1 && no_char c s2.
Proof.
  induction s1 as [|c' r IH]; [done|].
  rewrite app_cons. simpl. by rewrite IH, andb_assoc.
Qed.

Lemma substring_0_length s : substring 0 (String.length s) s = s.
Proof. induction s as [|c r IH]; simpl; [done|]. by rewrite IH. Qed.

Lemma substring_0_app s1 s2 :
  substring 0 (String.length s1) (s1 +:+ s2) = s1.
Proof.
  induction s1 as [|c r IH]; [by destruct s2|].
  rewrite app_cons. simpl. by rewrite IH.
Qed.

Lemma string_length_app s1 s2 :
  String.length (s1 +:+ s2) = (String.length s1 + String.length s2)%nat.
Proof.
  induction s1 as [|c r IH]; [done|]. rewrite app_cons. simpl. by rewrite IH.
Qed.

Lemma app_assoc_s (s1 s2 s3 : string) : (s1 +:+ s2) +:+ s3 = s1 +:+ s2 +:+ s3.
Proof.
  induction s1 as [|c r IH]; [done|]. rewrite !app_cons. by rewrite IH.
Qed.

Lemma slice_drop_last s c :
  slice (s +:+ String c "") 0
        (Z.of_nat (String.length (s +:+ String c "")) - 1) = Some s.
Proof.
  unfold slice. rewrite string_length_app. simpl String.length.
  replace (Z.of_nat (String.length s + 1) - 1) with (Z.of_nat (String.length s))
    by lia.
  rewrite Z.sub_0_r, Nat2Z.id, substring_0_app.
  replace (0 <=? 0) with true by done.
  destruct (Z.leb_spec 0 (Z.of_nat (String.length s))); [|lia].
  destruct (Z.leb_spec (Z.of_nat (String.length s))
                       (Z.of_nat (String.length s + 1))); [done|lia].
Qed.

(** ** Bytes: printing and parsing, checked on the 256 values *)

Definition option_Z_eqb (o : option Z) (z : Z) : bool :=
  match o with Some y => y =? z | None => false end.

Definition octet_ok (n : nat) : bool :=
  let z := Z.of_nat n in
  let s := Itoa z in
  no_char "." s && no_char "/" s && no_char "_" s
  && option_Z_eqb (parse_octet s) z
  && option_Z_eqb (Atoi s) z
  && option_Z_eqb (ParseUint_2_8 (Sprintf_08b z)) z.

Lemma octets_ok : forallb octet_ok (seq 0 256) = true.
Proof. vm_compute. reflexivity. Qed.

Lemma option_Z_eqb_eq o z : option_Z_eqb o z = true → o = Some z.
Proof. destruct o as [y|]; simpl; [|done]. by intros ->%Z.eqb_eq. Qed.

Lemma octet_facts (x : Z) :
  0 ≤ x < 256 →
  no_char "." (Itoa x) = true ∧ no_char "/" (Itoa x) = true
  ∧ no_char "_" (Itoa x) = true
  ∧ parse_octet (Itoa x) = Some x ∧ Atoi (Itoa x) = Some x
  ∧ ParseUint_2_8 (Sprintf_08b x) = Some x.
Proof.
  intros Hx.
  assert (Hin : In (Z.to_nat x) (seq 0 256)) by (apply in_seq; lia).
  pose proof (proj1 (forallb_forall _ _) octets_ok _ Hin) as Hok.
  unfold octet_ok in Hok. rewrite Z2Nat.id in Hok by lia.
  repeat (apply andb_prop in Hok as [Hok ?]).
  repeat split; auto using option_Z_eqb_eq.
Qed.

(** ** C9: the binary string of a prefix and back *)

Section binary_roundtrip.
Variables a b c d l : Z.
Hypothesis Ha : 0 ≤ a < 256.
Hypothesis Hb : 0 ≤ b < 256.
Hypothesis Hc : 0 ≤ c < 256.
Hypothesis Hd : 0 ≤ d < 256.
Hypothesis Hl : 8 ≤ l ≤ 24.
(** The base address is masked: the [32 - l] host bits are zero. *)
Hypothesis Hhost : Z.land (ip_to_uint32 (a, b, c, d)) (Z.ones (32 - l)) = 0.

Let ip_string : string :=
  Sprintf_08b a +:+ Sprintf_08b b +:+ Sprintf_08b c +:+ Sprintf_08b d.

Lemma testbit_ip_to_uint32 m :
  0 ≤ m →
  Z.testbit (ip_to_uint32 (a, b, c, d)) m
  = Z.testbit a (m - 24) || Z.testbit b (m - 16) || Z.testbit c (m - 8)
    || Z.testbit d m.
Proof.
  intros Hm. unfold ip_to_uint32.
  rewrite !Z.lor_spec, !Z.shiftl_spec by lia. by rewrite !orb_assoc.
Qed.

Lemma host_bit m :
  0 ≤ m < 32 - l →
  Z.testbit a (m - 24) = false ∧ Z.testbit b (m - 16) = false
  ∧ Z.testbit c (m - 8) = false ∧ Z.testbit d m = false.
Proof.
  intros Hm.
  assert (H0 : Z.testbit (ip_to_uint32 (a, b, c, d)) m = false).
  { pose proof (f_equal (λ z, Z.testbit z m) Hhost) as H. simpl in H.
    rewrite Z.land_spec, Z.ones_spec_low, Z.bits_0, andb_true_r in H by lia.
    exact H. }
  rewrite testbit_ip_to_uint32 in H0 by lia.
  apply orb_false_elim in H0 as [H0 ?].
  apply orb_false_elim in H0 as [H0 ?].
  apply orb_false_elim in H0 as [? ?]. done.
Qed.

Lemma host_bit_a k : 0 ≤ k + 24 < 32 - l → "0"%char = bit_char a k.
Proof.
  intros H. unfold bit_char.
  destruct (host_bit (k + 24) H) as (E & _).
  replace (k + 24 - 24) with k in E by lia. by rewrite E.
Qed.

Lemma host_bit_b k : 0 ≤ k + 16 < 32 - l → "0"%char = bit_char b k.
Proof.
  intros H. unfold bit_char.
  destruct (host_bit (k + 16) H) as (_ & E & _).
  replace (k + 16 - 16) with k in E by lia. by rewrite E.
Qed.

Lemma host_bit_c k : 0 ≤ k + 8 < 32 - l → "0"%char = bit_char c k.
Proof.
  intros H. unfold bit_char.
  destruct (host_bit (k + 8) H) as (_ & _ & E & _).
  replace (k + 8 - 8) with k in E by lia. by rewrite E.
Qed.

Lemma host_bit_d k : 0 ≤ k < 32 - l → "0"%char = bit_char d k.
Proof.
  intros H. unfold bit_char.
  destruct (host_bit k H) as (_ & _ & _ & E). by rewrite E.
Qed.

(** Cutting the 32 digits at [l] and padding with zeros gives them back. *)
Lemma pad_back :
  substring 0 (Z.to_nat l) ip_string
  +:+ string_of_list_ascii (replicate (Z.to_nat (32 - l)) "0"%char)
  = ip_string.
Proof.
  assert (Hcases : l = 8 ∨ l = 9 ∨ l = 10 ∨ l = 11 ∨ l = 12 ∨ l = 13
                   ∨ l = 14 ∨ l = 15 ∨ l = 16 ∨ l = 17 ∨ l = 18 ∨ l = 19
                   ∨ l = 20 ∨ l = 21 ∨ l = 22 ∨ l = 23 ∨ l = 24) by lia.
  unfold ip_string.
  repeat (destruct Hcases as [Hcases|Hcases]);
    (pose proof host_bit_a as Pa; pose proof host_bit_b as Pb;
     pose proof host_bit_c as Pc; pose proof host_bit_d as Pd;
     rewrite Hcases in Pa, Pb, Pc, Pd |- *;
     cbv - [bit_char];
     repeat f_equal;
     first [apply Pd; lia | apply Pc; lia | apply Pb; lia | apply Pa; lia]).
Qed.
End binary_roundtrip.

Lemma length_substring_0 s n :
  (n ≤ String.length s)%nat → String.length (substring 0 n s) = n.
Proof.
  revert n. induction s as [|ch r IH]; intros [|n] Hn; simpl in *; try done.
  - lia.
  - rewrite IH; [done|lia].
Qed.

Lemma slice_ip_string a b c d :
  let s := Sprintf_08b a +:+ Sprintf_08b b +:+ Sprintf_08b c +:+ Sprintf_08b d in
  String.length s = 32%nat
  ∧ slice s 0 8 = Some (Sprintf_08b a) ∧ slice s 8 16 = Some (Sprintf_08b b)
  ∧ slice s 16 24 = Some (Sprintf_08b c) ∧ slice s 24 32 = Some (Sprintf_08b d).
Proof. cbv - [bit_char]. done. Qed.

Lemma IPNet_String_split a b c d l :
  0 ≤ a < 256 → 0 ≤ b < 256 → 0 ≤ c < 256 → 0 ≤ d < 256 → 0 ≤ l < 256 →
  Split "/" (IPNet_String {| IP := (a, b, c, d); Mask := l |})
  = [IP_String (a, b, c, d); Itoa l].
Proof.
  intros Ha Hb Hc Hd Hl.
  destruct (octet_facts a Ha) as (_ & Sa & _), (octet_facts b Hb) as (_ & Sb & _),
    (octet_facts c Hc) as (_ & Sc & _), (octet_facts d Hd) as (_ & Sd & _),
    (octet_facts l Hl) as (_ & Sl & _).
  unfold IPNet_String. simpl IP. simpl Mask.
  change ("/" +:+ Itoa l) with (String "/" (Itoa l)).
  rewrite Split_app, Split_no_char; [done|done|].
  unfold IP_String. rewrite !no_char_app, Sa, Sb, Sc, Sd. done.
Qed.

Lemma ParseIP_IP_String a b c d :
  0 ≤ a < 256 → 0 ≤ b < 256 → 0 ≤ c < 256 → 0 ≤ d < 256 →
  ParseIP (IP_String (a, b, c, d)) = Some (a, b, c, d).
Proof.
  intros Ha Hb Hc Hd.
  destruct (octet_facts a Ha) as (Sa & _ & _ & Pa & _),
    (octet_facts b Hb) as (Sb & _ & _ & Pb & _),
    (octet_facts c Hc) as (Sc & _ & _ & Pc & _),
    (octet_facts d Hd) as (Sd & _ & _ & Pd & _).
  unfold ParseIP, IP_String.
  rewrite !app_char, !Split_app, Split_no_char by done.
  by rewrite Pa, Pb, Pc, Pd.
Qed.

(** C9.  For every canonical IPv4 prefix [a.b.c.d/l] with [8 <= l <= 24]
    whose base address is masked (its [32 - l] host bits are zero),
    [get_prefix_from_binary (get_binary_string prefix)] is the prefix
    string again, neither function panicking. *)
Theorem binary_string_roundtrip (a b c d l : Z) :
  0 ≤ a < 256 → 0 ≤ b < 256 → 0 ≤ c < 256 → 0 ≤ d < 256 →
  8 ≤ l ≤ 24 →
  Z.land (ip_to_uint32 (a, b, c, d)) (Z.ones (32 - l)) = 0 →
  let prefix := IPNet_String {| IP := (a, b, c, d); Mask := l |} in
  get_binary_string prefix ≫= get_prefix_from_binary = Some prefix.
Proof.
  intros Ha Hb Hc Hd Hl Hhost prefix. subst prefix.
  assert (Hl' : 0 ≤ l < 256) by lia.
  destruct (octet_facts l Hl') as (_ & _ & _ & _ & Al & _).
  destruct (slice_ip_string a b c d) as (Hlen & S0 & S1 & S2 & S3).
  destruct (octet_facts a Ha) as (_ & _ & _ & _ & _ & Ba),
    (octet_facts b Hb) as (_ & _ & _ & _ & _ & Bb),
    (octet_facts c Hc) as (_ & _ & _ & _ & _ & Bc),
    (octet_facts d Hd) as (_ & _ & _ & _ & _ & Bd).
  unfold get_binary_string.
  rewrite IPNet_String_split, ParseIP_IP_String, Al by done. simpl default.
  pose proof (pad_back a b c d l Hl Hhost) as Hpad.
  cbv zeta in Hlen, S0, S1, S2, S3, Hpad.
  remember (Sprintf_08b a +:+ Sprintf_08b b +:+ Sprintf_08b c +:+ Sprintf_08b d)
    as s eqn:Es.
  clear Es.
  assert (Hs : slice s 0 l = Some (substring 0 (Z.to_nat l) s)).
  { unfold slice. rewrite Hlen, Z.sub_0_r.
    destruct (Z.leb_spec 0 l); [|lia].
    destruct (Z.leb_spec l (Z.of_nat 32)); [done|lia]. }
  rewrite Hs. change (get_prefix_from_binary (substring 0 (Z.to_nat l) s)
                      = Some (IPNet_String {| IP := (a, b, c, d); Mask := l |})).
  unfold get_prefix_from_binary, IPv4PrefixLen.
  rewrite length_substring_0 by (rewrite Hlen; lia).
  rewrite Z2Nat.id by lia.
  unfold get_0_string. destruct (Z.ltb_spec (32 - l) 0); [lia|].
  rewrite Hpad.
  simpl get_prefix_from_binary_loop.
  change (0 + 8) with 8. change (8 + 8) with 16. change (16 + 8) with 24.
  change (24 + 8) with 32.
  rewrite S0, S1, S2, S3, Ba, Bb, Bc, Bd. simpl default.
  rewrite app_nil_l, !app_assoc_s.
  change (Itoa a +:+ "." +:+ Itoa b +:+ "." +:+ Itoa c +:+ "." +:+ Itoa d +:+ ".")
    with (Itoa a +:+ "." +:+ Itoa b +:+ "." +:+ Itoa c +:+ "."
          +:+ (Itoa d +:+ String "." "")).
  rewrite <- !app_assoc_s.
  rewrite slice_drop_last.
  unfold IPNet_String, IP_String. simpl IP. simpl Mask.
  by rewrite !app_assoc_s.
Qed.

Lemma binary_string_roundtrip_witness :
  get_binary_string "118.174.128.0/22" ≫= get_prefix_from_binary
  = Some "118.174.128.0/22"%string.
Proof.
  apply (binary_string_roundtrip 118 174 128 0 22); try lia.
  reflexivity.
Defined.

(** ** C10: the neighbour of an AS of interest on a path *)

Import utils safe_set rib_reader.

Lemma String_eqb_bool_decide (s t : string) : String.eqb s t = bool_decide (s = t).
Proof.
  destruct (String.eqb_spec s t);
    [by rewrite bool_decide_eq_true_2 | by rewrite bool_decide_eq_false_2].
Qed.

Lemma find_index_from_range i slice element :
  find_index_from i slice element = -1 ∨
  i ≤ find_index_from i slice element < i + Z.of_nat (length slice).
Proof.
  revert i. induction slice as [|s rest IH]; intros i; simpl; [by left|].
  destruct (String.eqb s element); [right; lia|].
  destruct (IH (i + 1)) as [->|?]; [by left|right; lia].
Qed.

Lemma find_index_from_not_in i slice element :
  0 ≤ i → (find_index_from i slice element = -1 ↔ element ∉ slice).
Proof.
  revert i. induction slice as [|s rest IH]; intros i Hi; simpl.
  - split; [intros _; apply not_elem_of_nil|done].
  - rewrite String_eqb_bool_decide. case_bool_decide as Heq.
    + subst. split; [lia|]. intros []. apply elem_of_cons. by left.
    + rewrite IH by lia. rewrite not_elem_of_cons.
      split; [intros ?; split; [congruence|done] | by intros [_ ?]].
Qed.

Lemma find_index_from_lookup i slice element :
  0 ≤ i → element ∈ slice →
  slice !! Z.to_nat (find_index_from i slice element - i) = Some element.
Proof.
  revert i. induction slice as [|s rest IH]; intros i Hi Hin; simpl.
  - by apply elem_of_nil in Hin.
  - rewrite String_eqb_bool_decide. case_bool_decide as Heq.
    + subst. by rewrite Z.sub_diag.
    + apply elem_of_cons in Hin as [->|Hin]; [done|].
      pose proof (IH (i + 1) ltac:(lia) Hin) as H.
      destruct (find_index_from_range (i + 1) rest element) as [E|E].
      { apply find_index_from_not_in in E; [done|lia]. }
      replace (Z.to_nat (find_index_from (i + 1) rest element - i))
        with (S (Z.to_nat (find_index_from (i + 1) rest element - (i + 1))))
        by lia.
      done.
Qed.

Lemma find_index_from_last i pre A :
  A ∉ pre → find_index_from i (pre ++ [A]) A = i + Z.of_nat (length pre).
Proof.
  revert i. induction pre as [|p pre IH]; intros i Hpre; simpl.
  - rewrite String.eqb_refl. lia.
  - apply not_elem_of_cons in Hpre as [Hp Hpre].
    rewrite String_eqb_bool_decide, bool_decide_eq_false_2 by done.
    rewrite IH by done. lia.
Qed.

Lemma get_prev_or_next_as_from_spec A path dir rest i :
  0 ≤ i →
  get_prev_or_next_as_from A path dir i rest =
  let j := find_index_from i rest A in
  if j =? -1 then ""%string
  else if (j + dir <? 0) || (j + dir >=? Z.of_nat (length path)) then A
       else default ""%string (path !! Z.to_nat (j + dir)).
Proof.
  revert i. induction rest as [|s rest IH]; intros i Hi; simpl; [done|].
  destruct (String.eqb s A).
  - destruct (Z.eqb_spec i (-1)); [lia|done].
  - by rewrite IH by lia.
Qed.

Lemma get_prev_or_next_as_boundary A path dir :
  A ∈ path →
  find_index path A + dir < 0 ∨ Z.of_nat (length path) ≤ find_index path A + dir →
  get_prev_or_next_as A path dir = A.
Proof.
  intros Hin Hb. unfold get_prev_or_next_as.
  rewrite get_prev_or_next_as_from_spec by lia. cbv zeta.
  fold (find_index path A).
  destruct (Z.eqb_spec (find_index path A) (-1)) as [E|_].
  { apply find_index_from_not_in in E; [done|lia]. }
  destruct (Z.ltb_spec (find_index path A + dir) 0); [done|].
  destruct (Z.geb_spec (find_index path A + dir) (Z.of_nat (length path)));
    [done|lia].
Qed.

Lemma get_Rib_entry_lookup as_path_s ases_interest dir A :
  as_to_next_hop_AS (get_Rib_entry as_path_s ases_interest dir) !! A =
  if bool_decide (A ∈ ases_interest
                  ∧ get_prev_or_next_as A (Split " " as_path_s) dir ≠ ""%string)
  then Some (get_prev_or_next_as A (Split " " as_path_s) dir)
  else None.
Proof.
  unfold get_Rib_entry. simpl.
  set (path := Split " " as_path_s).
  set (step := λ (m : gmap string string) as_interest,
         if String.eqb (get_prev_or_next_as as_interest path dir) ""
         then m else <[as_interest := get_prev_or_next_as as_interest path dir]> m).
  assert (Hgen : ∀ l (m : gmap string string),
    foldl step m l !! A =
    if bool_decide (A ∈ l ∧ get_prev_or_next_as A path dir ≠ ""%string)
    then Some (get_prev_or_next_as A path dir) else m !! A).
  { induction l as [|x l IH]; intros m; cbn [foldl].
    - rewrite bool_decide_eq_false_2; [done|]. intros [H _].
      by apply elem_of_nil in H.
    - rewrite IH. clear IH. unfold step. rewrite String_eqb_bool_decide.
      set (T := get_prev_or_next_as A path dir).
      destruct (decide (A ∈ l ∧ T ≠ ""%string)) as [[Hl HT]|Hn].
      { rewrite !bool_decide_eq_true_2; [done| |done].
        split; [by apply list_elem_of_further|done]. }
      rewrite (bool_decide_eq_false_2 _ Hn).
      destruct (decide (x = A)) as [->|Hne]; fold T.
      + case_bool_decide as HT.
        * rewrite bool_decide_eq_false_2; [done|]. by intros [_ ?].
        * rewrite lookup_insert_eq, bool_decide_eq_true_2; [done|].
          split; [by apply list_elem_of_here|done].
      + rewrite (bool_decide_eq_false_2 (A ∈ x :: l ∧ _)).
        * case_bool_decide; [done|]. by rewrite lookup_insert_ne.
        * intros [[?|?]%elem_of_cons ?]; [done|]. apply Hn. done. }
  rewrite Hgen. by rewrite lookup_empty.
Qed.

(** C10.  With ASNs that are non-empty strings, [get_prev_or_next_as]
    returns the empty string exactly when [A] is not on the path; when the
    occurrence of [A] it finds (the first one) has its neighbour in
    direction [dir] outside the path, it returns [A] itself -- which is the
    case for [dir = -1] when [A] is the first AS and for [dir = +1] when
    [A] is the last AS and nowhere before -- and [get_Rib_entry] then maps
    [A] to [A] in [as_to_next_hop_AS] instead of leaving [A] out. *)
Theorem get_prev_or_next_as_boundary_self (A : string) (path : list string)
        (dir : Z) :
  A ≠ ""%string → Forall (λ x, x ≠ ""%string) path →
  (get_prev_or_next_as A path dir = ""%string ↔ A ∉ path)
  ∧ (A ∈ path →
     find_index path A + dir < 0
     ∨ Z.of_nat (length path) ≤ find_index path A + dir →
     get_prev_or_next_as A path dir = A)
  ∧ (∀ rest, path = A :: rest → get_prev_or_next_as A path (-1) = A)
  ∧ (∀ pre, path = pre ++ [A] → A ∉ pre → get_prev_or_next_as A path 1 = A)
  ∧ (∀ as_path_s ases_interest,
       path = Split " " as_path_s → A ∈ ases_interest → A ∈ path →
       find_index path A + dir < 0
       ∨ Z.of_nat (length path) ≤ find_index path A + dir →
       as_to_next_hop_AS (get_Rib_entry as_path_s ases_interest dir) !! A
       = Some A).
Proof.
  intros HA Hpath. repeat split.
  - intros Hres Hin. revert Hres. unfold get_prev_or_next_as.
    rewrite get_prev_or_next_as_from_spec by lia. cbv zeta.
    fold (find_index path A).
    destruct (Z.eqb_spec (find_index path A) (-1)) as [E|Hne].
    { apply find_index_from_not_in in E; [done|lia]. }
    destruct (_ || _) eqn:Hb; [done|].
    apply orb_false_elim in Hb as [Hlo Hhi].
    apply Z.ltb_ge in Hlo. rewrite Z.geb_leb in Hhi. apply Z.leb_gt in Hhi.
    destruct (lookup_lt_is_Some_2 path (Z.to_nat (find_index path A + dir)))
      as [x Hx]; [lia|].
    rewrite Hx. simpl. intros ->. apply list_elem_of_lookup_2 in Hx.
    by eapply Forall_forall in Hpath.
  - intros Hnin. unfold get_prev_or_next_as.
    rewrite get_prev_or_next_as_from_spec by lia. cbv zeta.
    apply (find_index_from_not_in 0) in Hnin; [|lia]. by rewrite Hnin.
  - apply get_prev_or_next_as_boundary.
  - intros rest ->. apply get_prev_or_next_as_boundary.
    + apply elem_of_cons. by left.
    + left. unfold find_index. simpl. rewrite String.eqb_refl. lia.
  - intros pre -> Hpre. apply get_prev_or_next_as_boundary.
    + apply elem_of_app. right. apply list_elem_of_singleton. done.
    + right. rewrite length_app. simpl.
      unfold find_index. rewrite find_index_from_last by done. lia.
  - intros as_path_s ases_interest -> Hin Hpin Hb.
    rewrite get_Rib_entry_lookup.
    rewrite (get_prev_or_next_as_boundary _ _ _ Hpin Hb).
    by rewrite bool_decide_eq_true_2.
Qed.

Lemma get_prev_or_next_as_boundary_self_witness :
  (get_prev_or_next_as "3356" ["174"; "3356"] 1 = ""%string
   ↔ "3356" ∉ ["174"; "3356"])
  ∧ as_to_next_hop_AS (get_Rib_entry "174 3356" ["3356"] 1) !! "3356"
    = Some "3356"%string.
Proof.
  assert (HA : "3356"%string ≠ ""%string) by done.
  assert (Hp : Forall (λ x : string, x ≠ ""%string) ["174"; "3356"]%string)
    by (repeat constructor; done).
  destruct (get_prev_or_next_as_boundary_self "3356" ["174"; "3356"] 1 HA Hp)
    as (H1 & _ & _ & _ & H5).
  split; [exact H1|].
  apply (H5 "174 3356"%string ["3356"]%string).
  - reflexivity.
  - apply list_elem_of_singleton. reflexivity.
  - apply elem_of_cons. right. apply list_elem_of_singleton. reflexivity.
  - right. vm_compute. discriminate.
Defined.

(** C10 as it is written fails on the code.  On a path that holds the
    empty string, the result is empty although [A] is on the path; and on
    a path where [A] is last and also occurs before, the result for
    [dir = +1] is the neighbour of the first occurrence, not [A]. *)
Lemma get_prev_or_next_as_every_path_fails :
  ¬ (get_prev_or_next_as "A" ["A"; ""] 1 = ""%string
     ↔ "A"%string ∉ ["A"; ""]%string)
  ∧ (last ["A"; "B"; "A"]%string = Some "A"%string
     ∧ get_prev_or_next_as "A" ["A"; "B"; "A"] 1 = "B"%string
     ∧ get_prev_or_next_as "A" ["A"; "B"; "A"] 1 ≠ "A"%string).
Proof.
  split.
  - intros [H _]. apply H; [reflexivity|]. apply list_elem_of_here.
  - split; [reflexivity|]. split; [reflexivity|]. discriminate.
Qed.

(** ** C8: the /24 expansion of the ip2as file *)

Import weights caida_file_readers.

Example get_subnets_doc :
  IPNet_String <$> get_subnets {| IP := (118, 174, 128, 0); Mask := 22 |} 24
  = ["118.174.128.0/24"; "118.174.129.0/24"; "118.174.130.0/24";
     "118.174.131.0/24"]%string.
Proof. vm_compute. reflexivity. Qed.

Example get_subnets_doc_shorter :
  IPNet_String <$> get_subnets {| IP := (118, 174, 128, 0); Mask := 26 |} 24
  = ["118.174.128.0/24"]%string.
Proof. vm_compute. reflexivity. Qed.

Definition ip2as_precedence_lines : list string :=
  ["10.0.0.0/22 AS1"; "10.0.0.0/24 AS2"]%string.

(** C8.  On the ip2as input [{10.0.0.0/22 -> AS1, 10.0.0.0/24 -> AS2}] the
    more specific prefix wins [prefix24_as] ([10.0.0.0/24] goes to AS2,
    [10.0.1.0/24] to AS1), but [as_24prefixes[AS1]] keeps the tile
    [10.0.0.0/24] next to its other three: the membership is not taken from
    the less specific AS. *)
Theorem read_ip2as_precedence :
  ∃ as_24prefixes prefix24_as as_prefixes prefix_as,
    read_ip2as ip2as_precedence_lines
    = Some (as_24prefixes, prefix24_as, as_prefixes, prefix_as)
    ∧ prefix24_as !! "10.0.0.0/24"%string = Some "AS2"%string
    ∧ prefix24_as !! "10.0.1.0/24"%string = Some "AS1"%string
    ∧ as_24prefixes !! "AS2"%string = Some {["10.0.0.0/24"%string]}
    ∧ as_24prefixes !! "AS1"%string
      = Some (list_to_set ["10.0.0.0/24"; "10.0.1.0/24"; "10.0.2.0/24";
                           "10.0.3.0/24"]%string)
    ∧ "10.0.0.0/24"%string ∈ default ∅ (as_24prefixes !! "AS1"%string).
Proof.
  destruct (read_ip2as ip2as_precedence_lines)
    as [[[[m1 m2] m3] m4]|] eqn:E; [|by vm_compute in E].
  exists m1, m2, m3, m4. split; [done|].
  assert (Hm2 : m2 = snd (fst (fst (default (∅, ∅, ∅, ∅)
                      (read_ip2as ip2as_precedence_lines))))) by by rewrite E.
  assert (Hm1 : m1 = fst (fst (fst (default (∅, ∅, ∅, ∅)
                      (read_ip2as ip2as_precedence_lines))))) by by rewrite E.
  clear E. subst m1 m2.
  repeat apply conj; vm_compute; reflexivity.
Qed.

(** ** C2: explicit and implicit overlays on the scenario table *)

Import overlays_processing.

(** The selected entries of the scenario, under the dynamic type [wrap]
    gives them. *)
Definition scenario_entries (wrap : Rib_entry → rib_payload)
  : SafeSet rib_payload :=
  foldl (λ s '(prefix, path),
           unsafe_add s prefix
             (V_other (wrap {| as_path := path; as_to_next_hop_AS := ∅ |})))
        create_safeset
        [("10.0.0.0/22", ["A"; "B"]); ("10.0.0.0/24", ["A"; "B"]);
         ("10.0.1.0/24", ["A"; "B"]); ("10.0.2.0/24", ["A"; "C"]);
         ("10.0.3.0/24", ["A"; "C"])]%string.

(** The groups of a closure, each with its representative first. *)
Definition groups (closure : SafeSet unit) : list (string * list string) :=
  omap (λ '(rep, v), match v with
                     | V_strings members => Some (rep, members)
                     | _ => None
                     end)
       (map_to_list (set closure)).

(** C2.  On the scenario table as the RIB selector stores it (pointers to
    the entries), [process_overlays] reads every AS path as the empty
    string -- its type assertion is on [Rib_entry], not [*Rib_entry] -- so
    the four /24 all count as explicit overlays of [10.0.0.0/22]: the
    closure is one group of five prefixes, with no implicit group at
    [10.0.2.0/23]. *)
Theorem process_overlays_scenario_one_group :
  ∃ closure members,
    process_overlays (scenario_entries Rib_entry_ptr) = Some closure
    ∧ groups closure = [("10.0.0.0/22"%string, members)]
    ∧ length members = 4%nat
    ∧ list_to_set (C := gset string) members
      = list_to_set ["10.0.0.0/24"; "10.0.1.0/24"; "10.0.2.0/24";
                     "10.0.3.0/24"]%string
    ∧ set closure !! "10.0.2.0/23"%string = None.
Proof.
  destruct (process_overlays (scenario_entries Rib_entry_ptr))
    as [closure|] eqn:E; [|by vm_compute in E].
  assert (Hc : closure = default create_safeset
                 (process_overlays (scenario_entries Rib_entry_ptr)))
    by by rewrite E.
  clear E.
  exists closure,
    ["10.0.3.0/24"; "10.0.1.0/24"; "10.0.2.0/24"; "10.0.0.0/24"]%string.
  subst closure. repeat apply conj; vm_compute; reflexivity.
Qed.

(** With the entries stored as [Rib_entry] values, the assertion holds and
    the extractor emits what the scenario describes: the explicit group of
    [10.0.0.0/22] and a separate implicit group at [10.0.2.0/23]. *)
Lemma process_overlays_scenario_on_values :
  ∃ closure,
    process_overlays (scenario_entries Rib_entry_val) = Some closure
    ∧ groups closure
      = [("10.0.2.0/23", ["10.0.3.0/24"; "10.0.2.0/24"]);
         ("10.0.0.0/22", ["10.0.1.0/24"; "10.0.0.0/24"])]%string.
Proof.
  destruct (process_overlays (scenario_entries Rib_entry_val))
    as [closure|] eqn:E; [|by vm_compute in E].
  assert (Hc : closure = default create_safeset
                 (process_overlays (scenario_entries Rib_entry_val)))
    by by rewrite E.
  clear E. exists closure. subst closure. split; [done|]. by vm_compute.
Qed.

(** ** The monad of the random draws *)

Import rand ip_random globals anaximander_strategy probing_strategies_utils
       readers probing_strategies.

Lemma M_bind_Some {A B} (f : A → M B) (m : M A) (g : rng) r :
  (m ≫= f) g = Some r ↔ ∃ x g1, m g = Some (x, g1) ∧ f x g1 = Some r.
Proof.
  unfold mbind, M_bind. destruct (m g) as [[x g1]|]; split.
  - intros H. by exists x, g1.
  - by intros (? & ? & [= <- <-] & ?).
  - done.
  - by intros (? & ? & ? & ?).
Qed.

Lemma M_ret_Some {A} (x : A) (g : rng) r :
  (mret x : M A) g = Some r ↔ r = (x, g).
Proof. unfold mret, M_ret. split; [by intros [= <-]|by intros ->]. Qed.

Lemma lift_Some {A} (o : option A) (g : rng) x g' :
  lift o g = Some (x, g') ↔ o = Some x ∧ g' = g.
Proof.
  destruct o as [y|]; simpl.
  - rewrite M_ret_Some. split; [by intros [= -> ->]|by intros [[= ->] ->]].
  - split; [done|by intros [? _]].
Qed.

(** An invariant of the accumulator of [foldM] holds of its result. *)
Lemma foldM_invariant {A B} (P : B → Prop) (f : B → A → M B) l :
  (∀ b a g b' g', P b → f b a g = Some (b', g') → P b') →
  ∀ acc g r g', P acc → foldM f acc l g = Some (r, g') → P r.
Proof.
  intros Hf. induction l as [|x l IH]; intros acc g r g' Hacc H; simpl in H.
  - apply M_ret_Some in H; simplify_eq. done.
  - apply M_bind_Some in H as (b & g1 & H1 & H2). eauto.
Qed.

(** ** C3: the limits of the strategies *)

(** The targets between two consecutive limits, from [start] on; the
    slice [s[start:limit]] of every limit. *)
Fixpoint segments (s : list string) (start : Z) (limits : list AS_limit)
  : list (list string) :=
  match limits with
  | [] => []
  | l :: r =>
      take (Z.to_nat (limit l - start)) (drop (Z.to_nat start) s)
      :: segments s (limit l) r
  end.

(** What the claim asks of a target list and its limits. *)
Definition limits_wf (st : strategy_result) : Prop :=
  StronglySorted Z.le (limit <$> st.2)
  ∧ Forall (λ x, 0 ≤ x ≤ Z.of_nat (length st.1)) (limit <$> st.2)
  ∧ (st.2 = [] → st.1 = [])
  ∧ (∀ l, last st.2 = Some l → limit l = Z.of_nat (length st.1)).

Lemma limits_wf_nil : limits_wf ([], []).
Proof.
  unfold limits_wf; simpl. repeat split; try done. constructor.
Qed.

Lemma limits_wf_push s limits added a :
  limits_wf (s, limits) →
  limits_wf (s ++ added,
             limits ++ [ {| asn := a; limit := Z.of_nat (length (s ++ added)) |} ]).
Proof.
  unfold limits_wf; simpl. intros (Hs & Hb & _ & _).
  rewrite fmap_app, length_app. simpl. repeat split.
  - apply StronglySorted_app; repeat split; [|done|repeat constructor].
    intros x1 x2 H1 ->%list_elem_of_singleton.
    rewrite Forall_forall in Hb. apply Hb in H1. lia.
  - apply Forall_app. split.
    + eapply Forall_impl; [done|]. simpl. lia.
    + repeat constructor; lia.
  - intros H. by apply app_nil in H as [_ ?].
  - intros l. rewrite last_snoc. by intros [= <-].
Qed.

Lemma segments_concat s limits start :
  0 ≤ start →
  StronglySorted Z.le (start :: (limit <$> limits)) →
  concat (segments s start limits)
  = take (Z.to_nat (default start (limit <$> last limits) - start))
         (drop (Z.to_nat start) s).
Proof.
  revert start. induction limits as [|l r IH]; intros start H0 Hs; simpl.
  - by rewrite Z.sub_diag.
  - apply StronglySorted_cons in Hs as [Hall Hs]. rewrite fmap_cons in Hs, Hall.
    apply Forall_cons in Hall as [Hl Hall].
    rewrite IH by (done || lia).
    assert (Hlast : limit l ≤ default (limit l) (limit <$> last r)).
    { destruct (last r) as [x|] eqn:E; simpl; [|lia].
      apply StronglySorted_cons in Hs as [Hlr _].
      rewrite Forall_forall in Hlr. apply Hlr.
      apply list_elem_of_fmap. exists x. split; [done|].
      by apply last_Some_elem_of. }
    replace (default start (limit <$> last (l :: r)))
      with (default (limit l) (limit <$> last r)).
    2:{ destruct r as [|x r]; [done|]. rewrite last_cons_cons.
        by destruct (last (x :: r)) eqn:E;
          [|apply last_None in E]. }
    set (e := default (limit l) (limit <$> last r)) in *.
    replace (drop (Z.to_nat (limit l)) s)
      with (drop (Z.to_nat (limit l - start)) (drop (Z.to_nat start) s)).
    2:{ rewrite drop_drop. f_equal. lia. }
    rewrite take_take_drop. f_equal. lia.
Qed.

Lemma limits_wf_segments s limits :
  limits_wf (s, limits) → concat (segments s 0 limits) = s.
Proof.
  unfold limits_wf; simpl. intros (Hs & Hb & Hnil & Hlast).
  rewrite segments_concat; [|lia|].
  - destruct (last limits) as [l|] eqn:E; simpl.
    + rewrite (Hlast l eq_refl), Z.sub_0_r, Nat2Z.id. apply firstn_all.
    + apply last_None in E. by rewrite (Hnil E).
  - apply StronglySorted_cons. split; [|done].
    eapply Forall_impl; [done|]. simpl. lia.
Qed.

Lemma foldM_get_probe_app (get_probe : string → M string) l :
  ∀ s g s' g',
    foldM (λ s probe, p ← get_probe probe; mret (s ++ [p])) s l g
    = Some (s', g') →
    ∃ added, s' = s ++ added ∧ length added = length l.
Proof.
  induction l as [|x l IH]; intros s g s' g' H; simpl in H.
  - apply M_ret_Some in H; simplify_eq. exists []. by rewrite app_nil_r.
  - apply M_bind_Some in H as (s1 & g1 & H1 & H2).
    apply M_bind_Some in H1 as (p & g2 & _ & H1).
    apply M_ret_Some in H1; simplify_eq.
    apply IH in H2 as (added & -> & Hlen).
    exists (p :: added). rewrite <- app_assoc. simpl. by rewrite Hlen.
Qed.

(** What one pass of [add_AS_probes] does to the targets and the limits. *)
Lemma add_AS_probes_step_spec AS_probes get_probe s limits AS g s' limits' g' :
  add_AS_probes_step AS_probes get_probe (s, limits) AS g
  = Some ((s', limits'), g') →
  match AS_probes !! AS with
  | Some probes =>
      ∃ added, s' = s ++ added ∧ length added = length (elements probes)
               ∧ limits' = limits ++ [ {| asn := AS;
                                          limit := Z.of_nat (length s') |} ]
  | None => s' = s ∧ limits' = limits
  end.
Proof.
  unfold add_AS_probes_step. destruct (AS_probes !! AS) as [probes|].
  - intros H. apply M_bind_Some in H as (s1 & g1 & H1 & H2).
    apply M_ret_Some in H2; simplify_eq.
    apply foldM_get_probe_app in H1 as (added & -> & ?). by exists added.
  - intros H%M_ret_Some. by simplify_eq.
Qed.

Lemma add_AS_probes_wf s ases limits AS_probes get_probe g r g' :
  limits_wf (s, limits) →
  add_AS_probes s ases limits AS_probes get_probe g = Some (r, g') →
  limits_wf r.
Proof.
  unfold add_AS_probes. intros Hwf H.
  eapply (foldM_invariant limits_wf); [|exact Hwf|exact H].
  clear. intros [s limits] AS g [s' limits'] g' Hwf H.
  apply add_AS_probes_step_spec in H.
  destruct (AS_probes !! AS).
  - destruct H as (added & -> & _ & ->). by apply limits_wf_push.
  - by destruct H as [-> ->].
Qed.

(** The limits [add_AS_probes] appends: one for each of the listed ASes
    that is a key of [AS_probes], in the order of the list. *)
Lemma add_AS_probes_limits ases AS_probes get_probe :
  ∀ s limits g s' limits' g',
    add_AS_probes s ases limits AS_probes get_probe g
    = Some ((s', limits'), g') →
    ∃ new, limits' = limits ++ new
           ∧ asn <$> new = filter (λ AS, is_Some (AS_probes !! AS)) ases.
Proof.
  unfold add_AS_probes.
  induction ases as [|AS ases IH]; intros s limits g s' limits' g' H;
    simpl in H.
  - apply M_ret_Some in H; simplify_eq. exists []. by rewrite app_nil_r.
  - apply M_bind_Some in H as ([s1 limits1] & g1 & H1 & H2).
    apply IH in H2 as (new & -> & Hnew).
    apply add_AS_probes_step_spec in H1.
    destruct (AS_probes !! AS) as [probes|] eqn:E.
    + destruct H1 as (added & -> & _ & ->).
      eexists (_ :: new). rewrite <- app_assoc. split; [done|].
      rewrite filter_cons_True by (by rewrite E). rewrite fmap_cons. simpl.
      by rewrite Hnew.
    + destruct H1 as [-> ->]. exists new. split; [done|].
      rewrite filter_cons_False; [done|]. rewrite E. by intros [? ?].
Qed.

Lemma limits_wf_single s a :
  limits_wf (s, [ {| asn := a; limit := Z.of_nat (length s) |} ]).
Proof. apply (limits_wf_push [] [] s a). apply limits_wf_nil. Qed.

Lemma limits_wf_internal_group s as_interest :
  limits_wf (internal_group s as_interest).
Proof. apply limits_wf_single. Qed.

Lemma limits_wf_two s1 s2 a b :
  limits_wf (s1 ++ s2, [ {| asn := a; limit := Z.of_nat (length s1) |};
                         {| asn := b; limit := Z.of_nat (length (s1 ++ s2)) |} ]).
Proof.
  apply (limits_wf_push s1 [ {| asn := a; limit := Z.of_nat (length s1) |} ]).
  apply limits_wf_single.
Qed.

(** Inversion of a computation in [M] that returned. *)
Ltac inv_M H :=
  repeat match type of H with
         | (let '(_, _) := internal_group ?l ?a in _) _ = Some _ =>
             unfold internal_group in H; cbv beta iota zeta in H
         | (_ ≫= _) _ = Some _ =>
             let x := fresh "x" in
             let g := fresh "g" in
             let H1 := fresh "Hm" in
             apply M_bind_Some in H as (x & g & H1 & H);
             repeat match type of x with
                    | (_ * _)%type => destruct x as [x ?]
                    end
         end.

Section strategies_wf.
Variable G : Globals.

Lemma neighbors_onehop_others_wf as_interest AS_probes n o ot st g r g' :
  limits_wf st →
  neighbors_onehop_others G as_interest AS_probes n o ot st g = Some (r, g') →
  limits_wf r.
Proof.
  destruct st as [s limits]. intros Hwf H. unfold neighbors_onehop_others in H.
  inv_M H. simpl in *.
  eapply add_AS_probes_wf in Hm; [|done].
  eapply add_AS_probes_wf in Hm0; [|done].
  eapply add_AS_probes_wf in H; done.
Qed.

Lemma _overlays_reduction_wf as_interest tvp overlays rel rev_ g r g' :
  _overlays_reduction G [] as_interest tvp overlays rel rev_ g = Some (r, g') →
  limits_wf r.
Proof.
  unfold _overlays_reduction. intros H. inv_M H. simpl in *.
  eapply add_AS_probes_wf in Hm2; [|apply limits_wf_single].
  eapply add_AS_probes_wf in Hm4; [|done].
  eapply add_AS_probes_wf in H; done.
Qed.

(** Every strategy of the menu returns targets and limits that are well
    formed. *)
Lemma strategy_fc_wf i f destinations as_interest tvp g r g' :
  strategy_fc G !! i = Some f →
  f destinations as_interest tvp g = Some (r, g') →
  limits_wf r.
Proof.
  intros Hi H. unfold strategy_fc in Hi.
  repeat (destruct i as [|i]; [simpl in Hi; injection Hi as <-|simpl in Hi]);
    [..|by rewrite lookup_nil in Hi].
  - (* 0 *) unfold random in H. case_bool_decide; [done|].
    inv_M H. apply M_ret_Some in H; simplify_eq. apply limits_wf_single.
  - (* 1 *) unfold increasing_order in H. case_bool_decide; [done|].
    apply M_ret_Some in H; simplify_eq. apply limits_wf_single.
  - (* 2 *) unfold direct_neighbors in H.
    eapply add_AS_probes_wf in H; [done|apply limits_wf_nil].
  - (* 3 *) apply M_ret_Some in H; simplify_eq. apply limits_wf_two.
  - (* 4 *) apply M_ret_Some in H; simplify_eq. apply limits_wf_two.
  - (* 5 *) eapply add_AS_probes_wf in H; [done|apply limits_wf_nil].
  - (* 6 *) eapply add_AS_probes_wf in H; [done|apply limits_wf_nil].
  - (* 7 *) unfold directed_probing in H. inv_M H.
    apply M_ret_Some in H; simplify_eq. apply limits_wf_single.
  - (* 8 *) unfold directed_probing_internal_neighbors_others,
      _directed_probing_internal_neighbors_others in H.
    inv_M H. simpl in *.
    eapply add_AS_probes_wf in Hm0; [|apply limits_wf_single].
    eapply add_AS_probes_wf in H; done.
  - (* 9 *) unfold directed_probing_internal_neighbors_others_customercone,
      _directed_probing_internal_neighbors_others in H.
    inv_M H. simpl in *.
    eapply add_AS_probes_wf in Hm0; [|apply limits_wf_single].
    eapply add_AS_probes_wf in H; done.
  - (* 10 *) unfold directed_probing_internal_neighbors_others_mixed in H.
    inv_M H. simpl in *.
    eapply add_AS_probes_wf in H; [done|apply limits_wf_single].
  - (* 11 *)
    unfold directed_probing_internal_neighbors_onehopneighbors_others in H.
    inv_M H.
    eapply neighbors_onehop_others_wf in H; [done|apply limits_wf_single].
  - (* 12 *) unfold directed_probing_no24, directed_probing in H. inv_M H.
    apply M_ret_Some in H; simplify_eq. apply limits_wf_single.
  - (* 13 *)
    unfold directed_probing_internal_neighbors_onehopneighbors_others_no24 in H.
    inv_M H.
    eapply neighbors_onehop_others_wf in H; [done|apply limits_wf_single].
  - (* 14 *) unfold directed_probing_internal_neighbors_others_no24 in H.
    inv_M H. simpl in *.
    eapply add_AS_probes_wf in Hm0; [|apply limits_wf_single].
    eapply add_AS_probes_wf in H; done.
  - (* 15 *) unfold customer_cone_neighbors_increasing_no24 in H.
    simpl in H.
    eapply add_AS_probes_wf in H; [done|apply limits_wf_single].
  - (* 16 *)
    unfold best_directed_probing_internal_neighbors_onehopneighbors_others_no24,
      directed_probing_internal_neighbors_onehopneighbors_others_no24 in H.
    inv_M H.
    eapply neighbors_onehop_others_wf in H; [done|apply limits_wf_single].
  - (* 17 *) by eapply _overlays_reduction_wf.
  - (* 18 *) unfold next_hop_as_reduction_global in H.
    destruct (read_nextAS_file _) as [? ?]. inv_M H.
    apply M_ret_Some in H; simplify_eq. apply limits_wf_single.
  - (* 19 *) apply M_ret_Some in H; simplify_eq. apply limits_wf_single.
  - (* 20 *) by eapply _overlays_reduction_wf.
  - (* 21 *) by eapply _overlays_reduction_wf.
Qed.

End strategies_wf.

(* ===================================================================== *)
(** * Part III: further properties of the code                            *)
(* ===================================================================== *)

(** ** utils.go *)

(** No two neighbours of a list are equal. *)
Definition no_adjacent_duplicates (l : list string) : Prop :=
  ∀ i x y, l !! i = Some x → l !! S i = Some y → x ≠ y.

Lemma remove_duplicates_loop_spec prev slice :
  head (remove_duplicates_loop prev slice) ≠ Some prev
  ∧ no_adjacent_duplicates (remove_duplicates_loop prev slice)
  ∧ sublist (remove_duplicates_loop prev slice) slice.
Proof.
  revert prev. induction slice as [|s rest IH]; intros prev; simpl.
  - repeat split; [done| |constructor]. by intros i x y ?.
  - rewrite String_eqb_bool_decide. case_bool_decide as Heq.
    + subst s. destruct (IH prev) as (H1 & H2 & H3).
      repeat split; [done|done|by constructor].
    + destruct (IH s) as (H1 & H2 & H3). simpl. repeat split.
      * by intros [= ->].
      * intros [|i] x y Hx Hy; simpl in *.
        -- injection Hx as <-. intros <-. apply H1.
           by destruct (remove_duplicates_loop s rest).
        -- by eapply H2.
      * by constructor.
Qed.

Lemma remove_duplicates_loop_fixed prev slice :
  head slice ≠ Some prev → no_adjacent_duplicates slice →
  remove_duplicates_loop prev slice = slice.
Proof.
  revert prev. induction slice as [|s rest IH]; intros prev Hh Hadj; simpl;
    [done|].
  rewrite String_eqb_bool_decide, bool_decide_eq_false_2
    by (intros ->; by apply Hh).
  f_equal. apply IH.
  - destruct rest as [|t rest]; [done|]. simpl. intros [= ->].
    by apply (Hadj 0%nat s s).
  - intros i x y Hx Hy. by apply (Hadj (S i)).
Qed.

(** X1.  [remove_duplicates] returns a sub-list of its argument in which no
    two neighbours are equal; the result never starts with the empty string
    (the loop starts with [prev = ""], so leading empty strings go too); a
    slice that already has both properties comes back unchanged, so the
    function is idempotent. *)
Theorem remove_duplicates_spec (slice : list string) :
  sublist (remove_duplicates slice) slice
  ∧ no_adjacent_duplicates (remove_duplicates slice)
  ∧ head (remove_duplicates slice) ≠ Some ""%string
  ∧ (head slice ≠ Some ""%string → no_adjacent_duplicates slice →
     remove_duplicates slice = slice)
  ∧ remove_duplicates (remove_duplicates slice) = remove_duplicates slice.
Proof.
  unfold remove_duplicates.
  destruct (remove_duplicates_loop_spec "" slice) as (H1 & H2 & H3).
  repeat split; try done.
  - apply remove_duplicates_loop_fixed.
  - by apply remove_duplicates_loop_fixed.
Qed.

Lemma remove_duplicates_spec_witness :
  remove_duplicates ["3356"; "174"; "3356"]%string
  = ["3356"; "174"; "3356"]%string.
Proof.
  destruct (remove_duplicates_spec ["3356"; "174"; "3356"]%string)
    as (_ & _ & _ & H & _).
  apply H.
  - done.
  - intros i x y Hx Hy.
    do 3 (destruct i as [|i]; [by simplify_eq/=|]); done.
Defined.

Lemma routing_loop_from_spec seen slice :
  routing_loop_from seen slice = true
  ↔ (∃ x, x ∈ slice ∧ x ∈ seen) ∨ ¬ NoDup slice.
Proof.
  revert seen. induction slice as [|s rest IH]; intros seen; simpl.
  - split; [done|]. intros [(x & Hx & _)|H].
    + by apply elem_of_nil in Hx.
    + destruct H. constructor.
  - case_bool_decide as Hs.
    + split; [|done]. intros _. left. exists s. split; [|done].
      apply list_elem_of_here.
    + rewrite IH. rewrite NoDup_cons. split.
      * intros [(x & Hx & [->%elem_of_singleton|Hseen]%elem_of_union)|Hnd].
        -- right. by intros [? _].
        -- left. exists x. split; [by apply list_elem_of_further|done].
        -- right. by intros [_ ?].
      * intros [(x & [->|Hx]%elem_of_cons & Hseen)|Hnd]; [done| |].
        -- left. exists x. split; [done|]. apply elem_of_union. by right.
        -- destruct (decide (s ∈ rest)) as [Hin|Hnin].
           ++ left. exists s. split; [done|]. apply elem_of_union. left.
              by apply elem_of_singleton.
           ++ right. intros Hr. by apply Hnd.
Qed.

(** X2.  [routing_loop] answers [true] exactly when some AS occurs twice on
    the path: it is [false] on the duplicate-free paths and only on them. *)
Theorem routing_loop_iff_repeated (slice : list string) :
  routing_loop slice = false ↔ NoDup slice.
Proof.
  unfold routing_loop.
  destruct (routing_loop_from ∅ slice) eqn:E.
  - apply routing_loop_from_spec in E as [(x & _ & Hx)|Hnd].
    + by apply not_elem_of_empty in Hx.
    + split; [done|]. intros ?. by destruct Hnd.
  - split; [|done]. intros _.
    destruct (decide (NoDup slice)) as [|Hnd]; [done|].
    assert (routing_loop_from ∅ slice = true) as E'
        by (apply routing_loop_from_spec; by right).
    congruence.
Qed.

Lemma find_index_from_first i slice element j :
  (j < Z.to_nat (find_index_from i slice element - i))%nat →
  slice !! j ≠ Some element.
Proof.
  revert i j. induction slice as [|s rest IH]; intros i j Hj; simpl in *;
    [done|].
  revert Hj. rewrite String_eqb_bool_decide. case_bool_decide as Heq.
  - rewrite Z.sub_diag. simpl. lia.
  - intros Hj. destruct j as [|j]; simpl; [by intros [= ?]|].
    apply (IH (i + 1)). lia.
Qed.

(** X3.  [find_index] returns [-1] exactly when the element is not in the
    slice; otherwise it returns the index of the first occurrence: the
    element is at that index and at no smaller one. *)
Theorem find_index_first_occurrence (slice : list string) (element : string) :
  (find_index slice element = -1 ↔ element ∉ slice)
  ∧ (element ∈ slice →
     0 ≤ find_index slice element < Z.of_nat (length slice)
     ∧ slice !! Z.to_nat (find_index slice element) = Some element
     ∧ ∀ j, (j < Z.to_nat (find_index slice element))%nat →
            slice !! j ≠ Some element).
Proof.
  unfold find_index. split; [apply find_index_from_not_in; lia|].
  intros Hin. repeat split.
  - destruct (find_index_from_range 0 slice element) as [E|E]; [|lia].
    apply find_index_from_not_in in E; [done|lia].
  - destruct (find_index_from_range 0 slice element) as [E|E]; [|lia].
    apply find_index_from_not_in in E; [done|lia].
  - pose proof (find_index_from_lookup 0 slice element ltac:(lia) Hin) as H.
    by rewrite Z.sub_0_r in H.
  - intros j Hj. apply (find_index_from_first 0). by rewrite Z.sub_0_r.
Qed.

Lemma find_index_first_occurrence_witness :
  ["701"; "174"; "701"]%string
    !! Z.to_nat (find_index ["701"; "174"; "701"]%string "174"%string)
  = Some "174"%string.
Proof.
  destruct (find_index_first_occurrence ["701"; "174"; "701"]%string
              "174"%string) as [_ H].
  apply H, list_elem_of_further, list_elem_of_here.
Defined.

Lemma wrap_int_small z : - 2 ^ 63 ≤ z < 2 ^ 63 → wrap_int z = z.
Proof. intros H. unfold wrap_int. rewrite Z.mod_small by lia. lia. Qed.

Lemma wrap_int_mul_l a b : wrap_int (wrap_int a * b) = wrap_int (a * b).
Proof.
  unfold wrap_int. f_equal.
  set (q := (a + 2 ^ 63) / 2 ^ 64).
  replace ((a + 2 ^ 63) mod 2 ^ 64 - 2 ^ 63) with (a - 2 ^ 64 * q)
    by (unfold q; rewrite Z.mod_eq by lia; lia).
  replace ((a - 2 ^ 64 * q) * b + 2 ^ 63)
    with (a * b + 2 ^ 63 + (- q * b) * 2 ^ 64) by ring.
  by rewrite Z.mod_add by lia.
Qed.

Lemma iter_wrap_pow n k :
  wrap_int n = n →
  Nat.iter k (λ result, wrap_int (result * n)) n
  = wrap_int (n ^ (Z.of_nat k + 1)).
Proof.
  intros Hn. induction k as [|k IH].
  - simpl Nat.iter. by rewrite Z.add_0_l, Z.pow_1_r.
  - rewrite Nat.iter_succ, IH, wrap_int_mul_l. f_equal.
    replace (Z.of_nat (S k) + 1) with (Z.succ (Z.of_nat k + 1)) by lia.
    rewrite Z.pow_succ_r by lia. ring.
Qed.

(** X4.  For [int]s [n] and [m], [m] below the largest one, and [m >= 0],
    [IntPow (n, m)] is [n] to the power [m] as 64 bits hold it, wrapped
    around: the power itself where it is an [int] (and 1 for [m = 0]),
    but [IntPow (2, 63)] is the least [int] and [IntPow (2, 64)] is 0.  For
    a negative [m] the loop does not run and the result is [n] itself. *)
Theorem IntPow_power (n m : Z) :
  - 2 ^ 63 ≤ n < 2 ^ 63 → m < 2 ^ 63 - 1 →
  (0 ≤ m → IntPow n m = wrap_int (n ^ m))
  ∧ (0 ≤ m → - 2 ^ 63 ≤ n ^ m < 2 ^ 63 → IntPow n m = n ^ m)
  ∧ (m < 0 → IntPow n m = n).
Proof.
  intros Hn _.
  assert (Hpow : 0 ≤ m → IntPow n m = wrap_int (n ^ m)).
  { intros Hm. unfold IntPow.
    destruct (Z.eqb_spec m 0) as [->|Hne]; [done|].
    rewrite iter_wrap_pow by (by apply wrap_int_small). do 2 f_equal. lia. }
  split; [done|]. split.
  - intros Hm Hr. rewrite Hpow by done. by apply wrap_int_small.
  - intros Hm. unfold IntPow.
    destruct (Z.eqb_spec m 0) as [->|Hne]; [lia|].
    replace (Z.to_nat (m - 1)) with 0%nat by lia. done.
Qed.

Lemma IntPow_power_witness :
  IntPow 2 8 = 256 ∧ IntPow 2 63 = - 2 ^ 63 ∧ IntPow 2 64 = 0
  ∧ IntPow 2 (-3) = 2.
Proof.
  assert (H2 : - 2 ^ 63 ≤ 2 < 2 ^ 63) by lia.
  split; [|split; [|split]].
  - rewrite (proj1 (IntPow_power 2 8 H2 ltac:(lia))) by lia. reflexivity.
  - rewrite (proj1 (IntPow_power 2 63 H2 ltac:(lia))) by lia. reflexivity.
  - rewrite (proj1 (IntPow_power 2 64 H2 ltac:(lia))) by lia. reflexivity.
  - apply (IntPow_power 2 (-3) H2); lia.
Defined.

(** [p] is a prefix of [s]. *)
Definition is_prefix_of (p s : string) : Prop := ∃ t, s = p +:+ t.

(** Every byte of the string is ASCII: [string (b)] of a byte [b] is then
    that one byte (above 127 Go encodes the code point in two bytes). *)
Definition is_ascii (s : string) : bool :=
  forallb (λ c, (nat_of_ascii c <? 128)%nat) (list_ascii_of_string s).

Lemma is_prefix_of_get p s :
  is_prefix_of p s ↔ ∀ k ch, String.get k p = Some ch → String.get k s = Some ch.
Proof.
  revert s. induction p as [|c p IH]; intros s.
  - split; [by intros _ []|]. intros _. exists s. by rewrite app_nil_l.
  - split.
    + intros [t ->] k ch. rewrite app_cons. destruct k as [|k]; [done|].
      simpl. apply IH. by exists t.
    + intros H. destruct s as [|c' s].
      * by specialize (H 0%nat c eq_refl).
      * pose proof (H 0%nat c eq_refl) as [= ->].
        destruct (proj2 (IH s)) as [t ->].
        -- intros k ch Hk. by apply (H (S k)).
        -- exists t. by rewrite app_cons.
Qed.

Lemma common_with_todo index todo others :
  is_prefix_of (common_with index todo others) todo.
Proof.
  revert index. induction todo as [|c todo IH]; intros index; simpl.
  - exists ""%string. by rewrite app_nil_l.
  - destruct (forallb _ others).
    + destruct (IH (S index)) as [t Ht]. exists t.
      by rewrite app_cons, <- Ht.
    + exists (String c todo). by rewrite app_nil_l.
Qed.

Lemma common_with_others index todo others s k ch :
  s ∈ others →
  String.get k (common_with index todo others) = Some ch →
  String.get (index + k) s = Some ch.
Proof.
  intros Hs. revert index k. induction todo as [|c todo IH]; intros index k;
    simpl; [done|].
  destruct (forallb _ others) eqn:E; [|done].
  destruct k as [|k]; simpl.
  - intros [= <-]. rewrite forallb_forall in E.
    rewrite Nat.add_0_r.
    specialize (E s ltac:(by apply list_elem_of_In)).
    by apply bool_decide_eq_true in E.
  - intros Hk. apply IH in Hk. by rewrite Nat.add_succ_r.
Qed.

Lemma common_with_maximal p index todo others :
  is_prefix_of p todo →
  (∀ s k ch, s ∈ others → String.get k p = Some ch →
             String.get (index + k) s = Some ch) →
  is_prefix_of p (common_with index todo others).
Proof.
  revert index todo. induction p as [|c p IH]; intros index todo Hp Ho.
  - eexists. by rewrite app_nil_l.
  - destruct Hp as [t ->]. rewrite app_cons. simpl.
    replace (forallb _ others) with true.
    + destruct (IH (S index) (p +:+ t)) as [u Hu].
      * by exists t.
      * intros s k ch Hs Hk.
        replace (S index + k)%nat with (index + S k)%nat by lia.
        by apply Ho.
      * exists u. by rewrite app_cons, <- Hu.
    + symmetry. apply forallb_forall. intros s Hs%list_elem_of_In.
      apply bool_decide_eq_true_2.
      rewrite <- (Nat.add_0_r index). by apply Ho.
Qed.

Lemma insert_by_len_perm x l : insert_by_len x l ≡ₚ x :: l.
Proof.
  induction l as [|y r IH]; simpl; [done|].
  destruct (_ <=? _)%nat; [|done]. by rewrite IH, Permutation_swap.
Qed.

Lemma sort_ByLen_perm l : sort_ByLen l ≡ₚ l.
Proof.
  unfold sort_ByLen. transitivity (rev l); [|by rewrite <- Permutation_rev].
  induction (rev l) as [|x r IH]; simpl; [done|].
  by rewrite insert_by_len_perm, IH.
Qed.

Definition shorter_eq (a b : string) : Prop :=
  (String.length a ≤ String.length b)%nat.

Lemma insert_by_len_sorted x l :
  StronglySorted shorter_eq l → StronglySorted shorter_eq (insert_by_len x l).
Proof.
  induction 1 as [|y r Hr IH Hy]; simpl.
  - by repeat constructor.
  - destruct (Nat.leb_spec (String.length y) (String.length x)) as [Hle|Hlt].
    + constructor; [done|]. rewrite insert_by_len_perm. by constructor.
    + constructor; [by constructor|]. constructor; [unfold shorter_eq; lia|].
      eapply Forall_impl; [exact Hy|]. unfold shorter_eq. intros; simpl in *; lia.
Qed.

Lemma sort_ByLen_sorted l : StronglySorted shorter_eq (sort_ByLen l).
Proof.
  unfold sort_ByLen. induction (rev l) as [|x r IH]; simpl; [constructor|].
  by apply insert_by_len_sorted.
Qed.

(** X5.  [longestCommonPrefix] sorts the slice by length (in place: the
    caller sees a permutation sorted by length) and returns the longest
    common prefix: the result is a prefix of every string of the slice, and
    every common prefix of a non-empty slice is a prefix of the result.
    The result therefore does not depend on which of the shortest strings
    the sort puts first.  An empty slice gives the empty string.  Stated
    for ASCII strings, on which [lc += string (smallest[index])] appends
    one byte. *)
Theorem longestCommonPrefix_spec (prefixes : list string) :
  Forall (λ s, is_ascii s = true) prefixes →
  (longestCommonPrefix prefixes).2 ≡ₚ prefixes
  ∧ StronglySorted shorter_eq (longestCommonPrefix prefixes).2
  ∧ (∀ s, s ∈ prefixes → is_prefix_of (longestCommonPrefix prefixes).1 s)
  ∧ (prefixes ≠ [] → ∀ p, (∀ s, s ∈ prefixes → is_prefix_of p s) →
       is_prefix_of p (longestCommonPrefix prefixes).1)
  ∧ (prefixes = [] → (longestCommonPrefix prefixes).1 = ""%string).
Proof.
  intros _. unfold longestCommonPrefix.
  pose proof (sort_ByLen_perm prefixes) as Hperm.
  pose proof (sort_ByLen_sorted prefixes) as Hsort.
  destruct (sort_ByLen prefixes) as [|smallest rest] eqn:E; simpl.
  - apply Permutation_nil_l in Hperm. subst prefixes.
    repeat split; try done. by intros s ?%elem_of_nil.
  - repeat split; try done.
    + intros s Hs. rewrite <- Hperm in Hs.
      apply elem_of_cons in Hs as [->|Hs]; [apply common_with_todo|].
      apply is_prefix_of_get. intros k ch Hk.
      by apply (common_with_others 0 smallest rest).
    + intros _ p Hp. apply common_with_maximal.
      * apply Hp. rewrite <- Hperm. apply list_elem_of_here.
      * intros s k ch Hs Hk. simpl.
        apply (proj1 (is_prefix_of_get p s)); [|done].
        apply Hp. rewrite <- Hperm. by apply list_elem_of_further.
    + intros ->. by apply Permutation_nil_r in Hperm.
Qed.

Lemma longestCommonPrefix_spec_witness :
  (longestCommonPrefix ["0101"; "01"; "0110"]%string).2
    ≡ₚ ["0101"; "01"; "0110"]%string
  ∧ is_prefix_of (longestCommonPrefix ["0101"; "01"; "0110"]%string).1
      "0110"%string.
Proof.
  destruct (longestCommonPrefix_spec ["0101"; "01"; "0110"]%string)
    as (H1 & _ & H3 & _).
  - repeat constructor.
  - split; [exact H1|]. apply H3. do 2 apply list_elem_of_further.
    apply list_elem_of_here.
Defined.

(** ** ip_addresses.go *)

(** The four values are bytes. *)
Definition bytes_ok (ip : Z * Z * Z * Z) : Prop :=
  let '(a, b, c, d) := ip in
  0 ≤ a < 256 ∧ 0 ≤ b < 256 ∧ 0 ≤ c < 256 ∧ 0 ≤ d < 256.

Lemma testbit_above x n k :
  0 ≤ x < 2 ^ n → n ≤ k → Z.testbit x k = false.
Proof.
  intros Hx Hk. destruct (decide (x = 0)) as [->|Hne]; [apply Z.bits_0|].
  assert (0 ≤ n) by (destruct (Z.le_gt_cases 0 n); [done|];
                     rewrite Z.pow_neg_r in Hx; lia).
  apply Z.bits_above_log2; [lia|].
  assert (Z.log2 x < n) by (apply Z.log2_lt_pow2; lia). lia.
Qed.

Lemma byte_bits_high x k : 0 ≤ x < 256 → 8 ≤ k → Z.testbit x k = false.
Proof. intros. by apply (testbit_above x 8). Qed.

Lemma testbit_255 k : Z.testbit 255 k = bool_decide (0 ≤ k < 8).
Proof.
  destruct (Z.lt_ge_cases k 0) as [Hk|Hk].
  - rewrite Z.testbit_neg_r by done. by rewrite bool_decide_eq_false_2 by lia.
  - change 255 with (Z.ones 8). rewrite Z.testbit_ones_nonneg by lia.
    case_bool_decide; lia.
Qed.

Lemma testbit_byte_of x s k :
  0 ≤ s →
  Z.testbit (Z.land (Z.shiftr x s) 255) k
  = bool_decide (0 ≤ k < 8) && Z.testbit x (k + s).
Proof.
  intros Hs. rewrite Z.land_spec, testbit_255.
  case_bool_decide; [|by rewrite andb_false_r].
  rewrite Z.shiftr_spec by lia. by rewrite andb_true_r.
Qed.

Lemma ip_to_uint32_range ip :
  bytes_ok ip → 0 ≤ ip_to_uint32 ip < 2 ^ 32.
Proof.
  destruct ip as [[[a b] c] d]. intros (Ha & Hb & Hc & Hd).
  unfold ip_to_uint32. rewrite !Z.shiftl_mul_pow2 by lia.
  assert (E : ∀ x y k, 0 ≤ x → 0 ≤ y < 2 ^ k → 0 ≤ k →
                Z.lor (x * 2 ^ k) y = x * 2 ^ k + y).
  { intros x y k Hx Hy Hk. rewrite <- Z.lxor_lor.
    - symmetry. apply Z.add_nocarry_lxor.
      apply Z.bits_inj'. intros m Hm. rewrite Z.land_spec, Z.bits_0.
      destruct (Z.lt_ge_cases m k).
      + rewrite Z.mul_pow2_bits_low by lia. done.
      + rewrite (testbit_above y k) by lia. by rewrite andb_false_r.
    - apply Z.bits_inj'. intros m Hm. rewrite Z.land_spec, Z.bits_0.
      destruct (Z.lt_ge_cases m k).
      + rewrite Z.mul_pow2_bits_low by lia. done.
      + rewrite (testbit_above y k) by lia. by rewrite andb_false_r. }
  rewrite (E c d 8) by lia.
  rewrite (E b _ 16) by lia.
  rewrite (E a _ 24) by lia. lia.
Qed.

Lemma uint32_to_ip_bytes x : bytes_ok (uint32_to_ip x).
Proof.
  unfold uint32_to_ip, bytes_ok. change 255 with (Z.ones 8).
  rewrite !Z.land_ones by lia.
  pose proof (Z.mod_pos_bound (Z.shiftr x 24) (2 ^ 8)).
  pose proof (Z.mod_pos_bound (Z.shiftr x 16) (2 ^ 8)).
  pose proof (Z.mod_pos_bound (Z.shiftr x 8) (2 ^ 8)).
  pose proof (Z.mod_pos_bound x (2 ^ 8)). lia.
Qed.

Lemma ip_to_uint32_to_ip ip : bytes_ok ip → uint32_to_ip (ip_to_uint32 ip) = ip.
Proof.
  destruct ip as [[[a b] c] d]. intros (Ha & Hb & Hc & Hd).
  unfold uint32_to_ip. rewrite <- (Z.shiftr_0_r (ip_to_uint32 (a, b, c, d))) at 4.
  repeat f_equal; apply Z.bits_inj'; intros n Hn;
    rewrite testbit_byte_of, testbit_ip_to_uint32 by lia;
    (case_bool_decide as Hlt; simpl;
     [|symmetry; apply byte_bits_high; lia]).
  - replace (n + 24 - 24) with n by lia.
    rewrite (byte_bits_high b), (byte_bits_high c), (byte_bits_high d) by lia.
    by rewrite !orb_false_r.
  - replace (n + 16 - 16) with n by lia.
    rewrite (Z.testbit_neg_r a), (byte_bits_high c), (byte_bits_high d) by lia.
    by rewrite !orb_false_r.
  - replace (n + 8 - 8) with n by lia.
    rewrite (Z.testbit_neg_r a), (Z.testbit_neg_r b), (byte_bits_high d) by lia.
    by rewrite !orb_false_r.
  - rewrite Z.add_0_r.
    rewrite (Z.testbit_neg_r a), (Z.testbit_neg_r b), (Z.testbit_neg_r c) by lia.
    done.
Qed.

Lemma uint32_to_ip_to_uint32 x :
  0 ≤ x < 2 ^ 32 → ip_to_uint32 (uint32_to_ip x) = x.
Proof.
  intros Hx. apply Z.bits_inj'. intros m Hm. unfold uint32_to_ip.
  rewrite testbit_ip_to_uint32 by done.
  rewrite <- (Z.shiftr_0_r x) at 4. rewrite !testbit_byte_of by lia.
  replace (m - 24 + 24) with m by lia. replace (m - 16 + 16) with m by lia.
  replace (m - 8 + 8) with m by lia. rewrite Z.add_0_r.
  destruct (Z.testbit x m) eqn:E; [|by rewrite !andb_false_r].
  rewrite !andb_true_r.
  assert (m < 32).
  { destruct (Z.lt_ge_cases m 32); [done|].
    rewrite (testbit_above x 32) in E by lia. done. }
  repeat case_bool_decide; try done; lia.
Qed.

(** X6.  [uint32_to_ip] and [ip_to_uint32] are inverse to each other: the
    four bytes of an address survive the passage through the 32-bit value,
    and every 32-bit value survives the passage through the four bytes. *)
Theorem uint32_ip_roundtrip (ip : Z * Z * Z * Z) (x : Z) :
  (bytes_ok ip → uint32_to_ip (ip_to_uint32 ip) = ip
                 ∧ 0 ≤ ip_to_uint32 ip < 2 ^ 32)
  ∧ (0 ≤ x < 2 ^ 32 → ip_to_uint32 (uint32_to_ip x) = x
                      ∧ bytes_ok (uint32_to_ip x)).
Proof.
  split.
  - intros H. split; [by apply ip_to_uint32_to_ip|by apply ip_to_uint32_range].
  - intros H. split; [by apply uint32_to_ip_to_uint32|apply uint32_to_ip_bytes].
Qed.

Lemma uint32_ip_roundtrip_witness :
  uint32_to_ip (ip_to_uint32 (192, 168, 1, 77)) = (192, 168, 1, 77)
  ∧ ip_to_uint32 (uint32_to_ip 3232235853) = 3232235853.
Proof.
  split.
  - apply (proj1 (uint32_ip_roundtrip (192, 168, 1, 77) 0)).
    unfold bytes_ok. lia.
  - apply (proj2 (uint32_ip_roundtrip (0, 0, 0, 0) 3232235853)). lia.
Defined.

Lemma lor_low_bits base y k :
  0 ≤ k → Z.land base (Z.ones k) = 0 → 0 ≤ y < 2 ^ k →
  Z.lor base y = base + y.
Proof.
  intros Hk Hbase Hy.
  assert (Hdisj : Z.land base y = 0).
  { apply Z.bits_inj'. intros m Hm. rewrite Z.land_spec, Z.bits_0.
    destruct (Z.lt_ge_cases m k).
    - pose proof (f_equal (λ z, Z.testbit z m) Hbase) as H'. simpl in H'.
      rewrite Z.land_spec, Z.ones_spec_low, Z.bits_0, andb_true_r in H' by lia.
      by rewrite H'.
    - rewrite (testbit_above y k) by lia. by rewrite andb_false_r. }
  rewrite <- Z.lxor_lor by done. symmetry. by apply Z.add_nocarry_lxor.
Qed.

Lemma aligned_block_bound base y k :
  0 ≤ k ≤ 32 → 0 ≤ base < 2 ^ 32 → Z.land base (Z.ones k) = 0 →
  0 ≤ y < 2 ^ k → 0 ≤ base + y < 2 ^ 32.
Proof.
  intros Hk Hbase Hal Hy. rewrite Z.land_ones in Hal by lia.
  apply Z.div_exact in Hal; [|lia].
  assert (E : 2 ^ 32 = 2 ^ k * 2 ^ (32 - k))
    by (rewrite <- Z.pow_add_r by lia; f_equal; lia).
  assert (0 < 2 ^ k) by (apply Z.pow_pos_nonneg; lia).
  assert (0 < 2 ^ (32 - k)) by (apply Z.pow_pos_nonneg; lia).
  set (q := base / 2 ^ k) in *.
  assert (q < 2 ^ (32 - k)) by nia. nia.
Qed.

(** X7.  [get_subnets] cuts a prefix of length [l], whose host bits are
    zero, into the [2 ^ (mask_length - l)] prefixes of length
    [mask_length > l] that tile it: the [i]-th has the address
    [base + i * 2 ^ (32 - mask_length)] and the mask [mask_length], so the
    subnets are distinct, in increasing order, and stay inside the
    prefix. *)
Theorem get_subnets_tiles (subnet : IPNet) (mask_length : Z) (i : nat) :
  bytes_ok (IP subnet) →
  0 ≤ Mask subnet < mask_length → mask_length ≤ 32 →
  Z.land (ip_to_uint32 (IP subnet)) (Z.ones (32 - Mask subnet)) = 0 →
  Z.of_nat i < 2 ^ (mask_length - Mask subnet) →
  Z.of_nat (length (get_subnets subnet mask_length))
  = 2 ^ (mask_length - Mask subnet)
  ∧ ∃ sub, get_subnets subnet mask_length !! i = Some sub
      ∧ Mask sub = mask_length
      ∧ ip_to_uint32 (IP sub)
        = ip_to_uint32 (IP subnet) + Z.of_nat i * 2 ^ (32 - mask_length)
      ∧ ip_to_uint32 (IP sub) + 2 ^ (32 - mask_length)
        ≤ ip_to_uint32 (IP subnet) + 2 ^ (32 - Mask subnet).
Proof.
  intros Hbytes Hl Hm Hal Hi. unfold get_subnets.
  destruct (Z.leb_spec (mask_length - Mask subnet) 0) as [?|_]; [lia|].
  cbv zeta. unfold IPv4PrefixLen.
  rewrite Z.shiftl_1_l. rewrite length_map, length_seq.
  assert (0 < 2 ^ (mask_length - Mask subnet)) by (apply Z.pow_pos_nonneg; lia).
  split; [lia|].
  rewrite list_lookup_fmap, lookup_seq_lt by lia.
  eexists. split; [reflexivity|]. cbn [IP Mask Nat.add]. split; [done|].
  set (h := 32 - mask_length).
  assert (0 < 2 ^ h) by (apply Z.pow_pos_nonneg; lia).
  assert (E : 2 ^ (32 - Mask subnet) = 2 ^ (mask_length - Mask subnet) * 2 ^ h).
  { rewrite <- Z.pow_add_r by lia. f_equal. lia. }
  assert (Hy : 0 ≤ Z.of_nat i * 2 ^ h < 2 ^ (32 - Mask subnet)) by nia.
  assert (2 ^ (32 - Mask subnet) ≤ 2 ^ 32) by (apply Z.pow_le_mono_r; lia).
  rewrite Z.shiftl_mul_pow2 by lia.
  unfold uint32. rewrite Z.land_ones, Z.mod_small by lia.
  rewrite (lor_low_bits _ _ (32 - Mask subnet)) by (done || lia).
  rewrite uint32_to_ip_to_uint32.
  - split; [done|]. nia.
  - apply (aligned_block_bound _ _ (32 - Mask subnet)); try done; [lia|].
    by apply ip_to_uint32_range.
Qed.

Lemma get_subnets_tiles_witness :
  ∃ sub, get_subnets {| IP := (10, 0, 0, 0); Mask := 22 |} 24 !! 3%nat
         = Some sub
    ∧ ip_to_uint32 (IP sub) = ip_to_uint32 (10, 0, 0, 0) + 3 * 2 ^ 8.
Proof.
  destruct (get_subnets_tiles {| IP := (10, 0, 0, 0); Mask := 22 |} 24 3)
    as (_ & sub & H1 & _ & H2 & _).
  - unfold bytes_ok. simpl. lia.
  - simpl. lia.
  - lia.
  - reflexivity.
  - simpl. lia.
  - exists sub. split; [exact H1|exact H2].
Defined.

(** X8.  [get_random_ip] draws one number and returns an address strictly
    between the network address and the broadcast address of a prefix of
    length at most 30 whose host bits are zero; on a /31 and on a /32 no
    such address exists and [rand.Intn] panics on its non-positive
    argument. *)
Theorem get_random_ip_routable (subnet : IPNet) (g : rng) :
  bytes_ok (IP subnet) → 0 ≤ Mask subnet ≤ 32 →
  Z.land (ip_to_uint32 (IP subnet)) (Z.ones (32 - Mask subnet)) = 0 →
  (Mask subnet ≤ 30 →
   ∃ ip, get_random_ip subnet g = Some (ip, λ i, g (S i))
     ∧ bytes_ok ip
     ∧ ip_to_uint32 (IP subnet) < ip_to_uint32 ip
       < ip_to_uint32 (IP subnet) + 2 ^ (32 - Mask subnet) - 1)
  ∧ (31 ≤ Mask subnet → get_random_ip subnet g = None).
Proof.
  intros Hbytes Hl Hal. unfold get_random_ip, IPv4PrefixLen.
  cbv zeta. rewrite Z.shiftl_1_l. unfold mbind, M_bind, Intn.
  set (h := 32 - Mask subnet) in *.
  split; intros Hm.
  - assert (4 ≤ 2 ^ h) by (change 4 with (2 ^ 2); apply Z.pow_le_mono_r; lia).
    destruct (Z.leb_spec (2 ^ h - 2 - 1 + 1) 0) as [?|_]; [lia|].
    eexists. split; [reflexivity|].
    split; [apply uint32_to_ip_bytes|].
    pose proof (Z.mod_pos_bound (g 0%nat) (2 ^ h - 2 - 1 + 1) ltac:(lia)) as Hn.
    set (n := g 0%nat mod (2 ^ h - 2 - 1 + 1)) in *.
    assert (2 ^ h ≤ 2 ^ 32) by (apply Z.pow_le_mono_r; lia).
    unfold uint32. rewrite Z.land_ones, Z.mod_small by lia.
    rewrite (lor_low_bits _ _ h) by (done || lia).
    rewrite uint32_to_ip_to_uint32; [lia|].
    apply (aligned_block_bound _ _ h); try done; [lia| |lia].
    by apply ip_to_uint32_range.
  - assert (2 ^ h ≤ 2).
    { change 2 with (2 ^ 1) at 2. apply Z.pow_le_mono_r; lia. }
    destruct (Z.leb_spec (2 ^ h - 2 - 1 + 1) 0) as [_|?]; [done|lia].
Qed.

Lemma get_random_ip_routable_witness :
  (∃ ip, get_random_ip {| IP := (10, 0, 0, 0); Mask := 22 |} (λ _, 7)
         = Some (ip, λ i, 7)
     ∧ ip_to_uint32 (10, 0, 0, 0) < ip_to_uint32 ip)
  ∧ get_random_ip {| IP := (10, 0, 0, 0); Mask := 31 |} (λ _, 7) = None.
Proof.
  destruct (get_random_ip_routable {| IP := (10, 0, 0, 0); Mask := 22 |}
              (λ _, 7)) as [H _].
  { unfold bytes_ok. simpl. lia. }
  { simpl. lia. }
  { reflexivity. }
  destruct (get_random_ip_routable {| IP := (10, 0, 0, 0); Mask := 31 |}
              (λ _, 7)) as [_ H'].
  { unfold bytes_ok. simpl. lia. }
  { simpl. lia. }
  { reflexivity. }
  split.
  - destruct H as (ip & H1 & _ & H2 & _); [simpl; lia|].
    exists ip. split; [exact H1|exact H2].
  - apply H'. simpl. lia.
Defined.

Lemma substring_app_r x y k n :
  substring (String.length x + k) n (x +:+ y) = substring k n y.
Proof. induction x as [|c x IH]; [done|]. rewrite app_cons. simpl. exact IH. Qed.

Lemma HasSuffix_app x y suffix :
  (String.length suffix ≤ String.length y)%nat →
  HasSuffix (x +:+ y) suffix = HasSuffix y suffix.
Proof.
  intros Hlen. unfold HasSuffix. rewrite string_length_app.
  replace (String.length x + String.length y - String.length suffix)%nat
    with (String.length x + (String.length y - String.length suffix))%nat by lia.
  rewrite substring_app_r.
  destruct (Nat.leb_spec (String.length suffix) (String.length y)); [|lia].
  destruct (Nat.leb_spec (String.length suffix)
              (String.length x + String.length y)); [done|lia].
Qed.

(** X9.  A probe that ends in [/24] goes through [_get_24_prefix] unchanged
    and without a random draw; whatever the probe, a result ends in [/24],
    so that a second pass returns it as it is. *)
Theorem _get_24_prefix_idempotent (probe : string) (g : rng) :
  (HasSuffix probe "/24" = true → _get_24_prefix probe g = Some (probe, g))
  ∧ (∀ r g', _get_24_prefix probe g = Some (r, g') →
       HasSuffix r "/24" = true
       ∧ ∀ g2, _get_24_prefix r g2 = Some (r, g2)).
Proof.
  assert (Hpass : ∀ p g0, HasSuffix p "/24" = true →
                          _get_24_prefix p g0 = Some (p, g0)).
  { intros p g0 Hp. unfold _get_24_prefix. by rewrite Hp. }
  split; [apply Hpass|].
  intros r g' Hr.
  assert (Hs : HasSuffix r "/24" = true); [|by split; [|intros; apply Hpass]].
  unfold _get_24_prefix in Hr. destruct (HasSuffix probe "/24") eqn:E.
  - by injection Hr as <- <-.
  - apply M_bind_Some in Hr as ([ip network] & g1 & _ & Hr).
    apply M_bind_Some in Hr as (ip' & g2 & _ & Hr).
    apply M_ret_Some in Hr. injection Hr as -> ->.
    rewrite HasSuffix_app; [reflexivity|simpl; lia].
Qed.

Lemma _get_24_prefix_idempotent_witness :
  _get_24_prefix "10.1.2.0/24" (λ _, 5) = Some ("10.1.2.0/24"%string, λ _, 5).
Proof.
  apply (proj1 (_get_24_prefix_idempotent "10.1.2.0/24" (λ _, 5))).
  reflexivity.
Defined.

Lemma ip_to_uint32_arith a b c d :
  bytes_ok (a, b, c, d) →
  ip_to_uint32 (a, b, c, d) = a * 2 ^ 24 + b * 2 ^ 16 + c * 2 ^ 8 + d.
Proof.
  intros (Ha & Hb & Hc & Hd).
  unfold ip_to_uint32. rewrite !Z.shiftl_mul_pow2 by lia.
  assert (E : ∀ x y k, 0 ≤ y < 2 ^ k → 0 ≤ k →
                Z.lor (x * 2 ^ k) y = x * 2 ^ k + y).
  { intros x y k Hy Hk. apply (lor_low_bits _ _ k); [done| |done].
    rewrite Z.land_ones by done. apply Z.mod_mul.
    apply Z.pow_nonzero; lia. }
  rewrite (E c d 8), (E b _ 16), (E a _ 24) by lia. lia.
Qed.

Definition mask_tail_ok (l : nat) : bool :=
  option_Z_eqb (parse_mask_length (Itoa (Z.of_nat l))) (Z.of_nat l)
  && forallb (λ d : nat,
        Bool.eqb (HasSuffix (Itoa (Z.of_nat d) +:+ "/" +:+ Itoa (Z.of_nat l))
                            "/24")
                 (Z.of_nat l =? 24)
        && (3 <=? String.length
                    (Itoa (Z.of_nat d) +:+ "/" +:+ Itoa (Z.of_nat l)))%nat)
       (seq 0 256).

Lemma mask_tails_ok : forallb mask_tail_ok (seq 0 33) = true.
Proof. vm_compute. reflexivity. Qed.

Lemma mask_tail_facts d l :
  0 ≤ d < 256 → 0 ≤ l ≤ 32 →
  parse_mask_length (Itoa l) = Some l
  ∧ HasSuffix (Itoa d +:+ "/" +:+ Itoa l) "/24" = (l =? 24)
  ∧ (3 ≤ String.length (Itoa d +:+ "/" +:+ Itoa l))%nat.
Proof.
  intros Hd Hl.
  assert (Hin : In (Z.to_nat l) (seq 0 33)) by (apply in_seq; lia).
  pose proof (proj1 (forallb_forall _ _) mask_tails_ok _ Hin) as Hok.
  unfold mask_tail_ok in Hok. rewrite Z2Nat.id in Hok by lia.
  apply andb_prop in Hok as [H1 H2].
  assert (Hin' : In (Z.to_nat d) (seq 0 256)) by (apply in_seq; lia).
  pose proof (proj1 (forallb_forall _ _) H2 _ Hin') as H3. simpl in H3.
  rewrite Z2Nat.id in H3 by lia.
  apply andb_prop in H3 as [H3 H4].
  repeat split.
  - by apply option_Z_eqb_eq.
  - by apply Bool.eqb_prop.
  - by apply Nat.leb_le.
Qed.

Lemma land_CIDRMask x l :
  0 ≤ l ≤ 32 → 0 ≤ x < 2 ^ 32 → Z.land x (Z.ones (32 - l)) = 0 →
  Z.land x (CIDRMask l) = x.
Proof.
  intros Hl Hx Hal. unfold CIDRMask. apply Z.bits_inj'. intros m Hm.
  rewrite Z.land_spec, Z.shiftl_spec by done.
  destruct (Z.lt_ge_cases m (32 - l)).
  - pose proof (f_equal (λ z, Z.testbit z m) Hal) as H'. simpl in H'.
    rewrite Z.land_spec, Z.ones_spec_low, Z.bits_0, andb_true_r in H' by lia.
    by rewrite H'.
  - destruct (Z.lt_ge_cases m 32).
    + rewrite Z.ones_spec_low by lia. by rewrite andb_true_r.
    + rewrite (testbit_above x 32) by lia. done.
Qed.

Lemma ParseCIDR_IPNet_String a b c d l :
  bytes_ok (a, b, c, d) → 0 ≤ l ≤ 32 →
  Z.land (ip_to_uint32 (a, b, c, d)) (Z.ones (32 - l)) = 0 →
  ParseCIDR (IPNet_String {| IP := (a, b, c, d); Mask := l |})
  = Some ((a, b, c, d), {| IP := (a, b, c, d); Mask := l |}).
Proof.
  intros Hb Hl Hal. pose proof Hb as (Ha' & Hb' & Hc' & Hd').
  unfold ParseCIDR.
  rewrite IPNet_String_split, ParseIP_IP_String by (done || lia).
  destruct (mask_tail_facts d l Hd' Hl) as (-> & _).
  destruct (Z.leb_spec l 32); [|lia].
  unfold IP_Mask. rewrite land_CIDRMask; [|done|by apply ip_to_uint32_range|done].
  by rewrite ip_to_uint32_to_ip.
Qed.

(** X10.  On a probe [a.b.c.d/l] shorter than a /24 (host bits zero),
    [_get_24_prefix] draws one number and returns a /24 prefix
    [a'.b'.c'.0/24] that lies inside the probe's prefix. *)
Theorem _get_24_prefix_inside (a b c d l : Z) (g : rng) :
  bytes_ok (a, b, c, d) → 0 ≤ l ≤ 23 →
  Z.land (ip_to_uint32 (a, b, c, d)) (Z.ones (32 - l)) = 0 →
  ∃ a' b' c',
    _get_24_prefix (IPNet_String {| IP := (a, b, c, d); Mask := l |}) g
    = Some (IPNet_String {| IP := (a', b', c', 0); Mask := 24 |},
            λ i, g (S i))
    ∧ bytes_ok (a', b', c', 0)
    ∧ ip_to_uint32 (a, b, c, d) ≤ ip_to_uint32 (a', b', c', 0)
    ∧ ip_to_uint32 (a', b', c', 0) + 2 ^ 8
      ≤ ip_to_uint32 (a, b, c, d) + 2 ^ (32 - l).
Proof.
  intros Hb Hl Hal. pose proof Hb as (Ha' & Hb' & Hc' & Hd').
  destruct (get_random_ip_routable {| IP := (a, b, c, d); Mask := l |} g)
    as [Hrand _]; [done|simpl; lia|done|].
  destruct Hrand as ([[[a' b'] c'] d'] & Hrand & Hb2 & Hlo & Hhi);
    [simpl; lia|]. cbn [IP Mask] in Hlo, Hhi.
  exists a', b', c'. pose proof Hb2 as (Ha2 & Hb2' & Hc2 & Hd2).
  assert (Hb3 : bytes_ok (a', b', c', 0)) by (unfold bytes_ok; lia).
  split; [|split; [done|]].
  - unfold _get_24_prefix.
    assert (Hsuf : HasSuffix (IPNet_String {| IP := (a, b, c, d); Mask := l |})
                     "/24" = false).
    { unfold IPNet_String, IP_String. simpl IP. simpl Mask.
      destruct (mask_tail_facts d l) as (_ & Hs & Hlen); [done|lia|].
      rewrite !app_assoc_s.
      pose proof Hlen as Hlen'. rewrite !string_length_app in Hlen'.
      do 6 (rewrite HasSuffix_app
              by (rewrite !string_length_app; simpl String.length in *; lia)).
      rewrite Hs. apply Z.eqb_neq. lia. }
    rewrite Hsuf, ParseCIDR_IPNet_String by (done || lia).
    unfold mbind, M_bind. simpl lift. unfold mret at 1, M_ret at 1.
    rewrite Hrand. unfold mret, M_ret. do 2 f_equal.
    destruct (octet_facts a' Ha2) as (Sa & _), (octet_facts b' Hb2') as (Sb & _),
      (octet_facts c' Hc2) as (Sc & _), (octet_facts d' Hd2) as (Sd & _).
    unfold IP_String at 1.
    rewrite !app_char, !Split_app, Split_no_char by done.
    unfold IPNet_String, IP_String. simpl IP. simpl Mask. simpl take.
    unfold Join. simpl String.concat.
    change (Itoa 0) with "0"%string. change (Itoa 24) with "24"%string.
    by rewrite !app_assoc_s.
  - rewrite (ip_to_uint32_arith a' b' c' 0) by done.
    rewrite (ip_to_uint32_arith a' b' c' d') in Hlo, Hhi by done.
    assert (E : 2 ^ (32 - l) = 2 ^ (24 - l) * 2 ^ 8).
    { rewrite <- Z.pow_add_r by lia. f_equal. lia. }
    assert (0 < 2 ^ (24 - l)) by (apply Z.pow_pos_nonneg; lia).
    rewrite Z.land_ones in Hal by lia. apply Z.div_exact in Hal; [|lia].
    set (q := ip_to_uint32 (a, b, c, d) / 2 ^ (32 - l)) in *.
    rewrite E in *.
    set (P := 2 ^ (24 - l)) in *.
    set (base := ip_to_uint32 (a, b, c, d)) in *.
    change (2 ^ 8) with 256 in *. change (2 ^ 16) with 65536 in *.
    change (2 ^ 24) with 16777216 in *.
    assert (base = 256 * (P * q)) by lia.
    lia.
Qed.

Lemma _get_24_prefix_inside_witness :
  ∃ a' b' c',
    _get_24_prefix (IPNet_String {| IP := (10, 4, 0, 0); Mask := 16 |})
                   (λ _, 1000)
    = Some (IPNet_String {| IP := (a', b', c', 0); Mask := 24 |}, λ i, 1000)
    ∧ ip_to_uint32 (10, 4, 0, 0) ≤ ip_to_uint32 (a', b', c', 0).
Proof.
  destruct (_get_24_prefix_inside 10 4 0 0 16 (λ _, 1000))
    as (a' & b' & c' & H1 & _ & H2 & _).
  - unfold bytes_ok. lia.
  - lia.
  - reflexivity.
  - exists a', b', c'. split; [exact H1|exact H2].
Defined.

Lemma parse_bits_nonneg s acc n : 0 ≤ acc → parse_bits s acc = Some n → 0 ≤ n.
Proof.
  revert acc. induction s as [|ch r IH]; intros acc Hacc; simpl.
  - by intros [= <-].
  - destruct ch as [[] [] [] [] [] [] [] []]; try done; apply IH; lia.
Qed.

Lemma ParseUint_2_8_byte s : 0 ≤ default 0 (ParseUint_2_8 s) < 256.
Proof.
  unfold ParseUint_2_8. destruct s as [|ch r]; [simpl; lia|].
  destruct (parse_bits (String ch r) 0) as [n|] eqn:E; [|simpl; lia].
  apply parse_bits_nonneg in E; [|lia].
  destruct (Z.leb_spec n 255); simpl; lia.
Qed.

Lemma length_zeros n :
  String.length (string_of_list_ascii (replicate n "0"%char)) = n.
Proof. induction n as [|n IH]; simpl; [done|]. by rewrite IH. Qed.

Lemma slice_Some s lo hi :
  0 ≤ lo ≤ hi → hi ≤ Z.of_nat (String.length s) →
  slice s lo hi = Some (substring (Z.to_nat lo) (Z.to_nat (hi - lo)) s).
Proof.
  intros H1 H2. unfold slice.
  destruct (Z.leb_spec 0 lo); [|lia]. destruct (Z.leb_spec lo hi); [|lia].
  destruct (Z.leb_spec hi (Z.of_nat (String.length s))); [done|lia].
Qed.

(** The value of a character of a binary number. *)
Definition bit_of (c : ascii) : option Z :=
  match c with
  | "0"%char => Some 0
  | "1"%char => Some 1
  | _ => None
  end.

(** The number a string writes in base 2, the first character weighing
    most; [None] when a character is neither ['0'] nor ['1']. *)
Fixpoint binary_value (s : string) : option Z :=
  match s with
  | EmptyString => Some 0
  | String c r =>
      match bit_of c, binary_value r with
      | Some b, Some v => Some (b * 2 ^ Z.of_nat (String.length r) + v)
      | _, _ => None
      end
  end.

(** What a chunk counts for: its value, and 0 when it is no binary
    number. *)
Definition chunk_value (chunk : string) : Z := default 0 (binary_value chunk).

(** The string padded with ['0'] up to 32 characters, and its chunks of 8
    characters. *)
Definition padded (binary : string) : string :=
  binary +:+ string_of_list_ascii
               (replicate (32 - String.length binary) "0"%char).

Definition chunk (binary : string) (i : nat) : string :=
  substring (8 * i) 8 (padded binary).

Lemma parse_bits_cons c r acc :
  parse_bits (String c r) acc
  = match bit_of c with
    | Some b => parse_bits r (2 * acc + b)
    | None => None
    end.
Proof.
  destruct c as [[] [] [] [] [] [] [] []]; simpl; try reflexivity.
  by rewrite Z.add_0_r.
Qed.

Lemma bit_of_range c b : bit_of c = Some b → 0 ≤ b ≤ 1.
Proof.
  destruct c as [[] [] [] [] [] [] [] []]; simpl; try done;
    intros [= <-]; lia.
Qed.

Lemma parse_bits_binary_value s :
  ∀ acc, parse_bits s acc
         = (λ v, acc * 2 ^ Z.of_nat (String.length s) + v) <$> binary_value s.
Proof.
  induction s as [|c r IH]; intros acc.
  - simpl. f_equal. lia.
  - rewrite parse_bits_cons. cbn [binary_value].
    destruct (bit_of c) as [b|]; [|done].
    rewrite IH. destruct (binary_value r) as [v|]; [|done].
    cbn [fmap option_fmap option_map String.length]. f_equal.
    rewrite Nat2Z.inj_succ, Z.pow_succ_r by lia. ring.
Qed.

Lemma binary_value_bound s :
  ∀ v, binary_value s = Some v → 0 ≤ v < 2 ^ Z.of_nat (String.length s).
Proof.
  induction s as [|c r IH]; intros v; cbn [binary_value String.length].
  - intros [= <-]. simpl. lia.
  - destruct (bit_of c) as [b|] eqn:Eb; [|done].
    destruct (binary_value r) as [w|]; [|done]. intros [= <-].
    apply bit_of_range in Eb. specialize (IH w eq_refl).
    rewrite Nat2Z.inj_succ, Z.pow_succ_r by lia. nia.
Qed.

Lemma ParseUint_2_8_chunk_value s :
  (String.length s ≤ 8)%nat → default 0 (ParseUint_2_8 s) = chunk_value s.
Proof.
  intros Hlen. unfold ParseUint_2_8, chunk_value.
  destruct s as [|c r]; [done|].
  rewrite parse_bits_binary_value.
  destruct (binary_value (String c r)) as [v|] eqn:E; [|done].
  cbn [fmap option_fmap option_map]. rewrite Z.mul_0_l, Z.add_0_l.
  apply binary_value_bound in E.
  assert (2 ^ Z.of_nat (String.length (String c r)) ≤ 2 ^ 8)
    by (apply Z.pow_le_mono_r; lia).
  destruct (Z.leb_spec v 255); [done|lia].
Qed.

Lemma length_substring s : ∀ n m, (String.length (substring n m s) ≤ m)%nat.
Proof.
  induction s as [|c r IH]; intros [|n] [|m]; simpl; try lia.
  - specialize (IH 0%nat m). lia.
  - apply IH.
  - apply IH.
Qed.

(** X11.  [get_prefix_from_binary] panics exactly on the strings of more
    than 32 characters (the padding would have a negative length).  On
    every shorter string, binary or not, it returns [a.b.c.d/len (binary)]
    where, the string being padded with ['0'] up to 32 characters, each of
    [a], [b], [c] and [d] is what the chunk of 8 characters at its place
    writes in base 2, and 0 when that chunk holds a character that is
    neither ['0'] nor ['1'] ([strconv.ParseUint] rejects it); the four are
    bytes. *)
Theorem get_prefix_from_binary_total (binary : string) :
  (get_prefix_from_binary binary = None ↔ (32 < String.length binary)%nat)
  ∧ ((String.length binary ≤ 32)%nat →
     let ip := (chunk_value (chunk binary 0), chunk_value (chunk binary 1),
                chunk_value (chunk binary 2), chunk_value (chunk binary 3)) in
     bytes_ok ip
     ∧ get_prefix_from_binary binary
       = Some (IPNet_String
                 {| IP := ip; Mask := Z.of_nat (String.length binary) |})).
Proof.
  unfold get_prefix_from_binary, IPv4PrefixLen, get_0_string.
  destruct (Z.ltb_spec (32 - Z.of_nat (String.length binary)) 0) as [Hlt|Hge].
  { split; [split; [lia|done]|]. intros ?. lia. }
  unfold chunk, padded.
  replace (Z.to_nat (32 - Z.of_nat (String.length binary)))
    with (32 - String.length binary)%nat by lia.
  set (zeros := string_of_list_ascii _).
  assert (Hlen : String.length (binary +:+ zeros) = 32%nat).
  { rewrite string_length_app. unfold zeros. rewrite length_zeros. lia. }
  remember (binary +:+ zeros) as s eqn:Es. clear Es zeros.
  simpl get_prefix_from_binary_loop.
  rewrite !slice_Some by (rewrite ?Hlen; lia).
  rewrite !ParseUint_2_8_chunk_value by apply length_substring.
  change (Z.to_nat 0) with 0%nat. change (Z.to_nat (0 + 8 - 0)) with 8%nat.
  change (Z.to_nat 8) with 8%nat. change (Z.to_nat (8 + 8 - 8)) with 8%nat.
  change (Z.to_nat 16) with 16%nat. change (Z.to_nat (16 + 8 - 16)) with 8%nat.
  change (Z.to_nat 24) with 24%nat. change (Z.to_nat (24 + 8 - 24)) with 8%nat.
  change (8 * 0)%nat with 0%nat. change (8 * 1)%nat with 8%nat.
  change (8 * 2)%nat with 16%nat. change (8 * 3)%nat with 24%nat.
  set (c0 := chunk_value (substring 0 8 s)).
  set (c1 := chunk_value (substring 8 8 s)).
  set (c2 := chunk_value (substring 16 8 s)).
  set (c3 := chunk_value (substring 24 8 s)).
  rewrite app_nil_l, !app_assoc_s.
  change (Itoa c0 +:+ "." +:+ Itoa c1 +:+ "." +:+ Itoa c2 +:+ "." +:+ Itoa c3
          +:+ ".")
    with (Itoa c0 +:+ "." +:+ Itoa c1 +:+ "." +:+ Itoa c2 +:+ "."
          +:+ (Itoa c3 +:+ String "." "")).
  rewrite <- !app_assoc_s. rewrite slice_drop_last.
  split; [split; [done|lia]|].
  intros _. cbv zeta. split.
  - unfold bytes_ok, c0, c1, c2, c3.
    rewrite <- !ParseUint_2_8_chunk_value by apply length_substring.
    repeat split; apply ParseUint_2_8_byte.
  - unfold IPNet_String, IP_String. simpl IP. simpl Mask.
    by rewrite !app_assoc_s.
Qed.

Lemma get_prefix_from_binary_total_witness :
  get_prefix_from_binary "0000000100000000000001" = Some "1.0.4.0/22"%string
  ∧ get_prefix_from_binary "0000001x11" = Some "0.192.0.0/10"%string.
Proof.
  split.
  - destruct (get_prefix_from_binary_total "0000000100000000000001")
      as [_ H].
    destruct H as [_ H]; [simpl; lia|]. rewrite H. reflexivity.
  - destruct (get_prefix_from_binary_total "0000001x11") as [_ H].
    destruct H as [_ H]; [simpl; lia|]. rewrite H. reflexivity.
Defined.

(** ** safe_set.go *)

(** [for _, v := range vals { set.append (key, v) }]. *)
Definition append_all {X} (s : SafeSet X) (key : string) (vals : list string)
  : option (SafeSet X) :=
  foldl (λ acc v, acc ≫= λ s, append s key v) (Some s) vals.

Lemma append_all_cons {X} (s : SafeSet X) key v vals :
  append_all s key (v :: vals) = append s key v ≫= λ s', append_all s' key vals.
Proof.
  unfold append_all. simpl. destruct (append s key v) as [s'|]; [done|].
  simpl. induction vals as [|w vals IH]; [done|]. done.
Qed.

(** X12.  On a set that is not faked, appending values to a key that is
    absent or holds a set never fails and leaves under the key the set of
    all the values appended, added to those it held; the other keys keep
    what they had.  Appending to a key that holds anything but a set is
    fatal. *)
Theorem append_accumulates {X} (s : SafeSet X) (key : string)
        (vals : list string) (old : gset string) :
  fake s = None →
  (set s !! key = None ∧ old = ∅) ∨ set s !! key = Some (V_set old) →
  ∃ s', append_all s key vals = Some s'
    ∧ fake s' = None
    ∧ (vals ≠ [] → get s' key = Some (V_set (list_to_set vals ∪ old)))
    ∧ (∀ k, k ≠ key → get s' k = get s k)
    ∧ (∀ v x, (∀ m, x ≠ V_set m) → append (add s key x) key v = None).
Proof.
  intros Hfake Hkey.
  assert (Hfatal : ∀ v x, (∀ m, x ≠ V_set m) → append (add s key x) key v = None).
  { intros v x Hx. unfold append, unsafe_append, add, unsafe_get, unsafe_add.
    simpl. rewrite Hfake, lookup_insert_eq.
    destruct x; try done. by destruct (Hx m). }
  revert s old Hfake Hkey Hfatal.
  induction vals as [|v vals IH]; intros s old Hfake Hkey Hfatal.
  { exists s. repeat split; done. }
  rewrite append_all_cons.
  assert (Hstep : append s key v
                  = Some (unsafe_add s key (V_set ({[v]} ∪ old)))).
  { unfold append, unsafe_append, unsafe_get. rewrite Hfake.
    destruct Hkey as [[-> ->]| ->]; [|done].
    by rewrite (right_id_L ∅ (∪)). }
  rewrite Hstep. simpl.
  destruct (IH (unsafe_add s key (V_set ({[v]} ∪ old))) ({[v]} ∪ old))
    as (s' & Hall & Hf' & Hget & Hother & _).
  - done.
  - right. simpl. by rewrite lookup_insert_eq.
  - intros w x Hx. unfold append, unsafe_append, add, unsafe_get, unsafe_add.
    simpl. rewrite Hfake, lookup_insert_eq.
    destruct x; try done. by destruct (Hx m).
  - exists s'. repeat split; [done|done| | |done].
    + intros _. destruct vals as [|w vals].
      * injection Hall as <-. unfold get, unsafe_get. simpl.
        rewrite Hfake, lookup_insert_eq. simpl.
        by rewrite (right_id_L ∅ (∪)).
      * rewrite Hget by done. f_equal. f_equal.
        rewrite (assoc_L (∪)).
        by rewrite (comm_L (∪) (list_to_set (w :: vals)) {[v]}).
    + intros k Hk. rewrite Hother by done.
      unfold get, unsafe_get. simpl. rewrite Hfake.
      by rewrite lookup_insert_ne.
Qed.

Lemma append_accumulates_witness :
  ∃ s', append_all (create_safeset (X := unit)) "10.0.0.0/24" ["vp1"; "vp2"]
        = Some s'
    ∧ (["vp1"; "vp2"]%string ≠ [] →
       get s' "10.0.0.0/24" = Some (V_set (list_to_set ["vp1"; "vp2"] ∪ ∅))).
Proof.
  destruct (append_accumulates (create_safeset (X := unit)) "10.0.0.0/24"
              ["vp1"; "vp2"]%string ∅) as (s' & H1 & _ & H2 & _).
  - reflexivity.
  - left. split; reflexivity.
  - exists s'. split; [exact H1|exact H2].
Defined.

(** ** rib_reader.go *)

Lemma find_index_from_app i pre A post :
  A ∉ pre → find_index_from i (pre ++ A :: post) A = i + Z.of_nat (length pre).
Proof.
  revert i. induction pre as [|p pre IH]; intros i Hpre; simpl.
  - rewrite String.eqb_refl. lia.
  - apply not_elem_of_cons in Hpre as [Hp Hpre].
    rewrite String_eqb_bool_decide, bool_decide_eq_false_2 by done.
    rewrite IH by done. lia.
Qed.

(** X13.  [get_prev_or_next_as] works from the first occurrence of the AS
    of interest on the path: the next AS is the one that follows this
    occurrence and the previous AS the one before it, and the AS of
    interest itself where the path ends there.  On a path with prepending
    ([A A ...]) the next AS of [A] is therefore [A]. *)
Theorem get_prev_or_next_as_first_occurrence (A : string)
        (pre post : list string) :
  A ∉ pre →
  get_prev_or_next_as A (pre ++ A :: post) 1 = default A (head post)
  ∧ get_prev_or_next_as A (pre ++ A :: post) (-1) = default A (last pre)
  ∧ get_prev_or_next_as A (pre ++ A :: A :: post) 1 = A.
Proof.
  intros Hpre.
  assert (Hnext : ∀ post', get_prev_or_next_as A (pre ++ A :: post') 1
                           = default A (head post')).
  { intros post'. unfold get_prev_or_next_as.
    rewrite get_prev_or_next_as_from_spec by lia. cbv zeta.
    rewrite find_index_from_app by done.
    destruct (Z.eqb_spec (0 + Z.of_nat (length pre)) (-1)); [lia|].
    destruct (Z.ltb_spec (0 + Z.of_nat (length pre) + 1) 0); [lia|].
    rewrite length_app. simpl length.
    destruct post' as [|nxt post']; simpl.
    - destruct (Z.geb_spec (0 + Z.of_nat (length pre) + 1)
                  (Z.of_nat (length pre + 1))); [done|lia].
    - destruct (Z.geb_spec (0 + Z.of_nat (length pre) + 1)
                  (Z.of_nat (length pre + S (S (length post'))))); [lia|].
      replace (Z.to_nat (0 + Z.of_nat (length pre) + 1))
        with (length pre + 1)%nat by lia.
      rewrite lookup_app_r by lia.
      by replace (length pre + 1 - length pre)%nat with 1%nat by lia. }
  split; [apply Hnext|]. split; [|apply (Hnext (A :: post))].
  unfold get_prev_or_next_as.
  rewrite get_prev_or_next_as_from_spec by lia. cbv zeta.
  rewrite find_index_from_app by done.
  destruct (Z.eqb_spec (0 + Z.of_nat (length pre)) (-1)); [lia|].
  destruct pre as [|p pre _] using rev_ind; [done|].
  rewrite last_snoc, !length_app. simpl length.
  destruct (Z.ltb_spec (0 + Z.of_nat (length pre + 1) + -1) 0); [lia|].
  destruct (Z.geb_spec (0 + Z.of_nat (length pre + 1) + -1)
              (Z.of_nat (length pre + 1 + S (length post)))); [lia|].
  simpl.
  replace (Z.to_nat (0 + Z.of_nat (length pre + 1) + -1)) with (length pre)
    by lia.
  rewrite <- app_assoc. rewrite lookup_app_r by lia.
  by rewrite Nat.sub_diag.
Qed.

Lemma get_prev_or_next_as_first_occurrence_witness :
  get_prev_or_next_as "3356" (["701"; "174"] ++ "3356" :: ["3356"; "2914"]) 1
  = default "3356"%string (head ["3356"; "2914"]%string)
  ∧ get_prev_or_next_as "3356" (["701"; "174"] ++ "3356" :: ["3356"; "2914"])
      (-1)
    = default "3356"%string (last ["701"; "174"]%string).
Proof.
  destruct (get_prev_or_next_as_first_occurrence "3356" ["701"; "174"]%string
              ["3356"; "2914"]%string) as (H1 & H2 & _).
  - intros [H|[H|H]%elem_of_cons]%elem_of_cons; [done|done|].
    by apply elem_of_nil in H.
  - split; [exact H1|exact H2].
Defined.

(** ** caida_file_readers.go *)

Lemma foldl_invariant {A B} (P : B → Prop) (f : B → A → B) (l : list A) acc :
  P acc → (∀ b a, a ∈ l → P b → P (f b a)) → P (foldl f acc l).
Proof.
  revert acc. induction l as [|x l IH]; intros acc Hacc Hf; simpl; [done|].
  apply IH.
  - apply Hf; [apply list_elem_of_here|done].
  - intros b a Ha. apply Hf. by apply list_elem_of_further.
Qed.

Lemma append_prefix_lookup (m : gmap string (gset string)) a p a' :
  append_prefix m a p !! a'
  = if decide (a = a') then Some ({[p]} ∪ default ∅ (m !! a)) else m !! a'.
Proof.
  unfold append_prefix. destruct (m !! a) as [s|] eqn:E; simpl.
  - destruct (decide (a = a')) as [->|Hne];
      [by rewrite lookup_insert_eq|by rewrite lookup_insert_ne].
  - destruct (decide (a = a')) as [->|Hne];
      [|by rewrite lookup_insert_ne].
    by rewrite lookup_insert_eq, (right_id_L ∅ (∪)).
Qed.

(** Every prefix of [prefix_as] is listed under its AS in [as_prefixes],
    and no AS has an empty set. *)
Definition indexed_by (as_prefixes : gmap string (gset string))
           (prefix_as : gmap string string) : Prop :=
  (∀ p a, prefix_as !! p = Some a →
          ∃ s, as_prefixes !! a = Some s ∧ p ∈ s)
  ∧ (∀ a s, as_prefixes !! a = Some s → s ≠ ∅).

Lemma indexed_by_empty : indexed_by ∅ ∅.
Proof. split; intros ??; by rewrite lookup_empty. Qed.

Lemma indexed_by_append m pm a p :
  indexed_by m pm → indexed_by (append_prefix m a p) (<[p := a]> pm).
Proof.
  intros [H1 H2]. split.
  - intros p' a' Hp'. rewrite append_prefix_lookup.
    destruct (decide (p = p')) as [<-|Hne].
    + rewrite lookup_insert_eq in Hp'. injection Hp' as <-.
      rewrite decide_True by done. eexists. split; [done|].
      apply elem_of_union. left. by apply elem_of_singleton.
    + rewrite lookup_insert_ne in Hp' by done.
      destruct (H1 _ _ Hp') as (s & Hs & Hin).
      destruct (decide (a = a')) as [->|?]; [|by exists s].
      rewrite Hs. eexists. split; [done|]. apply elem_of_union. by right.
  - intros a' s. rewrite append_prefix_lookup.
    destruct (decide (a = a')) as [->|?]; [|apply H2].
    intros [= <-] He.
    assert (p ∈ ({[p]} ∪ default ∅ (m !! a') : gset string)) as Hin
        by (apply elem_of_union; left; by apply elem_of_singleton).
    rewrite He in Hin. by apply not_elem_of_empty in Hin.
Qed.

Lemma insert_sorted_perm {A} (less : A → A → bool) x l :
  insert_sorted less x l ≡ₚ x :: l.
Proof.
  induction l as [|y r IH]; simpl; [done|].
  destruct (less x y); [done|]. by rewrite IH, Permutation_swap.
Qed.

Lemma sort_Sort_perm {A} (less : A → A → bool) l : sort_Sort less l ≡ₚ l.
Proof.
  unfold sort_Sort.
  assert (H : ∀ acc, foldl (λ acc x, insert_sorted less x acc) acc l
                     ≡ₚ l ++ acc).
  { induction l as [|x l IH]; intros acc; simpl; [done|].
    rewrite IH, insert_sorted_perm. by rewrite Permutation_middle. }
  by rewrite H, app_nil_r.
Qed.

Lemma prefix_lens_names prefixes r elem :
  prefix_lens prefixes = Some r → elem ∈ r → name elem ∈ prefixes.
Proof.
  revert r. induction prefixes as [|p rest IH]; intros r; simpl.
  - intros [= <-] H. by apply elem_of_nil in H.
  - destruct (Contains p ":").
    + intros Hr Hin. apply list_elem_of_further. by eapply IH.
    + destruct (extract_mask_length p) as [w|]; [|done].
      destruct (prefix_lens rest) as [r'|]; [|done].
      intros [= <-] [->|Hin]%elem_of_cons; [apply list_elem_of_here|].
      apply list_elem_of_further. by eapply IH.
Qed.

Lemma get_subnets_mask subnet mask_length sub :
  sub ∈ get_subnets subnet mask_length → Mask sub = mask_length.
Proof.
  unfold get_subnets. destruct (_ <=? 0).
  - by intros ->%list_elem_of_singleton.
  - cbv zeta. intros (i & -> & _)%list_elem_of_fmap. done.
Qed.

Lemma HasSuffix_IPNet_String_24 sub :
  Mask sub = 24 → HasSuffix (IPNet_String sub) "/24" = true.
Proof.
  intros E. unfold IPNet_String. rewrite E.
  rewrite HasSuffix_app; [reflexivity|simpl; lia].
Qed.

(** X14.  Whatever the lines of the ip2as file, when [read_ip2as] returns,
    its two pairs of maps are consistent in one direction: a prefix (a /24)
    that [prefix_as] ([prefix24_as]) gives to an AS is in the set of that AS
    in [as_prefixes] ([as_24prefixes]); no AS is ["-1"] and no AS has an
    empty set; the AS of a /24 is the AS of some line of the file; and
    every key of [prefix24_as] ends in [/24], also for the prefixes of the
    file that are longer than a /24. *)
Theorem read_ip2as_indexed (lines : list string)
        (r : gmap string (gset string) * gmap string string
             * gmap string (gset string) * gmap string string) :
  read_ip2as lines = Some r →
  indexed_by r.1.2 r.2
  ∧ indexed_by r.1.1.1 r.1.1.2
  ∧ (∀ p a, r.2 !! p = Some a → a ≠ "-1"%string)
  ∧ (∀ t a, r.1.1.2 !! t = Some a → ∃ p, r.2 !! p = Some a)
  ∧ (∀ t a, r.1.1.2 !! t = Some a → HasSuffix t "/24" = true).
Proof.
  unfold read_ip2as.
  set (P1 := λ acc : option (gmap string (gset string) * gmap string string),
         match acc with
         | Some (m, pm) =>
             indexed_by m pm ∧ ∀ p a, pm !! p = Some a → a ≠ "-1"%string
         | None => True
         end).
  assert (H1 : P1 (foldl read_ip2as_line (Some (∅, ∅)) lines)).
  { apply foldl_invariant.
    - split; [apply indexed_by_empty|]. intros ??. by rewrite lookup_empty.
    - intros [[m pm]|] line _; [|done]. intros [Hi Hn]. unfold read_ip2as_line.
      destruct (_ || _); [done|].
      destruct (Fields line) as [|prefix [|AS ?]]; [done|done|].
      rewrite String_eqb_bool_decide. case_bool_decide as HAS; [done|].
      split; [by apply indexed_by_append|].
      intros p a. destruct (decide (prefix = p)) as [<-|?].
      + rewrite lookup_insert_eq. by intros [= <-].
      + rewrite lookup_insert_ne by done. apply Hn. }
  destruct (foldl read_ip2as_line (Some (∅, ∅)) lines) as [[mp pm]|]; [|done].
  destruct H1 as [Hi Hn].
  destruct (prefix_lens (map_to_list pm).*1) as [prefix_len|] eqn:Hlens;
    [|done].
  set (P3 := λ acc : option (gmap string (gset string) * gmap string string),
         match acc with
         | Some (m, pm24) =>
             indexed_by m pm24
             ∧ (∀ t a, pm24 !! t = Some a → ∃ p, pm !! p = Some a)
             ∧ (∀ t a, pm24 !! t = Some a → HasSuffix t "/24" = true)
         | None => True
         end).
  assert (H3 : P3 (foldl (read_ip2as_expand pm) (Some (∅, ∅))
                         (sort_Sort ByWeight prefix_len))).
  { apply foldl_invariant.
    - split; [apply indexed_by_empty|].
      split; intros ??; by rewrite lookup_empty.
    - intros [[m pm24]|] elem Helem; [|done]. intros HP.
      unfold read_ip2as_expand.
      destruct (ParseCIDR (name elem)) as [[ip network]|]; [|done].
      rewrite sort_Sort_perm in Helem.
      apply (prefix_lens_names _ _ _ Hlens) in Helem.
      apply list_elem_of_fmap in Helem as ([p a] & Hp & Hin).
      apply elem_of_map_to_list in Hin. simpl in Hp. subst p.
      rewrite Hin. simpl default.
      set (Q := λ acc : gmap string (gset string) * gmap string string,
             P3 (Some acc)).
      change (Q (foldl (λ '(m1, m2) subnet,
                          (append_prefix m1 a (IPNet_String subnet),
                           <[IPNet_String subnet := a]> m2))
                       (m, pm24) (get_subnets network 24))).
      apply foldl_invariant; [done|].
      intros [m1 m2] subnet Hsub (Hi1 & Hv & Hs). unfold Q, P3.
      split; [by apply indexed_by_append|]. split.
      + intros t a'. destruct (decide (IPNet_String subnet = t)) as [<-|?].
        * rewrite lookup_insert_eq. intros [= <-]. by eexists.
        * rewrite lookup_insert_ne by done. apply Hv.
      + intros t a'. destruct (decide (IPNet_String subnet = t)) as [<-|?].
        * intros _. apply HasSuffix_IPNet_String_24.
          by eapply get_subnets_mask.
        * rewrite lookup_insert_ne by done. apply Hs. }
  destruct (foldl (read_ip2as_expand pm) _ _) as [[m24 p24]|]; [|done].
  destruct H3 as (Hi3 & Hv3 & Hs3).
  intros [= <-]. simpl. done.
Qed.

Lemma read_ip2as_indexed_witness :
  ∃ r, read_ip2as ["10.0.0.0/23 65001"; "10.0.1.0/24 65002"]%string = Some r
    ∧ indexed_by r.1.2 r.2 ∧ indexed_by r.1.1.1 r.1.1.2.
Proof.
  assert (H : match read_ip2as ["10.0.0.0/23 65001"; "10.0.1.0/24 65002"]%string
              with Some _ => true | None => false end = true)
    by (vm_compute; reflexivity).
  destruct (read_ip2as ["10.0.0.0/23 65001"; "10.0.1.0/24 65002"]%string)
    as [r|] eqn:E; [|discriminate H].
  exists r. split; [reflexivity|].
  destruct (read_ip2as_indexed _ r E) as (H1 & H2 & _).
  split; [exact H1|exact H2].
Defined.

Import caida_relationships.

(** The relation [AS_interest] has with [AS] in a table of neighbours. *)
Definition rel_of (m : gmap string (gmap string Z)) (a b : string) : option Z :=
  default ∅ (m !! a) !! b.

(** The relation seen from the other side. *)
Definition mirror (rel : Z) : Z :=
  if rel =? Customer then Provider
  else if rel =? Provider then Customer else rel.

Lemma rel_of_append_prefix_val m x y r a b :
  rel_of (append_prefix_val m x y r) a b
  = if decide (a = x ∧ b = y) then Some r else rel_of m a b.
Proof.
  unfold rel_of, append_prefix_val.
  destruct (m !! x) as [n|] eqn:E.
  - destruct (decide (a = x)) as [->|Hne].
    + rewrite lookup_insert_eq. simpl. rewrite E. simpl.
      destruct (decide (b = y)) as [->|Hb].
      * rewrite lookup_insert_eq. by rewrite decide_True.
      * rewrite lookup_insert_ne by done.
        rewrite decide_False; [done|]. by intros [_ ?].
    + rewrite lookup_insert_ne by done.
      rewrite decide_False; [done|]. by intros [? _].
  - destruct (decide (a = x)) as [->|Hne].
    + rewrite lookup_insert_eq. simpl. rewrite E. simpl.
      destruct (decide (b = y)) as [->|Hb].
      * rewrite lookup_singleton_eq. by rewrite decide_True.
      * rewrite lookup_singleton_ne by done.
        rewrite decide_False; [by rewrite lookup_empty|]. by intros [_ ?].
    + rewrite lookup_insert_ne by done.
      rewrite decide_False; [done|]. by intros [? _].
Qed.

(** The two directions of a pair agree, and the relations are the three
    of the file. *)
Definition mirrored (m : gmap string (gmap string Z)) : Prop :=
  ∀ a b r, rel_of m a b = Some r →
    0 ≤ r ≤ 2 ∧ (a ≠ b → rel_of m b a = Some (mirror r)).

Lemma mirrored_pair m x y r :
  0 ≤ r ≤ 2 → mirrored m →
  mirrored (append_prefix_val (append_prefix_val m x y r) y x (mirror r)).
Proof.
  intros Hr Hm a b r'. rewrite !rel_of_append_prefix_val.
  assert (Hmr : 0 ≤ mirror r ≤ 2 ∧ mirror (mirror r) = r).
  { unfold mirror, Customer, Provider.
    assert (r = 0 ∨ r = 1 ∨ r = 2) as [->|[->| ->]] by lia; simpl; lia. }
  destruct (decide (a = y ∧ b = x)) as [[-> ->]|Hn1].
  - intros [= <-]. split; [lia|]. intros Hne.
    rewrite (decide_False (P := x = y ∧ y = x)) by (by intros [? _]).
    rewrite decide_True by done. by rewrite (proj2 Hmr).
  - destruct (decide (a = x ∧ b = y)) as [[-> ->]|Hn2].
    + intros [= <-]. split; [lia|]. intros Hne.
      by rewrite decide_True.
    + intros Hr'. destruct (Hm _ _ _ Hr') as [H1 H2]. split; [done|].
      intros Hne.
      rewrite decide_False by (intros [-> ->]; by apply Hn2).
      rewrite decide_False by (intros [-> ->]; by apply Hn1).
      by apply H2.
Qed.

(** X15.  The table [read_as_rel] builds holds the relations customer,
    peer and provider only, and is consistent in its two directions: for
    two different ASes, [b] is a customer of [a] exactly when [a] is a
    provider of [b], and peering is symmetric, whatever lines the file
    repeats or contradicts.  [get_relationship] on this table therefore
    answers the mirrored relation when its arguments are exchanged
    ([Unknown] for [Unknown]). *)
Theorem read_as_rel_mirrored (lines : list string)
        (neighbor_ases : gmap string (gmap string Z)) (a b : string) :
  read_as_rel lines = Some neighbor_ases →
  a ≠ b →
  (∀ r, rel_of neighbor_ases a b = Some r → 0 ≤ r ≤ 2)
  ∧ (∀ r, rel_of neighbor_ases a b = Some r
          ↔ rel_of neighbor_ases b a = Some (mirror r) ∧ 0 ≤ r ≤ 2)
  ∧ get_relationship neighbor_ases a b
    = mirror <$> get_relationship neighbor_ases b a.
Proof.
  intros Hread Hab.
  assert (Hm : mirrored neighbor_ases).
  { revert Hread. unfold read_as_rel.
    set (P := λ acc : option (gmap string (gmap string Z)),
           match acc with Some m => mirrored m | None => True end).
    intros Hread.
    assert (HP : P (foldl read_as_rel_line (Some ∅) lines)).
    { apply foldl_invariant.
      - intros x y r. unfold rel_of. rewrite lookup_empty. simpl.
        by rewrite lookup_empty.
      - intros [m|] line _; [|done]. intros Hmm. unfold read_as_rel_line.
        destruct (Contains line "#"); [done|].
        destruct (Split "|" line) as [|s0 [|s1 [|s2 ?]]]; try done.
        simpl.
        assert (H1 : mirrored
                       (if String.eqb s2 "0"
                        then append_prefix_val (append_prefix_val m s0 s1 Peer)
                                               s1 s0 Peer
                        else m)).
        { destruct (String.eqb s2 "0"); [|done].
          by apply (mirrored_pair m s0 s1 Peer). }
        destruct (String.eqb s2 "-1"); [|done].
        by apply (mirrored_pair _ s0 s1 Customer). }
    by rewrite Hread in HP. }
  assert (Hiff : ∀ r, rel_of neighbor_ases a b = Some r
                 ↔ rel_of neighbor_ases b a = Some (mirror r) ∧ 0 ≤ r ≤ 2).
  { intros r. split.
    - intros Hr. destruct (Hm _ _ _ Hr) as [H1 H2]. split; [by apply H2|done].
    - intros [Hr Hr2]. destruct (Hm _ _ _ Hr) as [H1 H2].
      rewrite H2 by done. f_equal. unfold mirror, Customer, Provider.
      assert (r = 0 ∨ r = 1 ∨ r = 2) as [->|[->| ->]] by lia; done. }
  split; [intros r Hr; by apply (Hm _ _ _ Hr)|]. split; [done|].
  unfold get_relationship. case_bool_decide; [done|]. simpl.
  assert (Hget : ∀ x y,
    match neighbor_ases !! x with
    | Some neighbors => match neighbors !! y with
                        | Some rel => Some rel | None => Some Unknown end
    | None => Some Unknown
    end = Some (default Unknown (rel_of neighbor_ases x y))).
  { intros x y. unfold rel_of. destruct (neighbor_ases !! x) as [n|]; simpl.
    - by destruct (n !! y).
    - by rewrite lookup_empty. }
  rewrite !Hget. simpl. f_equal.
  destruct (rel_of neighbor_ases b a) as [r|] eqn:Hba.
  - destruct (Hm _ _ _ Hba) as [H1 H2]. rewrite H2 by done. done.
  - destruct (rel_of neighbor_ases a b) as [r|] eqn:Hab'; [|done].
    destruct (Hm _ _ _ Hab') as [H1 H2]. rewrite H2 in Hba by done. done.
Qed.

Lemma read_as_rel_mirrored_witness :
  ∃ m, read_as_rel ["# as-rel"; "3356|174|0"; "3356|65001|-1"]%string = Some m
    ∧ get_relationship m "3356" "65001"
      = mirror <$> get_relationship m "65001" "3356".
Proof.
  assert (H : match read_as_rel ["# as-rel"; "3356|174|0"; "3356|65001|-1"]%string
              with Some _ => true | None => false end = true)
    by (vm_compute; reflexivity).
  destruct (read_as_rel ["# as-rel"; "3356|174|0"; "3356|65001|-1"]%string)
    as [m|] eqn:E; [|discriminate H].
  exists m. split; [reflexivity|].
  apply (read_as_rel_mirrored _ m "3356" "65001" E). done.
Defined.

(** ** probing_strategies_utils.go *)

Lemma insert_sorted_fmap {A B} (f : A → B) (less : B → B → bool) x l :
  insert_sorted less (f x) (f <$> l)
  = f <$> insert_sorted (λ a b, less (f a) (f b)) x l.
Proof.
  induction l as [|y r IH]; [done|].
  rewrite fmap_cons. simpl insert_sorted.
  destruct (less (f x) (f y)); [done|]. rewrite fmap_cons. by f_equal.
Qed.

Lemma sort_Sort_fmap {A B} (f : A → B) (less : B → B → bool) l :
  sort_Sort less (f <$> l) = f <$> sort_Sort (λ a b, less (f a) (f b)) l.
Proof.
  unfold sort_Sort.
  assert (H : ∀ acc,
    foldl (λ acc x, insert_sorted less x acc) (f <$> acc) (f <$> l)
    = f <$> foldl (λ acc x, insert_sorted (λ a b, less (f a) (f b)) x acc)
                  acc l).
  { induction l as [|x l IH]; intros acc; simpl; [done|].
    by rewrite insert_sorted_fmap, IH. }
  apply (H []).
Qed.

Lemma insert_sorted_sorted {A} (k : A → Z) (less : A → A → bool) x l :
  (∀ a b, less a b = (k a <? k b)) →
  StronglySorted (λ a b, k a ≤ k b) l →
  StronglySorted (λ a b, k a ≤ k b) (insert_sorted less x l).
Proof.
  intros Hless. induction 1 as [|y r Hr IH Hy]; simpl.
  - by repeat constructor.
  - rewrite Hless. destruct (Z.ltb_spec (k x) (k y)) as [Hlt|Hge].
    + constructor; [by constructor|]. constructor; [lia|].
      eapply Forall_impl; [exact Hy|]. simpl. intros. lia.
    + constructor; [done|]. rewrite insert_sorted_perm. by constructor.
Qed.

Lemma sort_Sort_sorted {A} (k : A → Z) (less : A → A → bool) l :
  (∀ a b, less a b = (k a <? k b)) →
  StronglySorted (λ a b, k a ≤ k b) (sort_Sort less l).
Proof.
  intros Hless. unfold sort_Sort.
  assert (H : ∀ acc, StronglySorted (λ a b, k a ≤ k b) acc →
    StronglySorted (λ a b, k a ≤ k b)
                   (foldl (λ acc x, insert_sorted less x acc) acc l)).
  { induction l as [|x l IH]; intros acc Hacc; simpl; [done|].
    apply IH. by apply insert_sorted_sorted. }
  apply H. constructor.
Qed.

Lemma StronglySorted_weaken {A} (R1 R2 : A → A → Prop) l :
  (∀ a b, R1 a b → R2 a b) → StronglySorted R1 l → StronglySorted R2 l.
Proof.
  intros HR. induction 1 as [|x l Hl IH Hx]; constructor; [done|].
  eapply Forall_impl; [exact Hx|]. apply HR.
Qed.

Lemma order_by_customer_cone_props (G : Globals) (ases : gset string)
        (as_interest : string) (reverse : bool) :
  order_by_customer_cone G ases as_interest reverse ≡ₚ elements ases
  ∧ NoDup (order_by_customer_cone G ases as_interest reverse)
  ∧ StronglySorted
      (λ a b, if reverse
              then default 0 (as_conesize G !! b) ≤ default 0 (as_conesize G !! a)
              else default 0 (as_conesize G !! a) ≤ default 0 (as_conesize G !! b))
      (order_by_customer_cone G ases as_interest reverse).
Proof.
  unfold order_by_customer_cone. cbv zeta.
  set (mk := λ as_, {| name := as_; weight := default 0 (as_conesize G !! as_) |}).
  assert (Hname : ∀ l : list string, name <$> (mk <$> l) = l).
  { intros l. rewrite <- list_fmap_compose. apply list_fmap_id. }
  assert (Hperm : (name <$> (if reverse
                     then sort_Sort (Reverse ByWeight) (mk <$> elements ases)
                     else sort_Sort ByWeight (mk <$> elements ases)))
                  ≡ₚ elements ases).
  { destruct reverse; rewrite sort_Sort_perm; by rewrite Hname. }
  split; [done|]. split; [rewrite Hperm; apply NoDup_elements|].
  destruct reverse; rewrite sort_Sort_fmap, Hname.
  - eapply StronglySorted_weaken;
      [|apply (sort_Sort_sorted (λ a, - default 0 (as_conesize G !! a)))].
    { intros a b; simpl; lia. }
    intros a b. unfold Reverse, ByWeight. simpl.
    destruct (Z.ltb_spec (default 0 (as_conesize G !! b))
                         (default 0 (as_conesize G !! a)));
      destruct (Z.ltb_spec (- default 0 (as_conesize G !! a))
                           (- default 0 (as_conesize G !! b))); lia || done.
  - apply (sort_Sort_sorted (λ a, default 0 (as_conesize G !! a))).
    intros a b. done.
Qed.

(** X16.  [order_by_customer_cone] returns every AS of the set once, in
    the order of the sizes of the customer cones ([as_conesize], 0 for an
    AS that has none): non-decreasing, or non-increasing with [reverse]. *)
Theorem order_by_customer_cone_sorted (G : Globals) (ases : gset string)
        (as_interest : string) (reverse : bool) :
  order_by_customer_cone G ases as_interest reverse ≡ₚ elements ases
  ∧ NoDup (order_by_customer_cone G ases as_interest reverse)
  ∧ StronglySorted
      (λ a b, if reverse
              then default 0 (as_conesize G !! b) ≤ default 0 (as_conesize G !! a)
              else default 0 (as_conesize G !! a) ≤ default 0 (as_conesize G !! b))
      (order_by_customer_cone G ases as_interest reverse).
Proof. apply order_by_customer_cone_props. Qed.

Lemma elem_of_difference_list (a b : gset string) x :
  x ∈ utils.difference a b ↔ x ∈ a ∧ x ∉ b.
Proof.
  unfold utils.difference. rewrite list_elem_of_filter, elem_of_elements.
  tauto.
Qed.

Lemma filter_on_directedProbes_spec (to_filter reference : gset string) x :
  x ∈ filter_on_directedProbes to_filter reference
  ↔ x ∈ to_filter ∧ x ∈ reference.
Proof.
  unfold filter_on_directedProbes.
  rewrite elem_of_list_to_set, list_elem_of_filter, elem_of_elements. tauto.
Qed.

Lemma get_one_hop_neighbors_spec (G : Globals) (as_interest x : string) :
  x ∈ get_one_hop_neighbors G as_interest
  ↔ x ≠ as_interest
    ∧ (x ∉ dom (neighbors_of G as_interest))
    ∧ ∃ neighbor, neighbor ∈ dom (neighbors_of G as_interest)
                  ∧ x ∈ dom (neighbors_of G neighbor).
Proof.
  unfold get_one_hop_neighbors. cbv zeta. rewrite elem_of_difference_list.
  set (inner := λ (acc : gset string) (l : list string),
         foldl (λ acc n, if String.eqb n as_interest then acc else {[n]} ∪ acc)
               acc l).
  assert (Hinner : ∀ l acc, x ∈ inner acc l
                            ↔ x ∈ acc ∨ (x ∈ l ∧ x ≠ as_interest)).
  { induction l as [|n l IH]; intros acc; unfold inner; simpl.
    - split; [by left|]. intros [?|[H _]]; [done|]. by apply elem_of_nil in H.
    - fold (inner (if String.eqb n as_interest then acc else {[n]} ∪ acc) l).
      rewrite IH, String_eqb_bool_decide. case_bool_decide as Hn.
      + subst n. rewrite elem_of_cons. split; [tauto|].
        intros [?|[[->|?] ?]]; tauto.
      + rewrite elem_of_union, elem_of_singleton, elem_of_cons. split.
        * intros [[->|?]|[? ?]]; tauto.
        * intros [?|[[->|?] ?]]; tauto. }
  assert (Houter : ∀ L acc,
    x ∈ foldl (λ acc neighbor,
                 inner acc (map_to_list (neighbors_of G neighbor)).*1) acc L
    ↔ x ∈ acc ∨ (x ≠ as_interest
                 ∧ ∃ neighbor, neighbor ∈ L
                               ∧ x ∈ dom (neighbors_of G neighbor))).
  { induction L as [|nb L IH]; intros acc; simpl.
    - split; [by left|]. intros [?|[_ (? & H & _)]]; [done|].
      by apply elem_of_nil in H.
    - rewrite IH, Hinner. clear IH.
      assert (Hdom : (x ∈ (map_to_list (neighbors_of G nb)).*1)
                     ↔ x ∈ dom (neighbors_of G nb)).
      { rewrite elem_of_dom, list_elem_of_fmap. split.
        - intros ([k v] & -> & Hkv). apply elem_of_map_to_list in Hkv.
          by exists v.
        - intros [v Hv]. exists (x, v). split; [done|].
          by apply elem_of_map_to_list. }
      rewrite Hdom. split.
      + intros [[?|[? ?]]|[? (n & Hn & ?)]]; [by left| |].
        * right. split; [done|]. exists nb. split; [apply list_elem_of_here|done].
        * right. split; [done|]. exists n.
          split; [by apply list_elem_of_further|done].
      + intros [?|[? (n & [->|Hn]%elem_of_cons & ?)]]; [by left;left| |].
        * left. right. done.
        * right. split; [done|]. by exists n. }
  change (foldl _ ∅ (map_to_list (neighbors_of G as_interest)).*1)
    with (foldl (λ acc neighbor,
                   inner acc (map_to_list (neighbors_of G neighbor)).*1)
                ∅ (map_to_list (neighbors_of G as_interest)).*1).
  rewrite Houter.
  assert (Hkeys : ∀ n, (n ∈ (map_to_list (neighbors_of G as_interest)).*1)
                       ↔ n ∈ dom (neighbors_of G as_interest)).
  { intros n. rewrite elem_of_dom, list_elem_of_fmap. split.
    - intros ([k v] & -> & Hkv). apply elem_of_map_to_list in Hkv.
      by exists v.
    - intros [v Hv]. exists (n, v). split; [done|].
      by apply elem_of_map_to_list. }
  split.
  - intros [[H|(Hne & n & Hn & Hx)] Hnot]; [by apply not_elem_of_empty in H|].
    repeat split; [done|done|]. exists n. by rewrite <- Hkeys.
  - intros (Hne & Hnot & n & Hn & Hx). split; [|done].
    right. split; [done|]. exists n. by rewrite Hkeys.
Qed.

(** X17.  [get_one_hop_neighbors] returns, each once, the ASes that are a
    neighbour of a neighbour of the AS of interest without being the AS of
    interest or one of its neighbours. *)
Theorem get_one_hop_neighbors_exact (G : Globals) (as_interest : string) :
  NoDup (get_one_hop_neighbors G as_interest)
  ∧ ∀ x, x ∈ get_one_hop_neighbors G as_interest
         ↔ x ≠ as_interest
           ∧ (x ∉ dom (neighbors_of G as_interest))
           ∧ ∃ neighbor, neighbor ∈ dom (neighbors_of G as_interest)
                         ∧ x ∈ dom (neighbors_of G neighbor).
Proof.
  split; [|intros x; apply get_one_hop_neighbors_spec].
  unfold get_one_hop_neighbors, utils.difference. cbv zeta.
  apply NoDup_filter, NoDup_elements.
Qed.

Lemma foldl_append_prefix_dom (f : string → string) (probes : list string)
      (m : gmap string (gset string)) AS :
  AS ∈ dom (foldl (λ acc probe, append_prefix acc (f probe) probe) m probes)
  ↔ AS ∈ dom m ∨ ∃ probe, probe ∈ probes ∧ f probe = AS.
Proof.
  revert m. induction probes as [|p probes IH]; intros m; simpl.
  - split; [by left|]. intros [?|(? & H & _)]; [done|].
    by apply elem_of_nil in H.
  - rewrite IH. rewrite !elem_of_dom, append_prefix_lookup.
    destruct (decide (f p = AS)) as [<-|Hne].
    + split; [|intros _; left; by eexists].
      intros _. right. exists p. split; [apply list_elem_of_here|done].
    + split.
      * intros [?|(q & Hq & ?)]; [by left|]. right. exists q.
        split; [by apply list_elem_of_further|done].
      * intros [?|(q & [->|Hq]%elem_of_cons & ?)]; [by left|done|].
        right. by exists q.
Qed.

(** X18.  The three groups [get_directed_probes_and_groups] returns
    (neighbours, one-hop neighbours, others) are pairwise disjoint, none
    holds the AS of interest, and together they are the ASes of the
    directed probes other than the AS of interest; the neighbours are
    neighbours, the one-hop neighbours are one-hop neighbours, and the
    count is the number of lines of the file of directed prefixes. *)
Theorem get_directed_probes_and_groups_partition (G : Globals)
        (as_interest : string) (g g' : rng)
        (AS_probes : gmap string (gset string))
        (neighbors one_hop other_AS : gset string) (nb : Z) :
  get_directed_probes_and_groups G as_interest g
  = Some ((AS_probes, neighbors, one_hop, other_AS, nb), g') →
  neighbors ## one_hop ∧ neighbors ## other_AS ∧ one_hop ## other_AS
  ∧ neighbors ∪ one_hop ∪ other_AS = dom AS_probes ∖ {[as_interest]}
  ∧ neighbors ⊆ dom (neighbors_of G as_interest)
  ∧ one_hop ⊆ list_to_set (get_one_hop_neighbors G as_interest)
  ∧ nb = Z.of_nat (length (directed_prefixes_file G as_interest)).
Proof.
  unfold get_directed_probes_and_groups. intros H.
  apply M_bind_Some in H as (directed_probes & g1 & Hdp & H).
  cbv zeta in H. apply M_ret_Some in H. injection H as -> -> -> -> -> ->.
  set (APm := list_to_set (filter (λ AS, AS ≠ as_interest)
                (map_to_list (foldl _ ∅ directed_probes)).*1) : gset string).
  set (AP := foldl _ ∅ directed_probes) in *.
  assert (HAPm : ∀ x, x ∈ APm ↔ x ∈ dom AP ∧ x ≠ as_interest).
  { intros x. unfold APm. rewrite elem_of_list_to_set, list_elem_of_filter.
    rewrite elem_of_dom, list_elem_of_fmap. split.
    - intros [? ([k v] & -> & Hkv)]. apply elem_of_map_to_list in Hkv.
      split; [by exists v|done].
    - intros [[v Hv] ?]. split; [done|]. exists (x, v). split; [done|].
      by apply elem_of_map_to_list. }
  assert (Hn : ∀ x, x ∈ filter_on_directedProbes
                          (dom (neighbors_of G as_interest)) APm
                    ↔ x ∈ dom (neighbors_of G as_interest) ∧ x ∈ APm)
    by (intros; apply filter_on_directedProbes_spec).
  assert (Ho : ∀ x, x ∈ filter_on_directedProbes
                          (slice_to_map (get_one_hop_neighbors G as_interest)) APm
                    ↔ x ∈ get_one_hop_neighbors G as_interest ∧ x ∈ APm).
  { intros x. rewrite filter_on_directedProbes_spec. unfold slice_to_map.
    by rewrite elem_of_list_to_set. }
  assert (Hot : ∀ x, x ∈ slice_to_map (utils.difference APm
                   (merge_maps_new
                      (filter_on_directedProbes
                         (dom (neighbors_of G as_interest)) APm)
                      (filter_on_directedProbes
                         (slice_to_map (get_one_hop_neighbors G as_interest))
                         APm)))
               ↔ x ∈ APm
                 ∧ ¬ (x ∈ dom (neighbors_of G as_interest) ∧ x ∈ APm)
                 ∧ ¬ (x ∈ get_one_hop_neighbors G as_interest ∧ x ∈ APm)).
  { intros x. unfold slice_to_map at 1, merge_maps_new.
    rewrite elem_of_list_to_set, elem_of_difference_list, elem_of_union.
    rewrite Hn, Ho. tauto. }
  repeat split.
  - intros x Hx1 Hx2. apply Hn in Hx1 as [Hx1 _]. apply Ho in Hx2 as [Hx2 _].
    apply get_one_hop_neighbors_spec in Hx2 as (_ & Hx2 & _). done.
  - intros x Hx1 Hx2. apply Hot in Hx2 as (_ & Hx2 & _). apply Hx2.
    by apply Hn.
  - intros x Hx1 Hx2. apply Hot in Hx2 as (_ & _ & Hx2). apply Hx2.
    by apply Ho.
  - apply set_eq. intros x.
    rewrite !elem_of_union, Hn, Ho, Hot, elem_of_difference, elem_of_singleton.
    rewrite HAPm.
    destruct (decide (x ∈ dom (neighbors_of G as_interest)));
      destruct (decide (x ∈ get_one_hop_neighbors G as_interest)); tauto.
  - intros x Hx. by apply Hn in Hx as [? _].
  - intros x Hx. apply Ho in Hx as [? _]. by apply elem_of_list_to_set.
  - unfold get_directed_probes in Hdp.
    assert (Hlen : ∀ l acc r ga gb,
      foldM (λ directed_prefixes prefix,
               p ← _get_24_prefix prefix; mret (directed_prefixes ++ [p]))
            acc l ga = Some (r, gb) →
      length r = (length acc + length l)%nat).
    { induction l as [|p l IH]; intros acc r ga gb Hf; simpl in Hf.
      - apply M_ret_Some in Hf. injection Hf as ->. simpl. lia.
      - apply M_bind_Some in Hf as (acc' & gc & Hstep & Hf).
        apply M_bind_Some in Hstep as (q & gd & _ & Hstep).
        apply M_ret_Some in Hstep. injection Hstep as -> ->.
        apply IH in Hf. rewrite Hf, length_app. simpl. lia. }
    apply Hlen in Hdp. rewrite Hdp. simpl. done.
Qed.

(** A small instance of the tables: AS 65000 has the customer 65001, which
    peers with 65002; three directed prefixes, one of an unknown AS. *)
Definition example_globals : Globals :=
  {| as_neighbors :=
       {[ "65000"%string := {[ "65001"%string := Customer ]};
          "65001"%string := {[ "65000"%string := Provider;
                               "65002"%string := Peer ]};
          "65002"%string := {[ "65001"%string := Peer ]} ]};
     as_conesize := {[ "65001"%string := 2; "65002"%string := 1 ]};
     as_24prefixes :=
       {[ "65001"%string := {[ "10.0.1.0/24"%string ]};
          "65002"%string := {[ "10.0.2.0/24"%string ]} ]};
     prefix24_as :=
       {[ "10.0.1.0/24"%string := "65001"%string;
          "10.0.2.0/24"%string := "65002"%string ]};
     as_to_prefixes :=
       {[ "65001"%string := {[ "10.0.1.0/24"%string ]};
          "65002"%string := {[ "10.0.2.0/24"%string ]} ]};
     prefix_to_as :=
       {[ "10.0.1.0/24"%string := "65001"%string;
          "10.0.2.0/24"%string := "65002"%string ]};
     vps := ["vp1"%string];
     directed_prefixes_file :=
       λ _, ["10.0.1.0/24"; "10.0.2.0/24"; "10.0.3.0/24"]%string;
     overlays_global_file := [];
     nextAS_file := λ _, [];
     oracle_file := λ _, [] |}.

Lemma get_directed_probes_and_groups_partition_witness :
  ∃ r g', get_directed_probes_and_groups example_globals "65000" (λ _, 0)
          = Some (r, g')
    ∧ r.1.1.1.2 ## r.1.1.2
    ∧ r.1.1.1.2 ∪ r.1.1.2 ∪ r.1.2 = dom r.1.1.1.1 ∖ {["65000"%string]}.
Proof.
  assert (H : match get_directed_probes_and_groups example_globals "65000"
                    (λ _, 0)
              with Some _ => true | None => false end = true)
    by (vm_compute; reflexivity).
  destruct (get_directed_probes_and_groups example_globals "65000" (λ _, 0))
    as [[[[[[ap n] o] ot] nb] g']|] eqn:E; [|discriminate H].
  exists (ap, n, o, ot, nb), g'. split; [reflexivity|].
  destruct (get_directed_probes_and_groups_partition _ _ _ _ _ _ _ _ _ E)
    as (H1 & _ & _ & H4 & _).
  split; [exact H1|exact H4].
Defined.

Lemma forallb_false_elem {A} (f : A → bool) l :
  forallb f l = false → ∃ x, x ∈ l ∧ f x = false.
Proof.
  induction l as [|y l IH]; simpl; [done|].
  destruct (f y) eqn:E; simpl.
  - intros (x & ? & ?)%IH. exists x. split; [by apply list_elem_of_further|done].
  - intros _. exists y. split; [apply list_elem_of_here|done].
Qed.

(** X19.  [group_by_relationships] panics exactly when the AS of interest
    has a neighbour whose relation is none of customer, peer and provider.
    Otherwise it returns, each once, the neighbours that have directed
    probes (the AS of interest left out), the customers first, then the
    peers, then the providers, and inside each class in the order of the
    customer cones. *)
Theorem group_by_relationships_spec (G : Globals)
        (AS_probes : gmap string (gset string)) (as_interest : string)
        (reverse : bool) :
  (group_by_relationships G AS_probes as_interest reverse = None
   ↔ ∃ x r, neighbors_of G as_interest !! x = Some r ∧ ¬ (0 ≤ r ≤ 2))
  ∧ ∀ l, group_by_relationships G AS_probes as_interest reverse = Some l →
      NoDup l
      ∧ (∀ x, x ∈ l ↔ is_Some (neighbors_of G as_interest !! x)
                       ∧ x ∈ dom AS_probes ∧ x ≠ as_interest)
      ∧ StronglySorted
          (λ a b, ∃ ra rb, neighbors_of G as_interest !! a = Some ra
                           ∧ neighbors_of G as_interest !! b = Some rb
                           ∧ (ra < rb
                              ∨ (ra = rb
                                 ∧ if reverse
                                   then default 0 (as_conesize G !! b)
                                        ≤ default 0 (as_conesize G !! a)
                                   else default 0 (as_conesize G !! a)
                                        ≤ default 0 (as_conesize G !! b))))
          l.
Proof.
  unfold group_by_relationships. cbv zeta.
  set (nbrs := map_to_list (neighbors_of G as_interest)).
  set (relx := λ x, neighbors_of G as_interest !! x).
  set (APm := list_to_set (filter (λ AS, AS ≠ as_interest)
                             (map_to_list AS_probes).*1) : gset string).
  assert (HAPm : ∀ x, x ∈ APm ↔ x ∈ dom AS_probes ∧ x ≠ as_interest).
  { intros x. unfold APm. rewrite elem_of_list_to_set, list_elem_of_filter.
    rewrite elem_of_dom, list_elem_of_fmap. split.
    - intros [? ([k v] & -> & Hkv)]. apply elem_of_map_to_list in Hkv.
      split; [by exists v|done].
    - intros [[v Hv] ?]. split; [done|]. exists (x, v). split; [done|].
      by apply elem_of_map_to_list. }
  assert (Hwith : ∀ r x,
    x ∈ (list_to_set (filter (λ '(_, rel), rel = r) nbrs).*1 : gset string)
    ↔ relx x = Some r).
  { intros r x. rewrite elem_of_list_to_set, list_elem_of_fmap. split.
    - intros ([k v] & -> & [Hv Hkv]%list_elem_of_filter). simpl in *. subst v.
      by apply elem_of_map_to_list in Hkv.
    - intros Hx. exists (x, r). split; [done|]. apply list_elem_of_filter.
      split; [done|]. by apply elem_of_map_to_list. }
  set (class := λ r, order_by_customer_cone G
         (filter_on_directedProbes
            (list_to_set (filter (λ '(_, rel), rel = r) nbrs).*1) APm)
         as_interest reverse).
  assert (Hclass : ∀ r x, x ∈ class r ↔ relx x = Some r ∧ x ∈ APm).
  { intros r x. unfold class.
    destruct (order_by_customer_cone_props G
                (filter_on_directedProbes
                   (list_to_set (filter (λ '(_, rel), rel = r) nbrs).*1) APm)
                as_interest reverse) as (Hp & _).
    rewrite Hp, elem_of_elements, filter_on_directedProbes_spec, Hwith. done. }
  destruct (forallb _ nbrs) eqn:Hall.
  - split.
    { split; [done|]. intros (x & r & Hx & Hr).
      rewrite forallb_forall in Hall.
      assert (Hin : In (x, r) nbrs)
        by (apply list_elem_of_In; by apply elem_of_map_to_list).
      apply Hall in Hin. simpl in Hin. lia. }
    intros l [= <-].
    fold (class Customer) (class Peer) (class Provider).
    assert (Hrange : ∀ x r, relx x = Some r → r = Customer ∨ r = Peer ∨ r = Provider).
    { intros x r Hx. rewrite forallb_forall in Hall.
      assert (Hin : In (x, r) nbrs)
        by (apply list_elem_of_In; by apply elem_of_map_to_list).
      apply Hall in Hin. simpl in Hin. unfold Customer, Peer, Provider. lia. }
    assert (Hnd : ∀ r, NoDup (class r)).
    { intros r. unfold class. apply order_by_customer_cone_props. }
    assert (Hsorted : ∀ r, StronglySorted
      (λ a b, ∃ ra rb, relx a = Some ra ∧ relx b = Some rb
              ∧ (ra < rb
                 ∨ (ra = rb
                    ∧ if reverse
                      then default 0 (as_conesize G !! b)
                           ≤ default 0 (as_conesize G !! a)
                      else default 0 (as_conesize G !! a)
                           ≤ default 0 (as_conesize G !! b))))
      (class r)).
    { intros r.
      assert (Hs : StronglySorted
        (λ a b, if reverse
                then default 0 (as_conesize G !! b) ≤ default 0 (as_conesize G !! a)
                else default 0 (as_conesize G !! a) ≤ default 0 (as_conesize G !! b))
        (class r)) by (unfold class; apply order_by_customer_cone_props).
      assert (Hin : Forall (λ x, relx x = Some r) (class r)).
      { apply Forall_forall. intros x Hx. by apply Hclass in Hx as [? _]. }
      induction Hs as [|a l' Hl' IH Ha]; [constructor|].
      apply Forall_cons in Hin as [Hra Hin]. constructor; [by apply IH|].
      rewrite Forall_forall in Ha, Hin |- *. intros b Hb.
      exists r, r. repeat split; [done|by apply Hin|].
      right. split; [done|by apply Ha]. }
    split; [|split; [intros x; split|]].
    + apply NoDup_app. split; [apply Hnd|]. split.
      * intros x [Hx _]%Hclass Hx2.
        apply elem_of_app in Hx2 as [[Hx2 _]%Hclass|[Hx2 _]%Hclass];
          rewrite Hx in Hx2; discriminate.
      * apply NoDup_app. split; [apply Hnd|]. split; [|apply Hnd].
        intros x [Hx _]%Hclass [Hx2 _]%Hclass. rewrite Hx in Hx2. discriminate.
    + rewrite !elem_of_app, !Hclass, HAPm.
      intros [[Hr ?]|[[Hr ?]|[Hr ?]]]; (split; [by eexists|done]).
    + rewrite !elem_of_app, !Hclass, HAPm. intros ([r Hr] & H1 & H2).
      destruct (Hrange _ _ Hr) as [->|[->| ->]]; tauto.
    + apply StronglySorted_app_2; [|apply Hsorted|].
      * intros a b [Ha _]%Hclass Hb. exists Customer.
        apply elem_of_app in Hb as [[Hb _]%Hclass|[Hb _]%Hclass].
        -- exists Peer. repeat split; [done|done|]. by left.
        -- exists Provider. repeat split; [done|done|]. by left.
      * apply StronglySorted_app_2; [|apply Hsorted|apply Hsorted].
        intros a b [Ha _]%Hclass [Hb _]%Hclass. exists Peer, Provider.
        repeat split; [done|done|]. by left.
  - split; [|done]. split; [|done]. intros _.
    apply forallb_false_elem in Hall as ([x r] & Hin & Hr).
    exists x, r. split.
    + by apply elem_of_map_to_list in Hin.
    + intros ?. apply andb_false_iff in Hr as [?%Z.leb_gt|?%Z.leb_gt]; lia.
Qed.

Lemma group_by_relationships_spec_witness :
  ∃ l, group_by_relationships example_globals
         {[ "65000"%string := {[ "10.0.0.0/24"%string ]};
            "65002"%string := {[ "10.0.2.0/24"%string ]} ]}
         "65001" false = Some l
    ∧ NoDup l.
Proof.
  assert (H : match group_by_relationships example_globals
                    {[ "65000"%string := {[ "10.0.0.0/24"%string ]};
                       "65002"%string := {[ "10.0.2.0/24"%string ]} ]}
                    "65001" false
              with Some _ => true | None => false end = true)
    by (vm_compute; reflexivity).
  destruct (group_by_relationships example_globals _ "65001" false)
    as [l|] eqn:E; [|discriminate H].
  exists l. split; [reflexivity|].
  destruct (group_by_relationships_spec example_globals
              {[ "65000"%string := {[ "10.0.0.0/24"%string ]};
                 "65002"%string := {[ "10.0.2.0/24"%string ]} ]}
              "65001" false) as [_ Hl].
  destruct (Hl l E) as [Hnd _]. exact Hnd.
Defined.

(** ** probing_strategies.go: the menu of strategies *)

(** X20.  Whatever the tables, the AS of interest and the random draws,
    the targets and limits a strategy of the menu returns fit together:
    the limits are non-decreasing indices into the target list, the last
    one is the number of targets (without limits there are no targets),
    and the segments the limits cut add up to the target list. *)
Theorem strategy_limits_well_formed (G : Globals) (i : nat)
        (f : list string → string → SafeSet unit → M strategy_result)
        (destinations : list string) (as_interest : string)
        (target_to_vp : SafeSet unit) (g g' : rng) (r : strategy_result) :
  strategy_fc G !! i = Some f →
  f destinations as_interest target_to_vp g = Some (r, g') →
  StronglySorted Z.le (limit <$> r.2)
  ∧ Forall (λ x, 0 ≤ x ≤ Z.of_nat (length r.1)) (limit <$> r.2)
  ∧ (∀ l, last r.2 = Some l → limit l = Z.of_nat (length r.1))
  ∧ (r.2 = [] → r.1 = [])
  ∧ concat (segments r.1 0 r.2) = r.1.
Proof.
  intros Hi Hf. pose proof (strategy_fc_wf G i f _ _ _ _ _ _ Hi Hf) as Hwf.
  pose proof Hwf as (H1 & H2 & H3 & H4).
  repeat split; try done.
  destruct r as [s limits]. by apply limits_wf_segments.
Qed.

Lemma strategy_limits_well_formed_witness :
  ∃ r g', direct_neighbors example_globals [] "65001" create_safeset (λ _, 0)
          = Some (r, g')
    ∧ concat (segments r.1 0 r.2) = r.1.
Proof.
  assert (H : match direct_neighbors example_globals [] "65001" create_safeset
                    (λ _, 0)
              with Some _ => true | None => false end = true)
    by (vm_compute; reflexivity).
  destruct (direct_neighbors example_globals [] "65001" create_safeset (λ _, 0))
    as [[r g']|] eqn:E; [|discriminate H].
  exists r, g'. split; [reflexivity|].
  apply (strategy_limits_well_formed example_globals 2
           (direct_neighbors example_globals) [] "65001" create_safeset
           (λ _, 0) g' r); [reflexivity|exact E].
Defined.

Lemma add_AS_probes_raw ases (AS_probes : gmap string (gset string)) :
  ∀ s limits g,
    ∃ limits',
      add_AS_probes s ases limits AS_probes _get_raw_prefix g
      = Some ((s ++ concat ((λ AS, elements (default ∅ (AS_probes !! AS)))
                              <$> ases), limits'), g).
Proof.
  assert (Hraw : ∀ l s g,
    foldM (λ s probe, p ← _get_raw_prefix probe; mret (s ++ [p])) s l g
    = Some (s ++ l, g)).
  { induction l as [|p l IH]; intros s g; simpl.
    - by rewrite app_nil_r.
    - unfold mbind at 1, M_bind at 1. unfold mbind at 1, M_bind at 1.
      unfold _get_raw_prefix at 1, mret at 1, M_ret at 1.
      unfold mret at 1, M_ret at 1. rewrite IH. by rewrite <- app_assoc. }
  unfold add_AS_probes.
  induction ases as [|AS ases IH]; intros s limits g.
  - exists limits. simpl. by rewrite app_nil_r.
  - rewrite fmap_cons. cbn [concat foldM].
    destruct (AS_probes !! AS) as [probes|] eqn:E; simpl default.
    + destruct (IH (s ++ elements probes)
                  (limits ++ [ {| asn := AS;
                                  limit := Z.of_nat (length (s ++ elements probes)) |} ])
                  g) as [limits' Hl'].
      exists limits'. apply M_bind_Some. eexists (_, _), g. split.
      * unfold add_AS_probes_step. rewrite E. apply M_bind_Some.
        exists (s ++ elements probes), g. split; [apply Hraw|done].
      * rewrite Hl'. by rewrite <- app_assoc.
    + destruct (IH s limits g) as [limits' Hl']. exists limits'.
      apply M_bind_Some. exists (s, limits), g. split.
      * unfold add_AS_probes_step. by rewrite E.
      * rewrite Hl'. by rewrite elements_empty.
Qed.

(** X21.  When [add_AS_probes] returns, the targets it was given are a
    prefix of the targets it returns, and it has pushed one limit for each
    listed AS that is a key of [AS_probes], in the order of the list (an
    AS listed twice is processed twice, an AS with no entry is skipped);
    the number of targets added is the number of probes of these ASes.
    With [_get_raw_prefix] it never fails, draws nothing, and the targets
    added are the probes themselves. *)
Theorem add_AS_probes_appends (s ases : list string) (limits : list AS_limit)
        (AS_probes : gmap string (gset string))
        (get_probe : string → M string) (g g' : rng)
        (s' : list string) (limits' : list AS_limit) :
  (add_AS_probes s ases limits AS_probes get_probe g = Some ((s', limits'), g') →
   ∃ added new,
     s' = s ++ added ∧ limits' = limits ++ new
     ∧ asn <$> new = filter (λ AS, is_Some (AS_probes !! AS)) ases
     ∧ length added
       = length (concat ((λ AS, elements (default ∅ (AS_probes !! AS)))
                           <$> ases)))
  ∧ ∃ limits2,
      add_AS_probes s ases limits AS_probes _get_raw_prefix g
      = Some ((s ++ concat ((λ AS, elements (default ∅ (AS_probes !! AS)))
                              <$> ases), limits2), g).
Proof.
  split; [|apply add_AS_probes_raw].
  intros H.
  destruct (add_AS_probes_limits _ _ _ _ _ _ _ _ _ H) as (new & Hl & Hn).
  assert (Hadd : ∀ ases s limits g s' limits' g',
    add_AS_probes s ases limits AS_probes get_probe g
    = Some ((s', limits'), g') →
    ∃ added, s' = s ++ added
      ∧ length added
        = length (concat ((λ AS, elements (default ∅ (AS_probes !! AS)))
                            <$> ases))).
  { clear. unfold add_AS_probes.
    induction ases as [|AS ases IH]; intros s limits g s' limits' g' H;
      simpl in H.
    - apply M_ret_Some in H; simplify_eq. exists []. by rewrite app_nil_r.
    - apply M_bind_Some in H as ([s1 limits1] & g1 & H1 & H2).
      apply IH in H2 as (added2 & -> & Hlen2).
      apply add_AS_probes_step_spec in H1.
      destruct (AS_probes !! AS) as [probes|] eqn:E.
      + destruct H1 as (added & -> & Hlen & _).
        exists (added ++ added2). rewrite <- app_assoc. split; [done|].
        rewrite fmap_cons. simpl. rewrite !length_app, Hlen, Hlen2.
        by rewrite E.
      + destruct H1 as [-> _]. exists added2. split; [done|].
        rewrite fmap_cons. simpl. rewrite E. simpl.
        by rewrite elements_empty. }
  destruct (Hadd _ _ _ _ _ _ _ H) as (added & Hs & Hlen).
  by exists added, new.
Qed.

Lemma add_AS_probes_appends_witness :
  ∃ s' limits' g',
    add_AS_probes ["1.1.1.0/24"] ["65001"; "65009"; "65002"] []
                  (as_24prefixes example_globals) _get_24_prefix (λ _, 0)
    = Some ((s', limits'), g')
    ∧ ∃ added new, s' = ["1.1.1.0/24"]%string ++ added ∧ limits' = [] ++ new
        ∧ asn <$> new = ["65001"; "65002"]%string.
Proof.
  assert (H : match add_AS_probes ["1.1.1.0/24"] ["65001"; "65009"; "65002"] []
                    (as_24prefixes example_globals) _get_24_prefix (λ _, 0)
              with Some _ => true | None => false end = true)
    by (vm_compute; reflexivity).
  destruct (add_AS_probes ["1.1.1.0/24"] ["65001"; "65009"; "65002"] []
              (as_24prefixes example_globals) _get_24_prefix (λ _, 0))
    as [[[s' limits'] g']|] eqn:E; [|discriminate H].
  exists s', limits', g'. split; [reflexivity|].
  destruct (add_AS_probes_appends ["1.1.1.0/24"]%string
              ["65001"; "65009"; "65002"]%string []
              (as_24prefixes example_globals) _get_24_prefix (λ _, 0) g'
              s' limits') as [Hthm _].
  destruct (Hthm E) as (added & new & H1 & H2 & H3 & _).
  exists added, new. split; [exact H1|]. split; [exact H2|].
  rewrite H3. vm_compute. reflexivity.
Defined.

(** ** overlays_processing.go: the reduction *)

Lemma append_overlays_lookup (seen : gmap string (gset string)) vp overlays v :
  default ∅ (append_overlays seen vp overlays !! v)
  = if decide (v = vp) then default ∅ (seen !! vp) ∪ overlays
    else default ∅ (seen !! v).
Proof.
  unfold append_overlays, merge_maps, merge_maps_new.
  destruct (seen !! vp) as [already|] eqn:E.
  - destruct (decide (v = vp)) as [->|Hne].
    + by rewrite lookup_insert_eq.
    + by rewrite lookup_insert_ne.
  - destruct (decide (v = vp)) as [->|Hne].
    + rewrite lookup_insert_eq. simpl.
      by rewrite (right_id_L ∅ (∪)), (left_id_L ∅ (∪)).
    + by rewrite lookup_insert_ne.
Qed.

Section reduction.
Context {X : Type}.
Variable target_to_vp : SafeSet X.
Variable overlays : gmap string (gmap string (gset string)).

(** The vantage point of a pass, where [target_to_vp] has one. *)
Definition vp_of (st : reduction_step) : option string :=
  assert_string <$> get target_to_vp (probe_24 st).

(** The overlay group of the probe of a pass at a vantage point. *)
Definition group_of (VP : string) (st : reduction_step) : gset string :=
  default ∅ (default ∅ (overlays !! VP) !! probe st).

(** What the loop over the probes of an AS keeps true. *)
Definition reduction_inv
           (st : gset string * gmap string (gset string) * list reduction_step)
  : Prop :=
  let '(s, seen, log) := st in
  s = list_to_set (probe_24 <$> filter (λ e, recorded e = true) log)
  ∧ (∀ e, e ∈ log → vp_of e = None → recorded e = true)
  ∧ (∀ e VP, e ∈ log → recorded e = true → vp_of e = Some VP →
       group_of VP e ⊆ default ∅ (seen !! VP))
  ∧ (∀ i j ei ej VP, (i < j)%nat → log !! i = Some ei → log !! j = Some ej →
       recorded ei = true → recorded ej = true →
       vp_of ei = Some VP → vp_of ej = Some VP →
       probe ej ∉ group_of VP ei)
  ∧ (log = [] → seen = ∅)
  ∧ (∀ e, head log = Some e → recorded e = true).

Lemma reduction_inv_step st p g st' g' :
  reduction_inv st →
  remove_overlays_probe target_to_vp overlays st p g = Some (st', g') →
  reduction_inv st' ∧ ∃ e, st'.2 = st.2 ++ [e] ∧ probe e = p.
Proof.
  destruct st as [[s seen] log]. intros (Is & Iabs & Iseen & Ipair & Inil & Ihd) H.
  unfold remove_overlays_probe in H.
  apply M_bind_Some in H as (p24 & g1 & _ & H).
  assert (Hpair_old : ∀ e', ∀ i j ei ej VP, (i < j)%nat →
            (log ++ [e']) !! i = Some ei → (log ++ [e']) !! j = Some ej →
            (j < length log)%nat →
            recorded ei = true → recorded ej = true →
            vp_of ei = Some VP → vp_of ej = Some VP →
            probe ej ∉ group_of VP ei).
  { intros e' i j ei ej VP Hij Hi Hj Hjl. rewrite lookup_app_l in Hi, Hj by lia.
    by apply (Ipair i j). }
  assert (Hhd : ∀ e', recorded e' = true ∨ log ≠ [] →
            ∀ e, head (log ++ [e']) = Some e → recorded e = true).
  { intros e' He' e. destruct log as [|e0 log]; simpl.
    - intros [= <-]. by destruct He'.
    - intros [= <-]. by apply Ihd. }
  destruct (get target_to_vp p24) as [VP_i|] eqn:Hget.
  - case_bool_decide as Hseen.
    + (* already seen: the probe is skipped *)
      apply M_ret_Some in H. injection H as -> ->. simpl.
      split; [|by eexists].
      repeat split.
      * rewrite filter_app, filter_cons_False by done.
        by rewrite filter_nil, app_nil_r.
      * intros e [He| ->%list_elem_of_singleton]%elem_of_app; [by apply Iabs|].
        unfold vp_of. simpl. by rewrite Hget.
      * intros e VP [He| ->%list_elem_of_singleton]%elem_of_app; [|done].
        by apply Iseen.
      * intros i j ei ej VP Hij Hi Hj.
        destruct (decide (j < length log)%nat) as [Hjl|Hjl];
          [exact (Hpair_old _ i j ei ej VP Hij Hi Hj Hjl)|].
        assert (j = length log) as ->.
        { apply lookup_lt_Some in Hj. rewrite length_app in Hj. simpl in Hj.
          lia. }
        rewrite lookup_app_r, Nat.sub_diag in Hj by lia.
        injection Hj as <-. done.
      * intros Hnil. by destruct log.
      * apply Hhd. right. intros ->.
        rewrite (Inil eq_refl), lookup_empty in Hseen. simpl in Hseen.
        by apply not_elem_of_empty in Hseen.
    + (* recorded, with its overlay group *)
      apply M_ret_Some in H. injection H as -> ->. simpl.
      split; [|by eexists].
      repeat split.
      * rewrite filter_app, filter_cons_True by done.
        rewrite filter_nil, fmap_app, list_to_set_app_L, Is. simpl.
        rewrite (right_id_L ∅ (∪)). apply (comm_L (∪)).
      * intros e [He| ->%list_elem_of_singleton]%elem_of_app; [by apply Iabs|].
        done.
      * intros e VP [He| ->%list_elem_of_singleton]%elem_of_app Hr Hvp.
        -- rewrite append_overlays_lookup.
           destruct (decide (VP = assert_string VP_i)) as [->|?];
             [|by apply Iseen].
           apply union_subseteq_l'. by apply Iseen.
        -- unfold vp_of in Hvp. simpl in Hvp. rewrite Hget in Hvp.
           injection Hvp as <-. rewrite append_overlays_lookup.
           rewrite decide_True by done. apply union_subseteq_r.
      * intros i j ei ej VP Hij Hi Hj.
        destruct (decide (j < length log)%nat) as [Hjl|Hjl];
          [exact (Hpair_old _ i j ei ej VP Hij Hi Hj Hjl)|].
        assert (j = length log) as ->.
        { apply lookup_lt_Some in Hj. rewrite length_app in Hj. simpl in Hj.
          lia. }
        rewrite lookup_app_r, Nat.sub_diag in Hj by lia.
        injection Hj as <-. rewrite lookup_app_l in Hi by done.
        intros Hri _ Hvi Hvj. simpl.
        unfold vp_of in Hvj. simpl in Hvj. rewrite Hget in Hvj.
        injection Hvj as <-.
        intros Hin. apply Hseen.
        eapply Iseen; [by eapply list_elem_of_lookup_2|done|done|done].
      * intros Hnil. by destruct log.
      * apply Hhd. by left.
  - (* no vantage point: always recorded *)
    apply M_ret_Some in H. injection H as -> ->. simpl.
    split; [|by eexists].
    repeat split.
    * rewrite filter_app, filter_cons_True by done.
      rewrite filter_nil, fmap_app, list_to_set_app_L, Is. simpl.
      rewrite (right_id_L ∅ (∪)). apply (comm_L (∪)).
    * intros e [He| ->%list_elem_of_singleton]%elem_of_app; [by apply Iabs|].
      done.
    * intros e VP [He| ->%list_elem_of_singleton]%elem_of_app Hr Hvp;
        [by apply Iseen|].
      unfold vp_of in Hvp. simpl in Hvp. by rewrite Hget in Hvp.
    * intros i j ei ej VP Hij Hi Hj.
      destruct (decide (j < length log)%nat) as [Hjl|Hjl];
        [exact (Hpair_old _ i j ei ej VP Hij Hi Hj Hjl)|].
      assert (j = length log) as ->.
      { apply lookup_lt_Some in Hj. rewrite length_app in Hj. simpl in Hj.
        lia. }
      rewrite lookup_app_r, Nat.sub_diag in Hj by lia.
      injection Hj as <-. intros _ _ _ Hvj.
      unfold vp_of in Hvj. simpl in Hvj. by rewrite Hget in Hvj.
    * intros Hnil. by destruct log.
    * apply Hhd. by left.
Qed.

Lemma reduction_inv_fold probes :
  ∀ st g st' g',
    reduction_inv st →
    foldM (remove_overlays_probe target_to_vp overlays) st probes g
    = Some (st', g') →
    reduction_inv st' ∧ probe <$> st'.2 = (probe <$> st.2) ++ probes.
Proof.
  induction probes as [|p probes IH]; intros st g st' g' Hinv H; simpl in H.
  - apply M_ret_Some in H. injection H as -> ->. by rewrite app_nil_r.
  - apply M_bind_Some in H as (st1 & g1 & H1 & H2).
    destruct (reduction_inv_step _ _ _ _ _ Hinv H1) as (Hinv1 & e & He & Hp).
    destruct (IH _ _ _ _ Hinv1 H2) as [Hinv' Hlog]. split; [done|].
    rewrite Hlog, He, fmap_app. simpl. rewrite Hp. by rewrite <- app_assoc.
Qed.

End reduction.

(** X22.  The pass of [remove_overlays] over the probes of one AS visits
    every probe once, in the order of the iteration, and keeps the /24 of
    those it records.  A probe whose /24 has no vantage point in
    [target_to_vp] is always recorded, and so is the first probe visited
    (a non-empty set of probes is never reduced to nothing).  Two recorded
    probes with the same vantage point are never such that the later one
    is in the overlay group of the earlier one. *)
Theorem remove_overlays_AS_reduction {X} (target_to_vp : SafeSet X)
        (overlays : gmap string (gmap string (gset string)))
        (probes : list string) (g g' : rng)
        (s : gset string) (log : list reduction_step) :
  remove_overlays_AS target_to_vp overlays probes g = Some ((s, log), g') →
  probe <$> log = probes
  ∧ s = list_to_set (probe_24 <$> filter (λ e, recorded e = true) log)
  ∧ (∀ e, e ∈ log → get target_to_vp (probe_24 e) = None → recorded e = true)
  ∧ (∀ e, head log = Some e → recorded e = true)
  ∧ (probes ≠ [] → s ≠ ∅)
  ∧ (∀ i j ei ej VP, (i < j)%nat → log !! i = Some ei → log !! j = Some ej →
       recorded ei = true → recorded ej = true →
       vp_of target_to_vp ei = Some VP → vp_of target_to_vp ej = Some VP →
       probe ej ∉ group_of overlays VP ei).
Proof.
  unfold remove_overlays_AS. intros H.
  apply M_bind_Some in H as ([[s0 seen] log0] & g1 & Hfold & H).
  apply M_ret_Some in H. injection H as <- <- <-.
  apply reduction_inv_fold in Hfold as [(Is & Iabs & _ & Ipair & _ & Ihd) Hlog].
  2:{ repeat split; try done.
      - intros e He. by apply elem_of_nil in He.
      - intros e VP He. by apply elem_of_nil in He. }
  simpl in Hlog. repeat split; try done.
  - intros e He Hget. apply Iabs; [done|]. unfold vp_of. by rewrite Hget.
  - intros Hne Hs. destruct log as [|e log]; [by subst probes|].
    pose proof (Ihd e eq_refl) as He. rewrite Is in Hs.
    rewrite filter_cons_True in Hs by done. simpl in Hs.
    assert (probe_24 e ∈ (∅ : gset string)) as Hin
        by (rewrite <- Hs; apply elem_of_union; left; by apply elem_of_singleton).
    by apply not_elem_of_empty in Hin.
Qed.

Lemma remove_overlays_AS_reduction_witness :
  ∃ s log g',
    remove_overlays_AS (fake_it (create_safeset (X := unit)) (V_string "my_VP"))
      {[ "my_VP"%string :=
           {[ "10.0.0.0/24"%string
              := ({[ "10.0.1.0/24"%string ]} : gset string) ]} ]}
      ["10.0.0.0/24"; "10.0.1.0/24"]%string (λ _, 0)
    = Some ((s, log), g')
    ∧ probe <$> log = ["10.0.0.0/24"; "10.0.1.0/24"]%string
    ∧ s = list_to_set (probe_24 <$> filter (λ e, recorded e = true) log).
Proof.
  assert (H : match
      remove_overlays_AS (fake_it (create_safeset (X := unit)) (V_string "my_VP"))
        {[ "my_VP"%string :=
             {[ "10.0.0.0/24"%string
                := ({[ "10.0.1.0/24"%string ]} : gset string) ]} ]}
        ["10.0.0.0/24"; "10.0.1.0/24"]%string (λ _, 0)
    with Some _ => true | None => false end = true)
    by (vm_compute; reflexivity).
  destruct (remove_overlays_AS _ _ _ _) as [[[s log] g']|] eqn:E;
    [|discriminate H].
  exists s, log, g'. split; [reflexivity|].
  destruct (remove_overlays_AS_reduction _ _ _ _ _ _ _ E) as (H1 & H2 & _).
  split; [exact H1|exact H2].
Defined.

(** ** probing_strategies.go: strategies 0 and 1 *)

From Stdlib Require OrderedTypeEx.

Lemma insert_head_perm {A} (l : list A) j a y :
  l !! j = Some y → y :: <[j := a]> l ≡ₚ a :: l.
Proof.
  revert j. induction l as [|b l IH]; intros [|j] Hj; simpl in *; try done.
  - injection Hj as ->. apply Permutation_swap.
  - rewrite Permutation_swap. rewrite (IH _ Hj). apply Permutation_swap.
Qed.

Lemma swap_perm {A} (l : list A) i j x y :
  l !! i = Some x → l !! j = Some y → <[j := x]> (<[i := y]> l) ≡ₚ l.
Proof.
  revert i j. induction l as [|a l IH]; intros [|i] [|j] Hi Hj; simpl in *;
    try done.
  - by simplify_eq.
  - injection Hi as ->. by apply insert_head_perm.
  - injection Hj as ->. by apply insert_head_perm.
  - f_equiv. by apply IH.
Qed.

Lemma Shuffle_from_perm i :
  ∀ (s : list string) g, (i < length s)%nat ∨ s = [] →
    ∃ s' g', Shuffle_from i s g = Some (s', g') ∧ s' ≡ₚ s.
Proof.
  induction i as [|i IH]; intros s g Hi; simpl.
  - by exists s, g.
  - destruct Hi as [Hi| ->]; [|simpl in *].
    + unfold mbind, M_bind, Intn.
      destruct (Z.leb_spec (Z.of_nat (S i) + 1) 0) as [?|_]; [lia|].
      pose proof (Z.mod_pos_bound (g 0%nat) (Z.of_nat (S i) + 1) ltac:(lia))
        as Hj.
      set (j := Z.to_nat (g 0%nat mod (Z.of_nat (S i) + 1))).
      destruct (lookup_lt_is_Some_2 s (S i) Hi) as [si Hsi].
      destruct (lookup_lt_is_Some_2 s j ltac:(lia)) as [sj Hsj].
      rewrite Hsi, Hsj. simpl.
      destruct (IH (<[j := si]> (<[S i := sj]> s)) (λ k, g (S k)))
        as (s' & g' & Hs' & Hp).
      { left. rewrite !length_insert. lia. }
      exists s', g'. split; [done|]. rewrite Hp. by apply swap_perm.
    + unfold mbind, M_bind, Intn.
      destruct (Z.leb_spec (Z.of_nat (S i) + 1) 0) as [?|_]; [lia|].
      simpl. apply IH. by right.
Qed.

Lemma ltb_trans a b c :
  String.ltb a b = true → String.ltb b c = true → String.ltb a c = true.
Proof.
  unfold String.ltb. intros Hab Hbc.
  assert (Hab' : String.compare a b = Lt) by (by destruct (String.compare a b)).
  assert (Hbc' : String.compare b c = Lt) by (by destruct (String.compare b c)).
  apply OrderedTypeEx.String_as_OT.cmp_lt in Hab', Hbc'.
  pose proof (OrderedTypeEx.String_as_OT.lt_trans _ _ _ Hab' Hbc') as Hac.
  apply OrderedTypeEx.String_as_OT.cmp_lt in Hac.
  unfold OrderedTypeEx.String_as_OT.cmp in Hac. by rewrite Hac.
Qed.

Lemma ltb_asym a b : String.ltb a b = true → String.ltb b a = false.
Proof.
  unfold String.ltb. rewrite (String.compare_antisym a b).
  by destruct (String.compare b a).
Qed.

Lemma sort_Strings_sorted s :
  StronglySorted (λ a b, String.ltb b a = false) (sort_Strings s).
Proof.
  unfold sort_Strings, sort_Sort.
  assert (Hins : ∀ x l,
    StronglySorted (λ a b, String.ltb b a = false) l →
    StronglySorted (λ a b, String.ltb b a = false)
                   (insert_sorted String.ltb x l)).
  { intros x l Hl. induction Hl as [|y r Hr IH Hy]; simpl.
    - by repeat constructor.
    - destruct (String.ltb x y) eqn:E.
      + constructor; [by constructor|].
        constructor; [by apply ltb_asym|].
        eapply Forall_impl; [exact Hy|]. simpl. intros z Hz.
        destruct (String.ltb z x) eqn:Ezx; [|done].
        by rewrite (ltb_trans z x y Ezx E) in Hz.
      + constructor; [done|]. rewrite insert_sorted_perm. by constructor. }
  assert (Hfold : ∀ l acc,
    StronglySorted (λ a b, String.ltb b a = false) acc →
    StronglySorted (λ a b, String.ltb b a = false)
      (foldl (λ acc x, insert_sorted String.ltb x acc) acc l)).
  { induction l as [|x l IH]; intros acc Hacc; simpl; [done|].
    apply IH. by apply Hins. }
  apply Hfold. constructor.
Qed.

(** X23.  On a non-empty list of destinations the strategies [random] and
    [increasing_order] never fail and return the destinations in another
    order, with the single limit [{"0", len (s)}]; the order of
    [increasing_order] is the non-decreasing order of the strings.  On the
    empty list both exit ([log.Fatal]). *)
Theorem random_increasing_order_permute (s : list string)
        (as_interest : string) (target_to_vp : SafeSet unit) (g : rng) :
  (s ≠ [] →
   (∃ s' g', random s as_interest target_to_vp g
             = Some ((s', [ {| asn := "0"; limit := Z.of_nat (length s) |} ]),
                     g')
        ∧ s' ≡ₚ s)
   ∧ ∃ s', increasing_order s as_interest target_to_vp g
           = Some ((s', [ {| asn := "0"; limit := Z.of_nat (length s) |} ]), g)
        ∧ s' ≡ₚ s
        ∧ StronglySorted (λ a b, String.ltb b a = false) s')
  ∧ (s = [] → random s as_interest target_to_vp g = None
              ∧ increasing_order s as_interest target_to_vp g = None).
Proof.
  split.
  - intros Hne. assert (length s ≠ 0%nat) by (by destruct s). split.
    + unfold random. rewrite bool_decide_eq_false_2 by done.
      destruct (Shuffle_from_perm (length s - 1) s g) as (s' & g' & Hs & Hp);
        [left; lia|].
      exists s', g'. split; [|done]. unfold mbind, M_bind, Shuffle.
      rewrite Hs. unfold mret, M_ret. by rewrite (Permutation_length Hp).
    + unfold increasing_order. rewrite bool_decide_eq_false_2 by done.
      exists (sort_Strings s). unfold sort_Strings.
      pose proof (sort_Sort_perm String.ltb s) as Hp.
      split; [|split; [done|]].
      * unfold mret, M_ret. by rewrite (Permutation_length Hp).
      * apply sort_Strings_sorted.
  - intros ->. unfold random, increasing_order. simpl. done.
Qed.

Lemma random_increasing_order_permute_witness :
  ∃ s', increasing_order ["10.0.2.0/24"; "10.0.1.0/24"] "65000" create_safeset
          (λ _, 0)
        = Some ((s', [ {| asn := "0"; limit := 2 |} ]), λ _, 0)
    ∧ s' ≡ₚ ["10.0.2.0/24"; "10.0.1.0/24"]%string.
Proof.
  destruct (random_increasing_order_permute
              ["10.0.2.0/24"; "10.0.1.0/24"]%string "65000" create_safeset
              (λ _, 0)) as [H _].
  destruct H as [_ (s' & H1 & H2 & _)]; [done|].
  exists s'. split; [exact H1|exact H2].
Defined.

(** ** rib_reader.go: the prefixes that are kept *)

Import rib_validity.

Lemma Atoi_digit_nonneg c r n :
  is_digit c = true → Atoi (String c r) = Some n → 0 ≤ n.
Proof.
  intros Hc.
  assert (Hint : Atoi (String c r)
                 = Z.of_int <$> option_map Decimal.Pos
                                  (NilZero.uint_of_string (String c r))).
  { destruct c as [[] [] [] [] [] [] [] []]; try discriminate Hc; reflexivity. }
  rewrite Hint. destruct (NilZero.uint_of_string (String c r)) as [u|]; [|done].
  simpl. intros [= <-]. unfold Z.of_uint. apply N2Z.is_nonneg.
Qed.

Lemma parse_octet_byte s n : parse_octet s = Some n → 0 ≤ n < 256.
Proof.
  unfold parse_octet. destruct s as [|c r]; [done|].
  destruct (all_digits (String c r)) eqn:Hd; [|done]. simpl in Hd.
  apply andb_prop in Hd as [Hc _].
  destruct (_ && _); [|done].
  destruct (Atoi (String c r)) as [m|] eqn:E; [|done].
  apply (Atoi_digit_nonneg _ _ _ Hc) in E.
  destruct (Z.leb_spec m 255); [|done]. intros [= <-]. lia.
Qed.

Lemma ParseIP_bytes s ip : ParseIP s = Some ip → bytes_ok ip.
Proof.
  unfold ParseIP. destruct (Split "." s) as [|a [|b [|c [|d [|? ?]]]]]; try done.
  destruct (parse_octet a) as [x1|] eqn:E1; [|done].
  destruct (parse_octet b) as [x2|] eqn:E2; [|done].
  destruct (parse_octet c) as [x3|] eqn:E3; [|done].
  destruct (parse_octet d) as [x4|] eqn:E4; [|done].
  intros [= <-]. unfold bytes_ok.
  apply parse_octet_byte in E1, E2, E3, E4. lia.
Qed.

Lemma ParseCIDR_inv prefix ip network :
  ParseCIDR prefix = Some (ip, network) →
  bytes_ok ip ∧ 0 ≤ Mask network ≤ 32
  ∧ IP network = IP_Mask ip (CIDRMask (Mask network)).
Proof.
  unfold ParseCIDR. destruct (Split "/" prefix) as [|a [|m [|? ?]]]; try done.
  destruct (ParseIP a) as [ip'|] eqn:Eip; [|done].
  destruct (parse_mask_length m) as [n|] eqn:Em; [|done].
  destruct (Z.leb_spec n 32); [|done]. intros [= <- <-]. simpl.
  split; [by eapply ParseIP_bytes|]. split; [|done].
  split; [|done]. unfold parse_mask_length in Em.
  destruct m as [|c r]; [done|].
  destruct (all_digits (String c r)) eqn:Hd; [|done]. simpl in Hd.
  apply andb_prop in Hd as [Hc _]. by eapply Atoi_digit_nonneg.
Qed.

Lemma land_CIDRMask_shift x l :
  0 ≤ l ≤ 32 → 0 ≤ x < 2 ^ 32 →
  Z.land x (CIDRMask l) = Z.shiftl (Z.shiftr x (32 - l)) (32 - l).
Proof.
  intros Hl Hx. unfold CIDRMask. apply Z.bits_inj'. intros m Hm.
  rewrite Z.land_spec, !Z.shiftl_spec by done.
  destruct (Z.lt_ge_cases m (32 - l)).
  - rewrite !(Z.testbit_neg_r _ (m - (32 - l))) by lia. by rewrite andb_false_r.
  - rewrite Z.shiftr_spec by lia. replace (m - (32 - l) + (32 - l)) with m by lia.
    destruct (Z.lt_ge_cases m 32).
    + rewrite Z.ones_spec_low by lia. by rewrite andb_true_r.
    + rewrite (testbit_above x 32) by lia. done.
Qed.

Lemma IP_Mask_canonical ip l :
  bytes_ok ip → 0 ≤ l ≤ 32 →
  bytes_ok (IP_Mask ip (CIDRMask l))
  ∧ Z.land (ip_to_uint32 (IP_Mask ip (CIDRMask l))) (Z.ones (32 - l)) = 0.
Proof.
  intros Hb Hl. unfold IP_Mask. split; [apply uint32_to_ip_bytes|].
  pose proof (ip_to_uint32_range ip Hb) as Hr.
  rewrite land_CIDRMask_shift by done.
  set (h := 32 - l). set (q := Z.shiftr (ip_to_uint32 ip) h).
  assert (Hq : 0 ≤ Z.shiftl q h < 2 ^ 32).
  { unfold q. rewrite Z.shiftl_mul_pow2, Z.shiftr_div_pow2 by lia.
    assert (0 < 2 ^ h) by (apply Z.pow_pos_nonneg; lia).
    pose proof (Z.mul_div_le (ip_to_uint32 ip) (2 ^ h) ltac:(lia)).
    pose proof (Z.div_pos (ip_to_uint32 ip) (2 ^ h) ltac:(lia) ltac:(lia)).
    nia. }
  rewrite uint32_to_ip_to_uint32 by done.
  apply Z.bits_inj'. intros m Hm.
  rewrite Z.land_spec, Z.bits_0, Z.shiftl_spec by done.
  destruct (Z.lt_ge_cases m h).
  - by rewrite Z.testbit_neg_r by lia.
  - rewrite Z.ones_spec_high by lia. by rewrite andb_false_r.
Qed.

(** The round trip of a canonical prefix through its binary string. *)
Lemma binary_roundtrip_canonical a b c d l :
  bytes_ok (a, b, c, d) → 8 ≤ l ≤ 24 →
  Z.land (ip_to_uint32 (a, b, c, d)) (Z.ones (32 - l)) = 0 →
  get_binary_string (IPNet_String {| IP := (a, b, c, d); Mask := l |})
    ≫= get_prefix_from_binary
  = Some (IPNet_String {| IP := (a, b, c, d); Mask := l |}).
Proof.
  intros (Ha & Hb & Hc & Hd) Hl Hhost.
  assert (Hl' : 0 ≤ l < 256) by lia.
  destruct (octet_facts l Hl') as (_ & _ & _ & _ & Al & _).
  destruct (octet_facts a Ha) as (_ & _ & _ & _ & _ & Ba),
    (octet_facts b Hb) as (_ & _ & _ & _ & _ & Bb),
    (octet_facts c Hc) as (_ & _ & _ & _ & _ & Bc),
    (octet_facts d Hd) as (_ & _ & _ & _ & _ & Bd).
  destruct (slice_ip_string a b c d) as (Hlen & S0 & S1 & S2 & S3).
  pose proof (pad_back a b c d l Hl Hhost) as Hpad.
  cbv zeta in Hlen, S0, S1, S2, S3, Hpad.
  unfold get_binary_string.
  rewrite IPNet_String_split, ParseIP_IP_String, Al by done. simpl default.
  remember (Sprintf_08b a +:+ Sprintf_08b b +:+ Sprintf_08b c +:+ Sprintf_08b d)
    as s eqn:Es.
  clear Es.
  rewrite (slice_Some s 0 l) by (rewrite ?Hlen; lia).
  rewrite Z.sub_0_r.
  change (get_prefix_from_binary (substring 0 (Z.to_nat l) s)
          = Some (IPNet_String {| IP := (a, b, c, d); Mask := l |})).
  unfold get_prefix_from_binary, IPv4PrefixLen, get_0_string.
  rewrite length_substring_0 by (rewrite Hlen; lia).
  rewrite Z2Nat.id by lia.
  destruct (Z.ltb_spec (32 - l) 0); [lia|].
  rewrite Hpad. simpl get_prefix_from_binary_loop.
  change (0 + 8) with 8. change (8 + 8) with 16. change (16 + 8) with 24.
  change (24 + 8) with 32.
  rewrite S0, S1, S2, S3, Ba, Bb, Bc, Bd. simpl default.
  rewrite app_nil_l, !app_assoc_s.
  change (Itoa a +:+ "." +:+ Itoa b +:+ "." +:+ Itoa c +:+ "." +:+ Itoa d +:+ ".")
    with (Itoa a +:+ "." +:+ Itoa b +:+ "." +:+ Itoa c +:+ "."
          +:+ (Itoa d +:+ String "." "")).
  rewrite <- !app_assoc_s. rewrite slice_drop_last.
  unfold IPNet_String, IP_String. simpl IP. simpl Mask.
  by rewrite !app_assoc_s.
Qed.

Lemma reserved_prefixes_list :
  reserved_prefixes
  = [ {| IP := (0, 0, 0, 0); Mask := 8 |};
      {| IP := (10, 0, 0, 0); Mask := 8 |};
      {| IP := (100, 64, 0, 0); Mask := 10 |};
      {| IP := (127, 0, 0, 0); Mask := 8 |};
      {| IP := (169, 254, 0, 0); Mask := 16 |};
      {| IP := (172, 16, 0, 0); Mask := 12 |};
      {| IP := (192, 0, 0, 0); Mask := 24 |};
      {| IP := (192, 0, 2, 0); Mask := 24 |};
      {| IP := (192, 88, 99, 0); Mask := 24 |};
      {| IP := (192, 168, 0, 0); Mask := 16 |};
      {| IP := (198, 18, 0, 0); Mask := 15 |};
      {| IP := (198, 51, 100, 0); Mask := 24 |};
      {| IP := (203, 0, 113, 0); Mask := 24 |};
      {| IP := (224, 0, 0, 0); Mask := 4 |};
      {| IP := (240, 0, 0, 0); Mask := 4 |} ].
Proof. vm_compute. reflexivity. Qed.

Lemma first_byte_shift a b c d :
  bytes_ok (a, b, c, d) → Z.shiftr (ip_to_uint32 (a, b, c, d)) 24 = a.
Proof.
  intros Hb. rewrite ip_to_uint32_arith by done.
  destruct Hb as (Ha & Hb & Hc & Hd).
  rewrite Z.shiftr_div_pow2 by lia.
  symmetry. apply (Z.div_unique _ _ a (b * 2 ^ 16 + c * 2 ^ 8 + d)); lia.
Qed.

Lemma not_contains_8 r0 a b c d :
  bytes_ok (a, b, c, d) → 0 ≤ r0 < 256 →
  IPNet_Contains {| IP := (r0, 0, 0, 0); Mask := 8 |} (a, b, c, d) = false →
  a ≠ r0.
Proof.
  intros Hb Hr. unfold IPNet_Contains. simpl IP. simpl Mask.
  assert (Hb0 : bytes_ok (r0, 0, 0, 0)) by (unfold bytes_ok; lia).
  rewrite !land_CIDRMask_shift by (lia || by apply ip_to_uint32_range).
  change (32 - 8) with 24. rewrite !first_byte_shift by done.
  intros Hne%Z.eqb_neq ->. done.
Qed.

Lemma not_contains_4 r0 a b c d :
  bytes_ok (a, b, c, d) → 0 ≤ r0 < 256 →
  IPNet_Contains {| IP := (r0, 0, 0, 0); Mask := 4 |} (a, b, c, d) = false →
  a / 16 ≠ r0 / 16.
Proof.
  intros Hb Hr. unfold IPNet_Contains. simpl IP. simpl Mask.
  assert (Hb0 : bytes_ok (r0, 0, 0, 0)) by (unfold bytes_ok; lia).
  rewrite !land_CIDRMask_shift by (lia || by apply ip_to_uint32_range).
  change (32 - 4) with (24 + 4).
  rewrite <- !Z.shiftr_shiftr by lia. rewrite !first_byte_shift by done.
  rewrite !(Z.shiftr_div_pow2 _ 4) by lia. change (2 ^ 4) with 16.
  intros Hne%Z.eqb_neq E. apply Hne. by rewrite E.
Qed.

(** X24.  A prefix [check_prefix_validity] accepts parses as a CIDR; the
    network returned has a mask length from 8 to 24 and its host bits are
    zero, as the address written need not be; its string goes through
    [get_binary_string] and [get_prefix_from_binary] unchanged.  The first
    byte of the address written is none of 0, 10 and 127 and is below 224.
    The test of the reserved blocks reads the address as written: a network
    that is accepted may start at a reserved address and be refused when
    it is checked again. *)
Theorem check_prefix_validity_accepts (prefix : string) (network : IPNet) :
  (check_prefix_validity prefix = Some network →
   8 ≤ Mask network ≤ 24
   ∧ bytes_ok (IP network)
   ∧ Z.land (ip_to_uint32 (IP network)) (Z.ones (32 - Mask network)) = 0
   ∧ get_binary_string (IPNet_String network) ≫= get_prefix_from_binary
     = Some (IPNet_String network)
   ∧ ∃ a b c d, ParseCIDR prefix = Some ((a, b, c, d), network)
       ∧ a ≠ 0 ∧ a ≠ 10 ∧ a ≠ 127 ∧ 0 ≤ a < 224)
  ∧ ∃ p n, check_prefix_validity p = Some n
           ∧ check_prefix_validity (IPNet_String n) = None.
Proof.
  split.
  - unfold check_prefix_validity.
    destruct (ParseCIDR prefix) as [[ip net]|] eqn:Hcidr; [|done].
    cbv zeta.
    destruct (Z.ltb_spec (Mask net) 8) as [?|Hlo]; [done|].
    destruct (Z.gtb_spec (Mask net) 24) as [?|Hhi]; [done|]. cbn [orb].
    destruct (existsb (λ reserved, IPNet_Contains reserved ip)
                      reserved_prefixes) eqn:Hres; [done|].
    intros [= <-].
    destruct (ParseCIDR_inv _ _ _ Hcidr) as (Hb & Hm & Hip).
    destruct (IP_Mask_canonical ip (Mask net) Hb Hm) as [Hb' Hhost].
    rewrite <- Hip in Hb', Hhost.
    split; [lia|]. split; [done|]. split; [done|]. split.
    + destruct net as [[[[a b] c] d] l]. simpl in *.
      apply binary_roundtrip_canonical; [done|lia|done].
    + destruct ip as [[[a b] c] d]. exists a, b, c, d. split; [done|].
      assert (Hout : ∀ r, In r reserved_prefixes →
                          IPNet_Contains r (a, b, c, d) = false).
      { intros r Hin. destruct (IPNet_Contains r (a, b, c, d)) eqn:E; [|done].
        rewrite <- Hres. symmetry. apply existsb_exists. by exists r. }
      rewrite reserved_prefixes_list in Hout.
      pose proof (not_contains_8 0 a b c d Hb ltac:(lia)
                    (Hout {| IP := (0, 0, 0, 0); Mask := 8 |}
                          ltac:(simpl; tauto))).
      pose proof (not_contains_8 10 a b c d Hb ltac:(lia)
                    (Hout {| IP := (10, 0, 0, 0); Mask := 8 |}
                          ltac:(simpl; tauto))).
      pose proof (not_contains_8 127 a b c d Hb ltac:(lia)
                    (Hout {| IP := (127, 0, 0, 0); Mask := 8 |}
                          ltac:(simpl; tauto))).
      pose proof (not_contains_4 224 a b c d Hb ltac:(lia)
                    (Hout {| IP := (224, 0, 0, 0); Mask := 4 |}
                          ltac:(simpl; tauto))) as H224.
      pose proof (not_contains_4 240 a b c d Hb ltac:(lia)
                    (Hout {| IP := (240, 0, 0, 0); Mask := 4 |}
                          ltac:(simpl; tauto))) as H240.
      change (224 / 16) with 14 in H224. change (240 / 16) with 15 in H240.
      destruct Hb as (Ha & _).
      assert (a / 16 < 16) by (apply Z.div_lt_upper_bound; lia).
      assert (a / 16 ≤ 13) by lia.
      pose proof (Z.div_mod a 16 ltac:(lia)).
      pose proof (Z.mod_pos_bound a 16 ltac:(lia)). lia.
  - exists "192.1.0.0/8"%string, {| IP := (192, 0, 0, 0); Mask := 8 |}.
    split; vm_compute; reflexivity.
Qed.

Lemma check_prefix_validity_accepts_witness :
  8 ≤ 22 ≤ 24
  ∧ get_binary_string (IPNet_String {| IP := (118, 174, 128, 0); Mask := 22 |})
      ≫= get_prefix_from_binary
    = Some (IPNet_String {| IP := (118, 174, 128, 0); Mask := 22 |}).
Proof.
  destruct (check_prefix_validity_accepts "118.174.129.7/22"
              {| IP := (118, 174, 128, 0); Mask := 22 |}) as [H _].
  destruct H as (H1 & _ & _ & H2 & _); [vm_compute; reflexivity|].
  split; [exact H1|exact H2].
Defined.

(** ** anaximander_driver.go: what a trace discovers *)

Import traces anaximander_driver.

(** The keys of a set. *)
Definition keys {X} (s : SafeSet X) : gset string := dom (set s).

Lemma keys_unsafe_add_key {X} (s : SafeSet X) k :
  keys (unsafe_add_key s k) = {[k]} ∪ keys s.
Proof. unfold keys, unsafe_add_key, unsafe_add. simpl. apply dom_insert_L. Qed.

(** A router is in [discovered_routers] exactly when two of its addresses
    are recorded, and one or two addresses are recorded for every router
    seen. *)
Definition routers_inv (d : discovered) : Prop :=
  fake (in_progress_discovered_routers d) = None
  ∧ (∀ r v, set (in_progress_discovered_routers d) !! r = Some v →
            ∃ S : gset string, v = V_set S ∧ (size S = 1 ∨ size S = 2)%nat)
  ∧ (∀ r, r ∈ keys (discovered_routers d)
          ↔ ∃ S : gset string,
              set (in_progress_discovered_routers d) !! r = Some (V_set S)
              ∧ size S = 2%nat).

Lemma process_router_inv hop d :
  routers_inv d →
  ∃ d', process_router hop d = Some d' ∧ routers_inv d'
    ∧ discovered_adjs d' = discovered_adjs d
    ∧ discovered_multi_adjs d' = discovered_multi_adjs d
    ∧ discovered_addresses d' = discovered_addresses d
    ∧ keys (discovered_routers d) ⊆ keys (discovered_routers d').
Proof.
  intros (Hfake & Hval & Hdisc). unfold process_router.
  destruct (String.eqb (router hop) ""); [by exists d|].
  unfold unsafe_get, unsafe_append, unsafe_get. rewrite Hfake.
  destruct (set (in_progress_discovered_routers d) !! router hop)
    as [v|] eqn:E.
  - destruct (Hval _ _ E) as (S & -> & HS).
    case_bool_decide as H1; [|by exists d].
    case_bool_decide as Hin; [by exists d|].
    assert (Hsize : size ({[addr hop]} ∪ S) = 2%nat).
    { rewrite size_union by (by apply disjoint_singleton_l).
      rewrite size_singleton. lia. }
    eexists. split; [reflexivity|]. split; [|simpl; repeat split; try done].
    + unfold routers_inv. simpl. split; [done|]. split.
      * intros r v. unfold unsafe_add. simpl.
        destruct (decide (r = router hop)) as [->|Hne].
        -- rewrite lookup_insert_eq. intros [= <-]. eexists. split; [done|].
           by right.
        -- rewrite lookup_insert_ne by done. apply Hval.
      * intros r. rewrite keys_unsafe_add_key. unfold unsafe_add. simpl.
        destruct (decide (r = router hop)) as [->|Hne].
        -- rewrite lookup_insert_eq. split.
           ++ intros _. by eexists.
           ++ intros _. apply elem_of_union. left. by apply elem_of_singleton.
        -- rewrite lookup_insert_ne by done. rewrite <- Hdisc.
           rewrite elem_of_union, elem_of_singleton. tauto.
    + rewrite keys_unsafe_add_key. apply union_subseteq_r.
  - eexists. split; [reflexivity|]. split; [|simpl; repeat split; done].
    unfold routers_inv. simpl. split; [done|]. split.
    + intros r v. unfold unsafe_add. simpl.
      destruct (decide (r = router hop)) as [->|Hne].
      * rewrite lookup_insert_eq. intros [= <-]. eexists. split; [done|].
        left. apply size_singleton.
      * rewrite lookup_insert_ne by done. apply Hval.
    + intros r. unfold unsafe_add. simpl.
      destruct (decide (r = router hop)) as [->|Hne].
      * rewrite lookup_insert_eq. split.
        -- intros Hr. apply Hdisc in Hr as (S & HS & _). by rewrite E in HS.
        -- intros (S & [= <-] & HS). rewrite size_singleton in HS. lia.
      * rewrite lookup_insert_ne by done. apply Hdisc.
Qed.

(** The adjacencies of a trace a pass of [process_trace] looks at: the
    pairs of a hop and the next one. *)
Definition hop_pairs (trace : Trace) : list (Hop * Hop) :=
  zip trace (tail trace).

(** The pairs with an end in the AS of interest, [far] telling the ones
    more than one TTL apart from the ones at one TTL. *)
Definition seen_pair (as_interest : string) (far : bool) (p : Hop * Hop)
  : bool :=
  (String.eqb (asn p.1) as_interest || String.eqb (asn p.2) as_interest)
  && (if far then probe_ttl p.2 - probe_ttl p.1 >? 1
      else probe_ttl p.2 - probe_ttl p.1 =? 1).

Definition pair_keys (as_interest : string) (far : bool) (trace : Trace)
  : gset string :=
  list_to_set ((λ p, adj_key p.1 p.2)
                 <$> filter (λ p, seen_pair as_interest far p = true)
                            (hop_pairs trace)).

Definition hops_of (as_interest : string) (trace : list Hop) : list Hop :=
  filter (λ hop, asn hop = as_interest) trace.

Lemma hops_of_cons as_interest hop rest :
  hops_of as_interest (hop :: rest)
  = if decide (asn hop = as_interest) then hop :: hops_of as_interest rest
    else hops_of as_interest rest.
Proof. unfold hops_of. by rewrite filter_cons. Qed.

Lemma pair_keys_cons as_interest far hop next_hop rest :
  pair_keys as_interest far (hop :: next_hop :: rest)
  = (if seen_pair as_interest far (hop, next_hop)
     then {[adj_key hop next_hop]} else ∅)
    ∪ pair_keys as_interest far (next_hop :: rest).
Proof.
  unfold pair_keys, hop_pairs. simpl tail. simpl zip. rewrite filter_cons.
  destruct (seen_pair as_interest far (hop, next_hop)) eqn:E.
  - rewrite decide_True by done. by rewrite fmap_cons, list_to_set_cons.
  - rewrite decide_False by done. by rewrite (left_id_L ∅ (∪)).
Qed.

Lemma process_hops_cons as_interest hop rest discovery d :
  process_hops as_interest (hop :: rest) discovery d
  = match
      if String.eqb (asn hop) as_interest
      then pair (discovery + 1) <$> process_hop hop d
      else Some (discovery, d)
    with
    | None => None
    | Some (discovery, d) =>
        match rest with
        | [] => Some (discovery, d)
        | next_hop :: _ =>
            if negb (String.eqb (asn hop) as_interest)
               && negb (String.eqb (asn next_hop) as_interest)
            then process_hops as_interest rest discovery d
            else process_hops as_interest rest discovery
                              (process_adjacency hop next_hop d)
        end
    end.
Proof. reflexivity. Qed.

(** The part of a pass for the hop itself. *)
Lemma process_hop_step as_interest hop discovery d :
  routers_inv d →
  ∃ d1,
    (if String.eqb (asn hop) as_interest
     then pair (discovery + 1) <$> process_hop hop d
     else Some (discovery, d))
    = Some (discovery
            + Z.of_nat (length (hops_of as_interest [hop])), d1)
    ∧ routers_inv d1
    ∧ keys (discovered_addresses d1)
      = keys (discovered_addresses d)
        ∪ list_to_set (addr <$> hops_of as_interest [hop])
    ∧ discovered_adjs d1 = discovered_adjs d
    ∧ discovered_multi_adjs d1 = discovered_multi_adjs d
    ∧ keys (discovered_routers d) ⊆ keys (discovered_routers d1).
Proof.
  intros Hinv. rewrite hops_of_cons, String_eqb_bool_decide.
  destruct (decide (asn hop = as_interest)) as [Has|Has].
  - rewrite bool_decide_eq_true_2 by done. unfold process_hop.
    destruct (process_router_inv hop
      {| discovered_adjs := discovered_adjs d;
         discovered_multi_adjs := discovered_multi_adjs d;
         discovered_addresses :=
           unsafe_add_key (discovered_addresses d) (addr hop);
         discovered_routers := discovered_routers d;
         in_progress_discovered_routers :=
           in_progress_discovered_routers d |})
      as (d1 & -> & Hinv1 & Ea & Em & Ead & Er); [done|].
    simpl in Ea, Em, Ead, Er. exists d1. simpl.
    rewrite Ead, keys_unsafe_add_key, (right_id_L ∅ (∪)).
    split; [done|]. split; [done|]. split; [apply (comm_L (∪))|done].
  - rewrite bool_decide_eq_false_2 by done. exists d. simpl.
    rewrite Z.add_0_r, (right_id_L ∅ (∪)). done.
Qed.

Lemma keys_process_adjacency hop next_hop d :
  keys (discovered_adjs (process_adjacency hop next_hop d))
  = (if probe_ttl next_hop - probe_ttl hop =? 1
     then {[adj_key hop next_hop]} else ∅) ∪ keys (discovered_adjs d)
  ∧ keys (discovered_multi_adjs (process_adjacency hop next_hop d))
    = (if probe_ttl next_hop - probe_ttl hop >? 1
       then {[adj_key hop next_hop]} else ∅)
      ∪ keys (discovered_multi_adjs d).
Proof.
  unfold process_adjacency. simpl. split.
  - destruct (_ =? 1); [apply keys_unsafe_add_key|].
    by rewrite (left_id_L ∅ (∪)).
  - destruct (_ >? 1); [apply keys_unsafe_add_key|].
    by rewrite (left_id_L ∅ (∪)).
Qed.

Lemma process_hops_spec as_interest trace :
  ∀ discovery d, routers_inv d →
    ∃ d', process_hops as_interest trace discovery d
          = Some (discovery + Z.of_nat (length (hops_of as_interest trace)), d')
      ∧ routers_inv d'
      ∧ keys (discovered_addresses d')
        = keys (discovered_addresses d)
          ∪ list_to_set (addr <$> hops_of as_interest trace)
      ∧ keys (discovered_adjs d')
        = keys (discovered_adjs d) ∪ pair_keys as_interest false trace
      ∧ keys (discovered_multi_adjs d')
        = keys (discovered_multi_adjs d) ∪ pair_keys as_interest true trace
      ∧ keys (discovered_routers d) ⊆ keys (discovered_routers d').
Proof.
  induction trace as [|hop rest IH]; intros discovery d Hinv.
  - exists d. simpl. rewrite Z.add_0_r. unfold pair_keys, hops_of. simpl.
    by rewrite !(right_id_L ∅ (∪)).
  - destruct (process_hop_step as_interest hop discovery d Hinv)
      as (d1 & Hstep & Hinv1 & Hadd1 & Ea & Em & Er).
    assert (Hlen : ∀ n,
      n + Z.of_nat (length (hops_of as_interest [hop]))
      + Z.of_nat (length (hops_of as_interest rest))
      = n + Z.of_nat (length (hops_of as_interest (hop :: rest)))).
    { intros n. rewrite !hops_of_cons. unfold hops_of at 1 2. simpl.
      destruct (decide (asn hop = as_interest)); simpl; lia. }
    assert (Haddr : ∀ S : gset string,
      S ∪ list_to_set (addr <$> hops_of as_interest [hop])
        ∪ list_to_set (addr <$> hops_of as_interest rest)
      = S ∪ list_to_set (addr <$> hops_of as_interest (hop :: rest))).
    { intros S. rewrite !hops_of_cons. unfold hops_of at 1 2. simpl.
      destruct (decide (asn hop = as_interest)); simpl.
      - by rewrite (right_id_L ∅ (∪)), <- (assoc_L (∪)).
      - by rewrite (right_id_L ∅ (∪)). }
    destruct rest as [|next_hop rest'].
    + exists d1. rewrite process_hops_cons, Hstep.
      unfold pair_keys, hop_pairs. simpl.
      rewrite Ea, Em, !(right_id_L ∅ (∪)). done.
    + destruct (negb (String.eqb (asn hop) as_interest)
                && negb (String.eqb (asn next_hop) as_interest)) eqn:Eb.
      * destruct (IH (discovery + Z.of_nat (length (hops_of as_interest [hop])))
                    d1 Hinv1)
          as (d' & Hrun & Hinv' & Hadd & Hadj & Hmul & Hr).
        exists d'. rewrite process_hops_cons, Hstep, Eb, Hrun.
        rewrite Hlen, Hadd, Hadd1, Haddr, Hadj, Hmul, Ea, Em.
        rewrite !pair_keys_cons. unfold seen_pair. simpl fst. simpl snd.
        apply andb_prop in Eb as [E1 E2].
        apply negb_true_iff in E1, E2. rewrite E1, E2. simpl orb. cbn [andb].
        rewrite !(left_id_L ∅ (∪)).
        split; [done|]. split; [done|]. split; [done|].
        split; [done|]. split; [done|]. by etrans.
      * destruct (IH (discovery + Z.of_nat (length (hops_of as_interest [hop])))
                    (process_adjacency hop next_hop d1))
          as (d' & Hrun & Hinv' & Hadd & Hadj & Hmul & Hr); [done|].
        exists d'. rewrite process_hops_cons, Hstep, Eb, Hrun.
        destruct (keys_process_adjacency hop next_hop d1) as [Ka Km].
        rewrite Hlen, Hadd. simpl discovered_addresses.
        rewrite Hadd1, Haddr, Hadj, Hmul, Ka, Km, Ea, Em.
        rewrite !pair_keys_cons. unfold seen_pair. simpl fst. simpl snd.
        assert (Eor : String.eqb (asn hop) as_interest
                      || String.eqb (asn next_hop) as_interest = true).
        { destruct (String.eqb (asn hop) as_interest); [done|].
          by destruct (String.eqb (asn next_hop) as_interest). }
        rewrite Eor. cbn [andb].
        split; [done|]. split; [done|]. split; [done|].
        split; [|split; [|by etrans]].
        -- rewrite (comm_L (∪) _ (keys (discovered_adjs d))).
           by rewrite <- !(assoc_L (∪)).
        -- rewrite (comm_L (∪) _ (keys (discovered_multi_adjs d))).
           by rewrite <- !(assoc_L (∪)).
Qed.

Definition no_discovery : discovered :=
  {| discovered_adjs := create_safeset;
     discovered_multi_adjs := create_safeset;
     discovered_addresses := create_safeset;
     discovered_routers := create_safeset;
     in_progress_discovered_routers := create_safeset |}.

Lemma routers_inv_no_discovery : routers_inv no_discovery.
Proof.
  unfold routers_inv, no_discovery, keys. simpl. split; [done|]. split.
  - intros r v. by rewrite lookup_empty.
  - intros r. rewrite dom_empty_L. split; [set_solver|].
    intros (S & HS & _). by rewrite lookup_empty in HS.
Qed.

(** X25. [process_trace], started from sets in which a router is in
    [discovered_routers] exactly when two of its addresses are recorded
    (and every router seen has one or two of them recorded), never fails
    and keeps the sets so.  For a trace, the count it returns is the number
    of hops of the trace in the AS of interest; the addresses it adds are
    the ones of these hops; the adjacencies it adds are the ones of the
    consecutive hops with an end in the AS of interest, in [discovered_adjs]
    at a TTL distance of one and in [discovered_multi_adjs] at a larger
    one (at a distance of zero or less, in neither); no router is removed
    from [discovered_routers].  For what is not a trace it returns 0 and
    changes nothing. *)
Theorem process_trace_discovers (trace_i : option (value Trace))
        (as_interest : string) (d : discovered) :
  routers_inv d →
  ∃ n d',
    process_trace trace_i as_interest d = Some (n, d')
    ∧ routers_inv d'
    ∧ match trace_i with
      | Some (V_other trace) =>
          n = Z.of_nat (length (hops_of as_interest trace))
          ∧ keys (discovered_addresses d')
            = keys (discovered_addresses d)
              ∪ list_to_set (addr <$> hops_of as_interest trace)
          ∧ keys (discovered_adjs d')
            = keys (discovered_adjs d) ∪ pair_keys as_interest false trace
          ∧ keys (discovered_multi_adjs d')
            = keys (discovered_multi_adjs d)
              ∪ pair_keys as_interest true trace
          ∧ keys (discovered_routers d) ⊆ keys (discovered_routers d')
      | _ => n = 0 ∧ d' = d
      end.
Proof.
  intros Hinv.
  assert (Hother : ∀ t : option (value Trace),
            (∀ trace, t ≠ Some (V_other trace)) →
            process_trace t as_interest d = Some (0, d)).
  { intros t Ht. destruct t as [[]|]; try done. by destruct (Ht x). }
  destruct trace_i as [[| | | | |trace]|];
    try (exists 0, d; rewrite Hother by done; done).
  destruct (process_hops_spec as_interest trace 0 d Hinv)
    as (d' & Hrun & Hinv' & Hadd & Hadj & Hmul & Hr).
  exists (Z.of_nat (length (hops_of as_interest trace))), d'.
  unfold process_trace. rewrite Hrun, Z.add_0_l. done.
Qed.

Lemma process_trace_discovers_witness :
  routers_inv no_discovery
  ∧ ∃ d',
      process_trace
        (Some (V_other
           [ {| addr := "1.0.0.1"; asn := "100"; probe_ttl := 1;
                ingress := false; egress := false; router := "R1" |};
             {| addr := "1.0.0.2"; asn := "100"; probe_ttl := 2;
                ingress := false; egress := false; router := "R1" |};
             {| addr := "2.0.0.1"; asn := "200"; probe_ttl := 4;
                ingress := false; egress := false; router := "" |} ]))
        "100" no_discovery = Some (2, d')
      ∧ routers_inv d'.
Proof.
  split; [exact routers_inv_no_discovery|].
  destruct (process_trace_discovers
    (Some (V_other
       [ {| addr := "1.0.0.1"; asn := "100"; probe_ttl := 1;
            ingress := false; egress := false; router := "R1" |};
         {| addr := "1.0.0.2"; asn := "100"; probe_ttl := 2;
            ingress := false; egress := false; router := "R1" |};
         {| addr := "2.0.0.1"; asn := "200"; probe_ttl := 4;
            ingress := false; egress := false; router := "" |} ]))
    "100" no_discovery routers_inv_no_discovery)
    as (n & d' & Hrun & Hinv' & Hn & _).
  exists d'. split; [|exact Hinv'].
  rewrite Hrun, Hn. reflexivity.
Defined.

(** ** probing_strategies.go: the traces of the warts dumps *)

(** No hop has the address of the one before it, [prev] being the address
    before the first. *)
Fixpoint no_repetition (prev : string) (trace : list Hop) : Prop :=
  match trace with
  | [] => True
  | hop :: rest => addr hop ≠ prev ∧ no_repetition (addr hop) rest
  end.

Lemma prune_dups_loop_no_repetition trace :
  ∀ prev, no_repetition prev (prune_dups_loop prev trace).
Proof.
  induction trace as [|hop rest IH]; intros prev; simpl; [done|].
  destruct (String.eqb_spec prev (addr hop)) as [->|Hne]; simpl.
  - apply IH.
  - split; [done|apply IH].
Qed.

Lemma no_repetition_fixed trace :
  ∀ prev, no_repetition prev trace → prune_dups_loop prev trace = trace.
Proof.
  induction trace as [|hop rest IH]; intros prev; simpl; [done|].
  intros [Hne Hrest].
  destruct (String.eqb_spec prev (addr hop)) as [->|_]; [done|]. simpl.
  by rewrite IH.
Qed.

Lemma no_repetition_lookup (trace : list Hop) :
  ∀ prev, no_repetition prev trace →
    ∀ (i : nat) h h', trace !! i = Some h → trace !! S i = Some h' →
                      addr h ≠ addr h'.
Proof.
  induction trace as [|hop rest IH]; intros prev; simpl; [done|].
  intros [_ Hrest] [|i] h h'.
  - intros [= <-]. destruct rest as [|next rest']; [done|].
    intros [= <-]. simpl in Hrest. destruct Hrest as [Hne _]. done.
  - apply (IH _ Hrest).
Qed.

Lemma prune_dups_loop_sublist trace :
  ∀ prev, sublist (prune_dups_loop prev trace) trace.
Proof.
  induction trace as [|hop rest IH]; intros prev; simpl; [done|].
  destruct (negb _); [apply sublist_skip|apply sublist_cons]; apply IH.
Qed.

Lemma prune_dups_loop_addrs (trace : list Hop) a :
  ∀ prev, a ≠ prev → a ∈ addr <$> trace →
          a ∈ addr <$> prune_dups_loop prev trace.
Proof.
  induction trace as [|hop rest IH]; intros prev Hne; simpl; [done|].
  rewrite elem_of_cons.
  destruct (String.eqb_spec prev (addr hop)) as [->|Hp]; simpl.
  - intros [->|Hin]; [done|]. by apply IH.
  - rewrite elem_of_cons. intros [->|Hin]; [by left|].
    destruct (decide (a = addr hop)) as [->|Ha]; [by left|].
    right. by apply IH.
Qed.

(** X26. [prune_dups] gives a subsequence of the trace in which no hop has
    the address of the hop before it and the first hop has an address: a
    hop is dropped when its address is the one of the hop before it in
    the trace, and so is a first hop with the empty address.  Every
    address of the trace but the empty one is kept, and pruning a pruned
    trace changes nothing. *)
Theorem prune_dups_spec (trace : Trace) :
  sublist (prune_dups trace) trace
  ∧ (∀ h, head (prune_dups trace) = Some h → addr h ≠ "")
  ∧ (∀ (i : nat) h h',
       prune_dups trace !! i = Some h → prune_dups trace !! S i = Some h' →
       addr h ≠ addr h')
  ∧ (∀ a, a ≠ "" → a ∈ addr <$> trace → a ∈ addr <$> prune_dups trace)
  ∧ prune_dups (prune_dups trace) = prune_dups trace.
Proof.
  unfold prune_dups.
  pose proof (prune_dups_loop_no_repetition trace "") as Hno.
  split; [apply prune_dups_loop_sublist|]. split; [|split; [|split]].
  - intros h Hh. destruct (prune_dups_loop "" trace) as [|h0 rest]; [done|].
    simpl in Hh, Hno. injection Hh as ->. by destruct Hno.
  - by apply (no_repetition_lookup _ "").
  - intros a Ha. by apply prune_dups_loop_addrs.
  - by apply no_repetition_fixed.
Qed.

(** The adjacencies of a trace, whatever the ASes of their ends. *)
Definition all_pair_keys (far : bool) (trace : list Hop) : gset string :=
  list_to_set ((λ p, adj_key p.1 p.2)
                 <$> filter (λ p : Hop * Hop,
                               (if far then probe_ttl p.2 - probe_ttl p.1 >? 1
                                else probe_ttl p.2 - probe_ttl p.1 =? 1) = true)
                            (hop_pairs trace)).

Lemma all_pair_keys_cons far hop next_hop rest :
  all_pair_keys far (hop :: next_hop :: rest)
  = (if (if far then probe_ttl next_hop - probe_ttl hop >? 1
         else probe_ttl next_hop - probe_ttl hop =? 1)
     then {[adj_key hop next_hop]} else ∅)
    ∪ all_pair_keys far (next_hop :: rest).
Proof.
  unfold all_pair_keys, hop_pairs. simpl tail. simpl zip. rewrite filter_cons.
  simpl fst. simpl snd.
  destruct (if far then probe_ttl next_hop - probe_ttl hop >? 1
            else probe_ttl next_hop - probe_ttl hop =? 1) eqn:E.
  - rewrite decide_True by done. by rewrite fmap_cons, list_to_set_cons.
  - rewrite decide_False by done. by rewrite (left_id_L ∅ (∪)).
Qed.

Lemma pair_keys_subseteq as_interest far (trace : list Hop) :
  pair_keys as_interest far trace ⊆ all_pair_keys far trace.
Proof.
  induction trace as [|hop rest IH]; [done|].
  destruct rest as [|next_hop rest']; [done|].
  rewrite pair_keys_cons, all_pair_keys_cons. unfold seen_pair.
  simpl fst. simpl snd.
  apply union_mono; [|done].
  destruct (_ || _); [done|]. cbn [andb]. apply empty_subseteq.
Qed.

Lemma commit_adjs_keys (trace : list Hop) :
  ∀ adjs multi_adjs,
    keys (commit_adjs trace adjs multi_adjs).1
    = keys adjs ∪ all_pair_keys false trace
    ∧ keys (commit_adjs trace adjs multi_adjs).2
      = keys multi_adjs ∪ all_pair_keys true trace.
Proof.
  induction trace as [|hop rest IH]; intros adjs multi_adjs.
  - simpl. unfold all_pair_keys, hop_pairs. simpl.
    by rewrite !(right_id_L ∅ (∪)).
  - destruct rest as [|next_hop rest'].
    + simpl. unfold all_pair_keys, hop_pairs. simpl.
      by rewrite !(right_id_L ∅ (∪)).
    + rewrite !all_pair_keys_cons.
      change (commit_adjs (hop :: next_hop :: rest') adjs multi_adjs)
        with (commit_adjs (next_hop :: rest')
                (if probe_ttl next_hop - probe_ttl hop =? 1
                 then unsafe_add_key adjs (adj_key hop next_hop) else adjs)
                (if probe_ttl next_hop - probe_ttl hop >? 1
                 then unsafe_add_key multi_adjs (adj_key hop next_hop)
                 else multi_adjs)).
      destruct (IH (if probe_ttl next_hop - probe_ttl hop =? 1
                    then unsafe_add_key adjs (adj_key hop next_hop) else adjs)
                   (if probe_ttl next_hop - probe_ttl hop >? 1
                    then unsafe_add_key multi_adjs (adj_key hop next_hop)
                    else multi_adjs)) as [-> ->].
      split.
      * destruct (_ =? 1).
        -- rewrite keys_unsafe_add_key.
           rewrite (comm_L (∪) _ (keys adjs)). by rewrite <- !(assoc_L (∪)).
        -- by rewrite (left_id_L ∅ (∪)).
      * destruct (_ >? 1).
        -- rewrite keys_unsafe_add_key.
           rewrite (comm_L (∪) _ (keys multi_adjs)).
           by rewrite <- !(assoc_L (∪)).
        -- by rewrite (left_id_L ∅ (∪)).
Qed.

(** Two traces with the same hops, but for the flags of the borders. *)
Definition same_hops : list Hop → list Hop → Prop :=
  Forall2 (λ h h', addr h = addr h' ∧ asn h = asn h'
                   ∧ probe_ttl h = probe_ttl h' ∧ router h = router h').

Lemma mark_borders_same_hops trace :
  ∀ ingress_now, same_hops (mark_borders ingress_now trace) trace.
Proof.
  induction trace as [|hop rest IH]; intros ingress_now; simpl.
  - constructor.
  - constructor; [done|apply IH].
Qed.

Lemma same_hops_pair_keys as_interest far l l' :
  same_hops l l' → pair_keys as_interest far l = pair_keys as_interest far l'.
Proof.
  induction 1 as [|h h' l l' (Ha & Has & Ht & _) Hl IH]; [done|].
  destruct Hl as [|n n' r r' (Hna & Hnas & Hnt & _) Hr]; [done|].
  rewrite !pair_keys_cons, IH. unfold seen_pair, adj_key. simpl fst. simpl snd.
  by rewrite Ha, Has, Ht, Hna, Hnas, Hnt.
Qed.

Lemma same_hops_hops_of as_interest l l' :
  same_hops l l' →
  length (hops_of as_interest l) = length (hops_of as_interest l').
Proof.
  induction 1 as [|h h' l l' (Ha & Has & Ht & _) Hl IH]; [done|].
  rewrite !hops_of_cons, Has.
  destruct (decide (asn h' = as_interest)); simpl; by rewrite IH.
Qed.

(** X27. What [commit_trace] stores serves [process_trace]: the trace it
    stores under the /24 of the destination is found there, with the
    vantage point under the same key in [target_to_vp]; the adjacencies it
    records are the ones of the consecutive hops of the pruned trace (at a
    TTL distance of one in [adjs], at a larger one in [multi_adjs]); and
    [process_trace] on the stored trace, for any AS of interest, counts the
    hops of the pruned trace in that AS and discovers no adjacency that
    [commit_trace] has not recorded. *)
Theorem commit_trace_covers (source dest : string) (trace : Trace)
        (p p' : parsed) :
  commit_trace source dest trace p = Some p' →
  ∃ dest_24 stored,
    set (p_traces p') !! dest_24 = Some (V_other stored)
    ∧ set (p_target_to_vp p') !! dest_24 = Some (V_string source)
    ∧ keys (p_adjs p')
      = keys (p_adjs p) ∪ all_pair_keys false (prune_dups trace)
    ∧ keys (p_multi_adjs p')
      = keys (p_multi_adjs p) ∪ all_pair_keys true (prune_dups trace)
    ∧ ∀ as_interest d, routers_inv d →
        ∃ d',
          process_trace (Some (V_other stored)) as_interest d
          = Some (Z.of_nat (length (hops_of as_interest (prune_dups trace))),
                  d')
          ∧ keys (discovered_adjs d')
            ⊆ keys (discovered_adjs d) ∪ keys (p_adjs p')
          ∧ keys (discovered_multi_adjs d')
            ⊆ keys (discovered_multi_adjs d) ∪ keys (p_multi_adjs p').
Proof.
  unfold commit_trace.
  destruct (commit_adjs_keys (prune_dups trace) (p_adjs p) (p_multi_adjs p))
    as [Ka Km].
  destruct (commit_adjs (prune_dups trace) (p_adjs p) (p_multi_adjs p))
    as [adjs multi_adjs].
  simpl in Ka, Km.
  destruct (Split "." dest) as [|c0 [|c1 [|c2 more]]]; try done.
  intros [= <-]. simpl.
  exists (Join [c0; c1; c2] "." +:+ ".0/24"),
         (mark_borders false (prune_dups trace)).
  rewrite !lookup_insert_eq. split; [done|]. split; [done|].
  split; [done|]. split; [done|].
  intros as_interest d Hinv.
  pose proof (mark_borders_same_hops (prune_dups trace) false) as Hsame.
  destruct (process_hops_spec as_interest
              (mark_borders false (prune_dups trace)) 0 d Hinv)
    as (d' & Hrun & _ & _ & Hadj & Hmul & _).
  exists d'. unfold process_trace.
  rewrite Hrun, Z.add_0_l, (same_hops_hops_of _ _ _ Hsame).
  split; [done|].
  rewrite Hadj, Hmul, Ka, Km, !(same_hops_pair_keys _ _ _ _ Hsame).
  split.
  - apply union_mono; [done|].
    etrans; [apply pair_keys_subseteq|apply union_subseteq_r].
  - apply union_mono; [done|].
    etrans; [apply pair_keys_subseteq|apply union_subseteq_r].
Qed.

Definition nothing_parsed : parsed :=
  {| p_traces := create_safeset; p_adjs := create_safeset;
     p_multi_adjs := create_safeset; p_target_to_vp := create_safeset |}.

Lemma commit_trace_covers_witness :
  ∃ p' dest_24 stored d',
    commit_trace "vp1" "1.2.3.4"
      [ {| addr := "1.0.0.1"; asn := "100"; probe_ttl := 1;
           ingress := false; egress := false; router := "R1" |};
        {| addr := "1.0.0.1"; asn := "100"; probe_ttl := 2;
           ingress := false; egress := false; router := "R1" |};
        {| addr := "2.0.0.1"; asn := "200"; probe_ttl := 4;
           ingress := false; egress := false; router := "" |} ]
      nothing_parsed = Some p'
    ∧ set (p_traces p') !! dest_24 = Some (V_other stored)
    ∧ process_trace (Some (V_other stored)) "100" no_discovery
      = Some (1, d').
Proof.
  destruct (commit_trace "vp1" "1.2.3.4"
      [ {| addr := "1.0.0.1"; asn := "100"; probe_ttl := 1;
           ingress := false; egress := false; router := "R1" |};
        {| addr := "1.0.0.1"; asn := "100"; probe_ttl := 2;
           ingress := false; egress := false; router := "R1" |};
        {| addr := "2.0.0.1"; asn := "200"; probe_ttl := 4;
           ingress := false; egress := false; router := "" |} ]
      nothing_parsed) as [p'|] eqn:E; [|discriminate E].
  destruct (commit_trace_covers _ _ _ _ _ E)
    as (dest_24 & stored & Hst & _ & _ & _ & Hproc).
  destruct (Hproc "100"%string no_discovery routers_inv_no_discovery)
    as (d' & Hrun & _).
  exists p', dest_24, stored, d'. split; [reflexivity|]. split; [exact Hst|].
  exact Hrun.
Defined.

(** ** anaximander_driver.go: the ground truth of an AS *)

(** The address is mapped to the AS. *)
Definition in_AS (addr_to_asn : Set_) (AS addr : string) : bool :=
  is_AS (unsafe_get addr_to_asn addr) AS.

(** One of the two addresses of the key of an adjacency is mapped to the
    AS. *)
Definition pair_in_AS (addr_to_asn : Set_) (AS addr1_addr2 : string) : bool :=
  match Split "_" addr1_addr2 with
  | s0 :: s1 :: _ => in_AS addr_to_asn AS s0 || in_AS addr_to_asn AS s1
  | _ => false
  end.

(** The key has the two parts [filterAS] reads. *)
Definition has_two_parts (addr1_addr2 : string) : bool :=
  (2 <=? length (Split "_" addr1_addr2))%nat.

Lemma keys_create_safeset {X} : keys (@create_safeset X) = ∅.
Proof. unfold keys, create_safeset. simpl. apply dom_empty_L. Qed.

Lemma keys_map_to_list {X} (s : SafeSet X) k :
  k ∈ (map_to_list (set s)).*1 ↔ k ∈ keys s.
Proof.
  unfold keys. rewrite elem_of_dom, list_elem_of_fmap. split.
  - intros ([k' v] & -> & H). apply elem_of_map_to_list in H. by exists v.
  - intros [v H]. exists (k, v). split; [done|]. by apply elem_of_map_to_list.
Qed.

Lemma fold_keep_keys {X} (P : string → bool) (l : list string) :
  ∀ acc : SafeSet X,
    keys (foldl (λ filtered k, if P k then unsafe_add_key filtered k
                               else filtered) acc l)
    = keys acc ∪ list_to_set (filter (λ k, P k = true) l).
Proof.
  induction l as [|k l IH]; intros acc; simpl.
  - by rewrite (right_id_L ∅ (∪)).
  - rewrite IH, filter_cons. destruct (P k) eqn:E.
    + rewrite decide_True by done.
      rewrite keys_unsafe_add_key, list_to_set_cons.
      rewrite (comm_L (∪) {[k]} (keys acc)). by rewrite (assoc_L (∪)).
    + by rewrite decide_False by done.
Qed.

Lemma fold_keep_keys_elem {X} (P : string → bool) (s : SafeSet X) k :
  k ∈ keys (foldl (λ filtered k, if P k then unsafe_add_key filtered k
                                 else filtered)
                  (@create_safeset X) (map_to_list (set s)).*1)
  ↔ k ∈ keys s ∧ P k = true.
Proof.
  rewrite fold_keep_keys, keys_create_safeset, (left_id_L ∅ (∪)).
  rewrite elem_of_list_to_set, list_elem_of_filter, keys_map_to_list. tauto.
Qed.

Lemma filter_pairs_fold AS (addr_to_asn : Set_) (l : list string) :
  ∀ acc : Set_,
    foldl (λ acc addr1_addr2,
             match acc with
             | None => None
             | Some filtered =>
                 match Split "_" addr1_addr2 with
                 | s0 :: s1 :: _ =>
                     if is_AS (unsafe_get addr_to_asn s0) AS
                        || is_AS (unsafe_get addr_to_asn s1) AS
                     then Some (unsafe_add_key filtered addr1_addr2)
                     else Some filtered
                 | _ => None
                 end
             end) (Some acc) l
    = if forallb has_two_parts l
      then Some (foldl (λ filtered k,
                          if pair_in_AS addr_to_asn AS k
                          then unsafe_add_key filtered k else filtered) acc l)
      else None.
Proof.
  assert (Hnone : ∀ l : list string,
    foldl (λ acc addr1_addr2,
             match acc with
             | None => None
             | Some filtered =>
                 match Split "_" addr1_addr2 with
                 | s0 :: s1 :: _ =>
                     if is_AS (unsafe_get addr_to_asn s0) AS
                        || is_AS (unsafe_get addr_to_asn s1) AS
                     then Some (unsafe_add_key filtered addr1_addr2)
                     else Some filtered
                 | _ => None
                 end
             end) (@None Set_) l = None).
  { intros l'. by induction l' as [|k l' IH]. }
  induction l as [|k l IH]; intros acc; [done|].
  simpl foldl. simpl forallb.
  assert (H2 : has_two_parts k
               = match Split "_" k with _ :: _ :: _ => true | _ => false end).
  { unfold has_two_parts. by destruct (Split "_" k) as [|? [|? ?]]. }
  assert (Hp : pair_in_AS addr_to_asn AS k
               = match Split "_" k with
                 | s0 :: s1 :: _ =>
                     is_AS (unsafe_get addr_to_asn s0) AS
                     || is_AS (unsafe_get addr_to_asn s1) AS
                 | _ => false
                 end) by reflexivity.
  rewrite H2, Hp.
  destruct (Split "_" k) as [|s0 [|s1 more]]; [apply Hnone..|].
  cbn [andb]. destruct (_ || _); apply IH.
Qed.

Lemma filter_pairs_spec AS (pairs addr_to_asn : Set_) :
  (filter_pairs AS pairs addr_to_asn = None
   ↔ ∃ k, k ∈ keys pairs ∧ (length (Split "_" k) < 2)%nat)
  ∧ ∀ filtered, filter_pairs AS pairs addr_to_asn = Some filtered →
      ∀ k, k ∈ keys filtered
           ↔ k ∈ keys pairs ∧ pair_in_AS addr_to_asn AS k = true.
Proof.
  unfold filter_pairs. rewrite filter_pairs_fold.
  destruct (forallb has_two_parts (map_to_list (set pairs)).*1) eqn:E.
  - split.
    + split; [done|]. intros (k & Hk & Hlen).
      apply keys_map_to_list, list_elem_of_In in Hk.
      pose proof (proj1 (forallb_forall _ _) E k Hk) as H2.
      unfold has_two_parts in H2. apply Nat.leb_le in H2. lia.
    + intros filtered [= <-] k. apply fold_keep_keys_elem.
  - split; [|done]. split; [|done]. intros _.
    apply forallb_false_elem in E as (k & Hk & H2).
    exists k. split; [by apply keys_map_to_list|].
    unfold has_two_parts in H2. by apply Nat.leb_gt in H2.
Qed.

Lemma filter_routers_fold AS (l : list (string * value Trace)) :
  ∀ acc : Set_,
    keys (foldl (λ filtered '(router, asn),
                   if is_AS (Some asn) AS then unsafe_add_key filtered router
                   else filtered) acc l)
    = keys acc
      ∪ list_to_set (filter (λ p, is_AS (Some p.2) AS = true) l).*1.
Proof.
  induction l as [|[router v] l IH]; intros acc; cbn [foldl].
  - simpl. by rewrite (right_id_L ∅ (∪)).
  - rewrite IH, filter_cons. simpl snd. destruct (is_AS (Some v) AS) eqn:E.
    + rewrite decide_True by done.
      rewrite keys_unsafe_add_key, fmap_cons, list_to_set_cons. simpl fst.
      rewrite (comm_L (∪) {[router]} (keys acc)). by rewrite (assoc_L (∪)).
    + by rewrite decide_False by done.
Qed.

Lemma is_AS_string (v : value Trace) AS :
  is_AS (Some v) AS = true ↔ v = V_string AS.
Proof.
  destruct v; simpl; try (split; [done|discriminate]).
  rewrite String.eqb_eq. split; [by intros ->|by intros [= ->]].
Qed.

(** X28. [filterAS] panics exactly when a key of [adjs] or of [multi_adjs]
    has no ["_"].  Otherwise, whatever the order in which the maps are
    ranged over, the four sets it returns are: the keys of [adjs], and the
    ones of [multi_adjs], of which the part before the first ["_"] or the
    part between the first two is mapped to the AS by [addr_to_asn]; the
    keys of [addresses] mapped to the AS; and the routers [router_to_asn]
    maps to the AS (a value that is no string is mapped to no AS). *)
Theorem filterAS_spec (AS : string)
        (adjs multi_adjs addresses router_to_asn addr_to_asn : Set_) :
  (filterAS AS adjs multi_adjs addresses router_to_asn addr_to_asn = None
   ↔ ∃ k, (k ∈ keys adjs ∨ k ∈ keys multi_adjs)
          ∧ (length (Split "_" k) < 2)%nat)
  ∧ ∀ filtered_adjs filtered_multi_adjs filtered_addresses filtered_routers,
      filterAS AS adjs multi_adjs addresses router_to_asn addr_to_asn
      = Some (filtered_adjs, filtered_multi_adjs, filtered_addresses,
              filtered_routers) →
      (∀ k, k ∈ keys filtered_adjs
            ↔ k ∈ keys adjs ∧ pair_in_AS addr_to_asn AS k = true)
      ∧ (∀ k, k ∈ keys filtered_multi_adjs
              ↔ k ∈ keys multi_adjs ∧ pair_in_AS addr_to_asn AS k = true)
      ∧ (∀ k, k ∈ keys filtered_addresses
              ↔ k ∈ keys addresses ∧ in_AS addr_to_asn AS k = true)
      ∧ (∀ k, k ∈ keys filtered_routers
              ↔ set router_to_asn !! k = Some (V_string AS)).
Proof.
  unfold filterAS.
  destruct (filter_pairs_spec AS adjs addr_to_asn) as [Na Sa].
  destruct (filter_pairs_spec AS multi_adjs addr_to_asn) as [Nm Sm].
  destruct (filter_pairs AS adjs addr_to_asn) as [fa|];
    destruct (filter_pairs AS multi_adjs addr_to_asn) as [fm|].
  - split.
    + split; [done|]. intros (k & [Hk|Hk] & Hlen).
      * assert (Some fa = None) by (apply Na; by exists k). done.
      * assert (Some fm = None) by (apply Nm; by exists k). done.
    + intros ? ? ? ? [= <- <- <- <-].
      split; [by apply Sa|]. split; [by apply Sm|]. split.
      * intros k. apply fold_keep_keys_elem.
      * intros k. unfold filter_routers.
        rewrite filter_routers_fold, keys_create_safeset, (left_id_L ∅ (∪)).
        rewrite elem_of_list_to_set, list_elem_of_fmap. split.
        -- intros ([k' v] & -> & H). apply list_elem_of_filter in H as [HAS H].
           apply elem_of_map_to_list in H. simpl in *.
           apply is_AS_string in HAS. by subst v.
        -- intros H. exists (k, V_string AS). split; [done|].
           apply list_elem_of_filter. split; [by apply is_AS_string|].
           by apply elem_of_map_to_list.
  - split; [|done]. split; [|done]. intros _.
    destruct (proj1 Nm eq_refl) as (k & Hk & Hlen). exists k. tauto.
  - split; [|done]. split; [|done]. intros _.
    destruct (proj1 Na eq_refl) as (k & Hk & Hlen). exists k. tauto.
  - split; [|done]. split; [|done]. intros _.
    destruct (proj1 Na eq_refl) as (k & Hk & Hlen). exists k. tauto.
Qed.

(** ** caida_file_readers.go: the customer cones *)

















(** ** parallel_anaximander.go: the probes of an AS, one call after the
    other *)

Import anaximander_parallel.

(** [n] calls of [launch_as_probing] on the same status, the count of the
    stopped ASes going from a call to the next: the destinations the calls
    return, the count and the status after the last. *)
Fixpoint launch_calls (sorted_destinations : list string) (n : nat)
         (as_status : AS_status) (stopped_ases : Z)
  : option (list string * Z * AS_status) :=
  match n with
  | O => Some ([], stopped_ases, as_status)
  | S n =>
      match launch_as_probing sorted_destinations as_status stopped_ases with
      | None => None
      | Some (destination, stopped_ases, as_status) =>
          match launch_calls sorted_destinations n as_status stopped_ases with
          | None => None
          | Some (destinations, stopped_ases, as_status) =>
              Some (destination :: destinations, stopped_ases, as_status)
          end
      end
  end.

(** The status [n] probes further. *)
Definition advance (as_status : AS_status) (n : Z) (stopped' : bool)
  : AS_status :=
  {| asn := asn as_status; start := start as_status;
     end_ := end_ as_status; curr_probe := curr_probe as_status + n;
     plateau := plateau as_status; stopped := stopped';
     position := position as_status |}.

Lemma advance_0 s : advance s 0 (stopped s) = s.
Proof. destruct s. unfold advance. simpl. f_equal. lia. Qed.

Lemma advance_advance s n m b b' :
  advance (advance s n b) m b' = advance s (n + m) b'.
Proof. unfold advance. simpl. f_equal. lia. Qed.

Lemma launch_as_probing_idle dests s sa :
  stopped s = true ∨ end_ s ≤ curr_probe s →
  launch_as_probing dests s sa = Some (""%string, sa, advance s 1 (stopped s)).
Proof.
  intros H. unfold launch_as_probing.
  assert ((stopped s || (curr_probe s >=? end_ s)) = true) as ->.
  { destruct (stopped s); [done|]. destruct H as [H|H]; [done|]. simpl. lia. }
  assert (((curr_probe s + 1 =? end_ s) && negb (stopped s)) = false) as ->.
  { destruct (stopped s); [apply andb_false_r|].
    destruct H as [H|H]; [done|]. simpl. rewrite andb_true_r. lia. }
  done.
Qed.

Lemma launch_calls_idle dests n :
  ∀ s sa, stopped s = true ∨ end_ s ≤ curr_probe s →
    launch_calls dests n s sa
    = Some (replicate n ""%string, sa, advance s (Z.of_nat n) (stopped s)).
Proof.
  induction n as [|n IH]; intros s sa H.
  - simpl. by rewrite advance_0.
  - cbn [launch_calls]. rewrite launch_as_probing_idle by done.
    rewrite IH by (simpl; destruct H; [by left|right; lia]).
    simpl stopped. rewrite advance_advance. simpl replicate.
    do 3 f_equal. lia.
Qed.

Lemma launch_as_probing_active dests s sa (c e : nat) :
  stopped s = false → curr_probe s = Z.of_nat c → end_ s = Z.of_nat e →
  (c < e ≤ length dests)%nat →
  ∃ d, dests !! c = Some d
       ∧ launch_as_probing dests s sa
         = Some (d, sa + (if (S c =? e)%nat then 1 else 0),
                 advance s 1 (S c =? e)%nat).
Proof.
  intros Hs Hc He Hle.
  destruct (lookup_lt_is_Some_2 dests c) as [d Hd]; [lia|].
  exists d. split; [done|]. unfold launch_as_probing.
  rewrite Hs, Hc, He. cbn [orb negb].
  assert ((Z.of_nat c >=? Z.of_nat e) = false) as -> by lia.
  assert ((Z.of_nat c <? 0) = false) as -> by lia.
  rewrite Nat2Z.id, Hd, andb_true_r.
  destruct (Nat.eqb_spec (S c) e) as [Heq|Hne].
  - assert ((Z.of_nat c + 1 =? Z.of_nat e) = true) as -> by lia.
    unfold advance. by rewrite Hc, He.
  - assert ((Z.of_nat c + 1 =? Z.of_nat e) = false) as -> by lia.
    unfold advance. by rewrite Hc, He, Z.add_0_r.
Qed.

Lemma launch_calls_active dests n :
  ∀ s sa (c e : nat),
    stopped s = false → curr_probe s = Z.of_nat c → end_ s = Z.of_nat e →
    (c ≤ e ≤ length dests)%nat →
    launch_calls dests n s sa
    = Some (take n (take (e - c) (drop c dests))
              ++ replicate (n - (e - c)) ""%string,
            sa + (if (c <? e)%nat && (e - c <=? n)%nat then 1 else 0),
            advance s (Z.of_nat n) ((c <? e)%nat && (e - c <=? n)%nat)).
Proof.
  induction n as [|n IH]; intros s sa c e Hs Hc He Hle.
  - simpl launch_calls. rewrite take_0. simpl app.
    assert (((c <? e)%nat && (e - c <=? 0)%nat) = false) as ->.
    { destruct (Nat.ltb_spec c e); [|done].
      destruct (Nat.leb_spec (e - c) 0); [lia|done]. }
    by rewrite Z.add_0_r, <- Hs, advance_0.
  - destruct (decide (c = e)) as [->|Hne].
    + rewrite launch_calls_idle by (right; lia).
      rewrite Nat.sub_diag, take_0, take_nil, Nat.sub_0_r, Nat.ltb_irrefl.
      cbn [andb app]. by rewrite Hs, Z.add_0_r.
    + destruct (launch_as_probing_active dests s sa c e)
        as (d & Hd & Hcall); [done..|lia|].
      cbn [launch_calls]. rewrite Hcall.
      rewrite (drop_S _ _ _ Hd).
      replace (e - c)%nat with (S (e - S c)) by lia.
      rewrite firstn_cons, firstn_cons. cbn [app Nat.sub].
      assert ((c <? e)%nat = true) as -> by (apply Nat.ltb_lt; lia).
      cbn [andb].
      destruct (Nat.eqb_spec (S c) e) as [Heq|Hne'].
      * rewrite launch_calls_idle by (by left). simpl stopped.
        rewrite advance_advance.
        replace (e - S c)%nat with 0%nat by lia.
        rewrite take_0, take_nil, Nat.sub_0_r. cbn [app].
        assert ((1 <=? S n)%nat = true) as -> by (apply Nat.leb_le; lia).
        do 3 f_equal. lia.
      * rewrite (IH _ _ (S c) e); [|done|simpl; lia|done|lia].
        rewrite advance_advance.
        assert ((S c <? e)%nat = true) as -> by (apply Nat.ltb_lt; lia).
        cbn [andb].
        assert ((S (e - S c) <=? S n)%nat = (e - S c <=? n)%nat) as ->
          by done.
        rewrite Z.add_0_r. do 3 f_equal. lia.
Qed.

(** X30. The calls of [launch_as_probing] on an AS that is not stopped,
    with its current probe [c] and its end [e] in the destinations: none
    panics; the first [e - c] of them return the destinations [c] to
    [e - 1], in order, and the ones after them the empty string; the
    current probe goes up by one at every call, also at the ones that
    return nothing; and the count of the stopped ASes goes up by one, at
    the call that returns the last destination, when the AS is marked as
    stopped.  An AS with no destination at all ([c = e]) is never marked
    and never counted. *)
Theorem launch_as_probing_calls (sorted_destinations : list string) (n : nat)
        (as_status : AS_status) (stopped_ases : Z) (c e : nat) :
  stopped as_status = false →
  curr_probe as_status = Z.of_nat c → end_ as_status = Z.of_nat e →
  (c ≤ e ≤ length sorted_destinations)%nat →
  Z.of_nat e + Z.of_nat n < 2 ^ 63 →
  let last_done := (c <? e)%nat && (e - c <=? n)%nat in
  launch_calls sorted_destinations n as_status stopped_ases
  = Some (take n (take (e - c) (drop c sorted_destinations))
            ++ replicate (n - (e - c)) ""%string,
          stopped_ases + (if last_done then 1 else 0),
          advance as_status (Z.of_nat n) last_done)
  ∧ (c = e → last_done = false).
Proof.
  intros Hs Hc He Hle _ last_done. split.
  - by apply launch_calls_active.
  - intros ->. unfold last_done. by rewrite Nat.ltb_irrefl.
Qed.

Lemma launch_as_probing_calls_witness :
  launch_calls ["a"; "b"; "c"; "d"]%string 4
    {| asn := "7"; start := 1; end_ := 3; curr_probe := 1; plateau := 0;
       stopped := false; position := 0 |} 5
  = Some (["b"; "c"; ""; ""]%string, 6,
          {| asn := "7"; start := 1; end_ := 3; curr_probe := 5;
             plateau := 0; stopped := true; position := 0 |}).
Proof.
  destruct (launch_as_probing_calls ["a"; "b"; "c"; "d"]%string 4
    {| asn := "7"; start := 1; end_ := 3; curr_probe := 1; plateau := 0;
       stopped := false; position := 0 |} 5 1 3) as [H _];
    [reflexivity|reflexivity|reflexivity|simpl; lia|reflexivity|].
  exact H.
Defined.
